(** * goga: a shallow embedding of the evolutionary engine

    The development follows the Go sources: [solution.go] (solution record,
    comparison, fight, sorting), [params.go] (parameter derivation) and the
    island code (objective evaluation, demerits, tournament, pair
    filtering).

    Conventions.
    - A Go [float64] is a [spec_float] of the Standard Library's IEEE-754
      specification at precision 53 and maximal exponent 1024; comparisons
      and arithmetic are the IEEE ones (a NaN compares false with everything).
    - A Go [int] is a [Z]; where the code does arithmetic on user data the
      64-bit wrap-around is written out ([wrap64]).
    - A Go panic ([chk.Panic], a failed [chk.IntAssert], an index out of
      range) is the [Panic] result, carrying the message.
    - A call of [rnd.FlipCoin] is recorded in the outcome of the function
      that makes it, with the probability it was given. *)

From Stdlib Require Import String.
From Stdlib Require Import ZArith List Bool Lia Permutation Sorted.
From Stdlib Require Import Floats.SpecFloat.
Import ListNotations.
Open Scope Z_scope.

(* ================================================================== *)
(** * Numbers *)

(** ** float64 *)

Definition float64 := spec_float.

Definition prec64 : Z := 53.
Definition emax64 : Z := 1024.

(** The float64 nearest to [m * 2^e]. *)
Definition f64 (m e : Z) : float64 := binary_normalize prec64 emax64 m e false.

(** Conversion [float64(n)] of an integer. *)
Definition float64_of_int (n : Z) : float64 := f64 n 0.

Definition fzero : float64 := S754_zero false.
Definition fone : float64 := Eval vm_compute in f64 1 0.
Definition ftwo : float64 := Eval vm_compute in f64 2 0.
(** 0.5, 0.6 and 0.4 as Go rounds the literals. *)
Definition fhalf : float64 := S754_finite false 4503599627370496 (-53).
Definition f0_6 : float64 := S754_finite false 5404319552844595 (-53).
Definition f0_4 : float64 := S754_finite false 7205759403792794 (-54).
(** 1e-16, the tolerance passed to [utl.Scaling]. *)
Definition f1em16 : float64 := S754_finite false 8112963841460668 (-106).
Definition fpinf : float64 := S754_infinity false.
Definition fnan : float64 := S754_nan.

Definition fadd (x y : float64) : float64 := SFadd prec64 emax64 x y.
Definition fsub (x y : float64) : float64 := SFsub prec64 emax64 x y.
Definition fdiv (x y : float64) : float64 := SFdiv prec64 emax64 x y.

(** Go's [x < y], [x > y], [x == y] and [x <= y] on float64. *)
Definition flt (x y : float64) : bool := SFltb x y.
Definition fgt (x y : float64) : bool := SFltb y x.
Definition feq (x y : float64) : bool := SFeqb x y.
Definition fle (x y : float64) : bool := SFleb x y.

Definition is_nan (x : float64) : bool :=
  match x with S754_nan => true | _ => false end.

Definition is_finite (x : float64) : bool :=
  match x with S754_zero _ | S754_finite _ _ _ => true | _ => false end.

(** An order-preserving ranking of the floats that are not NaN: triples
    compared lexicographically by [lex3]. *)
Definition float_key (x : float64) : Z * Z * Z :=
  match x with
  | S754_infinity true => (-2, 0, 0)
  | S754_finite true m e => (-1, - e, Z.neg m)
  | S754_zero _ => (0, 0, 0)
  | S754_nan => (0, 0, 0)
  | S754_finite false m e => (1, e, Z.pos m)
  | S754_infinity false => (2, 0, 0)
  end.

Definition lex3 (p q : Z * Z * Z) : comparison :=
  let '(a, b, c) := p in
  let '(a', b', c') := q in
  match a ?= a' with
  | Eq => match b ?= b' with Eq => c ?= c' | r => r end
  | r => r
  end.

Definition lex3_le (p q : Z * Z * Z) : Prop := lex3 p q <> Gt.

(** ** int *)

(** Two's complement wrap-around of a 64-bit [int]. *)
Definition wrap64 (z : Z) : Z := (z + 2 ^ 63) mod 2 ^ 64 - 2 ^ 63.

Definition int_add (a b : Z) : Z := wrap64 (a + b).
Definition int_sub (a b : Z) : Z := wrap64 (a - b).

(** [len] of a slice. *)
Definition len {A} (l : list A) : Z := Z.of_nat (length l).

(* ================================================================== *)
(** * Panics *)

Inductive result (A : Type) : Type :=
| Ok (a : A)
| Panic (msg : string).
Arguments Ok {A} a.
Arguments Panic {A} msg%_string.

Definition bind {A B} (r : result A) (k : A -> result B) : result B :=
  match r with
  | Ok a => k a
  | Panic m => Panic m
  end.

Notation "x <- r ;; k" := (bind r (fun x => k))
  (at level 61, r at next level, right associativity).
Notation "' p <- r ;; k" := (bind r (fun p => k))
  (at level 61, p pattern, r at next level, right associativity).

Definition failed {A} (r : result A) : Prop :=
  match r with Ok _ => False | Panic _ => True end.

Definition succeeded {A} (r : result A) : Prop :=
  match r with Ok _ => True | Panic _ => False end.

(** [s[i]]: a read out of range panics. *)
Definition index {A} (s : list A) (i : Z) : result A :=
  if i <? 0 then Panic "index out of range"
  else match nth_error s (Z.to_nat i) with
       | Some x => Ok x
       | None => Panic "index out of range"
       end.

(** [s[i] = v]: a write out of range panics. *)
Fixpoint set_nth {A} (s : list A) (n : nat) (v : A) : option (list A) :=
  match s, n with
  | [], _ => None
  | _ :: t, O => Some (v :: t)
  | h :: t, S n' => option_map (cons h) (set_nth t n' v)
  end.

Definition store {A} (s : list A) (i : Z) (v : A) : result (list A) :=
  if i <? 0 then Panic "index out of range"
  else match set_nth s (Z.to_nat i) v with
       | Some s' => Ok s'
       | None => Panic "index out of range"
       end.

(** [chk.IntAssert(a, b)] *)
Definition IntAssert (a b : Z) : result unit :=
  if a =? b then Ok tt else Panic "IntAssert failed".

(** The built-in [copy(dst, src)]: the first [min(len dst, len src)]
    elements of [dst] are overwritten; [dst] keeps its length. *)
Definition copy {A} (dst src : list A) : list A :=
  firstn (length dst) src ++ skipn (length src) dst.

(* ================================================================== *)
(** * sort.Sort *)

(** [sort.Sort] of the Go library over a [Less] that may panic. The model
    is the library's insertion sort (the algorithm it runs on short
    slices): element [i] is swapped leftwards while [Less(j, j-1)] holds.
    The sorted prefix is kept reversed, so its head is the element at
    position [j-1]. *)
Section Sort.
Context {A : Type}.
Variable less : A -> A -> result bool.

(** The inner loop: [x] sits right of the reversed prefix [rp]. The
    result is the new prefix, reversed. *)
Fixpoint sink (x : A) (rp : list A) : result (list A) :=
  match rp with
  | [] => Ok [x]
  | p :: rp' =>
      b <- less x p ;;
      if b then (r <- sink x rp' ;; Ok (p :: r))
      else Ok (x :: p :: rp')
  end.

(** The outer loop over the unsorted rest. *)
Fixpoint insertionSort (rp rest : list A) : result (list A) :=
  match rest with
  | [] => Ok (rev rp)
  | x :: rest' => rp' <- sink x rp ;; insertionSort rp' rest'
  end.

Definition sort_Sort (s : list A) : result (list A) := insertionSort [] s.
End Sort.

(* ================================================================== *)
(** * Parameters (params.go) *)

(** The configuration record of the version with [Ncpu]. The four
    [use_solution_*] flags are the internal flags that [solution.go]
    reads through [A.prms]; the version of the record that declares them
    is not among the sources. *)
Record Parameters : Type := mkParameters {
  (* sizes *)
  Nova : Z;
  Noor : Z;
  Nsol : Z;
  Ncpu : Z;
  (* time *)
  Tf : Z;
  DtExc : Z;
  DtOut : Z;
  (* options *)
  Pll : bool;
  Seed : Z;
  LatinDup : Z;
  EpsMinProb : float64;
  Verbose : bool;
  Problem : Z;
  GenAll : bool;
  Ntrials : Z;
  (* crossover and mutation *)
  DEuseC : bool;
  DEpm : float64;
  DEpc : float64;
  DEmult : float64;
  DebEtac : float64;
  DebEtam : float64;
  PmFlt : float64;
  PmInt : float64;
  (* range *)
  FltMin : list float64;
  FltMax : list float64;
  IntMin : list Z;
  IntMax : list Z;
  (* derived *)
  Nflt : Z;
  Nint : Z;
  DelFlt : list float64;
  DelInt : list Z;
  (* internal flags *)
  use_exchange_via_tournament : bool;
  use_exchange_one_randomly : bool;
  use_solution_absdistance : bool;
  use_solution_comparedneigh : bool;
  use_solution_frontcomparison : bool;
  use_solution_distneighfight : bool
}.

(** The loop [o.DelFlt[i] = o.FltMax[i] - o.FltMin[i]] for [i < n] over
    a fresh slice of length [n]; a bound slice shorter than [n] is read
    out of range. *)
Fixpoint del_flt (n : nat) (fmax fmin : list float64) : result (list float64) :=
  match n with
  | O => Ok []
  | S n' =>
      match fmax, fmin with
      | x :: fmax', y :: fmin' =>
          r <- del_flt n' fmax' fmin' ;; Ok (fsub x y :: r)
      | _, _ => Panic "index out of range"
      end
  end.

(** The same loop for [o.DelInt], in 64-bit integers. *)
Fixpoint del_int (n : nat) (imax imin : list Z) : result (list Z) :=
  match n with
  | O => Ok []
  | S n' =>
      match imax, imin with
      | x :: imax', y :: imin' =>
          r <- del_int n' imax' imin' ;; Ok (int_sub x y :: r)
      | _, _ => Panic "index out of range"
      end
  end.

(** The derived block that ends both versions of [CalcDerived]: the
    numbers of floats and of integers, and the two ranges. *)
Definition derive_ranges (fmin fmax : list float64) (imin imax : list Z)
  : result (Z * Z * list float64 * list Z) :=
  let nflt := len fmin in
  let nint := len imin in
  if (nflt =? 0) && (nint =? 0) then
    Panic "either floats and ints must be set (via FltMin/Max or IntMin/Max)"
  else
    _ <- IntAssert (len fmax) nflt ;;
    _ <- IntAssert (len imax) nint ;;
    delflt <- del_flt (Z.to_nat nflt) fmax fmin ;;
    delint <- del_int (Z.to_nat nint) imax imin ;;
    Ok (nflt, nint, delflt, delint).

(** [Parameters.CalcDerived], the version with [Ncpu]. The call of
    [rnd.Init(o.Seed)] that ends it seeds the library's generator and
    touches no field. *)
Definition CalcDerived (o : Parameters) : result Parameters :=
  if Nova o <? 1 then
    Panic "number of objective values (nova) must be greater than 0"
  else if Nsol o <? 6 then
    Panic "number of solutions must greater than 6"
  else
    let '(ncpu, pll, dtexc) :=
      if Ncpu o <? 2 then (1, false, 1) else (Ncpu o, Pll o, DtExc o) in
    if ncpu >? Z.quot (Nsol o) 2 then
      Panic "number of CPU must be smaller than or equal to half the number of solutions"
    else
      let tf := if Tf o <? 1 then 1 else Tf o in
      let dtexc := if dtexc <? 1 then 1 else dtexc in
      '(nflt, nint, delflt, delint) <-
        derive_ranges (FltMin o) (FltMax o) (IntMin o) (IntMax o) ;;
      Ok {| Nova := Nova o; Noor := Noor o; Nsol := Nsol o; Ncpu := ncpu;
            Tf := tf; DtExc := dtexc; DtOut := DtOut o;
            Pll := pll; Seed := Seed o; LatinDup := LatinDup o;
            EpsMinProb := EpsMinProb o; Verbose := Verbose o;
            Problem := Problem o; GenAll := GenAll o; Ntrials := Ntrials o;
            DEuseC := DEuseC o; DEpm := DEpm o; DEpc := DEpc o;
            DEmult := DEmult o; DebEtac := DebEtac o; DebEtam := DebEtam o;
            PmFlt := PmFlt o; PmInt := PmInt o;
            FltMin := FltMin o; FltMax := FltMax o;
            IntMin := IntMin o; IntMax := IntMax o;
            Nflt := nflt; Nint := nint;
            DelFlt := delflt; DelInt := delint;
            use_exchange_via_tournament := use_exchange_via_tournament o;
            use_exchange_one_randomly := use_exchange_one_randomly o;
            use_solution_absdistance := use_solution_absdistance o;
            use_solution_comparedneigh := use_solution_comparedneigh o;
            use_solution_frontcomparison := use_solution_frontcomparison o;
            use_solution_distneighfight := use_solution_distneighfight o |}.


(** The older [Parameters.CalcDerived], with groups ([Ngrp]) in place of
    CPUs. Only the fields it reads and writes are kept. *)
Record ParametersGrp : Type := mkParametersGrp {
  gNova : Z;
  gNsol : Z;
  gNgrp : Z;
  gFltMin : list float64;
  gFltMax : list float64;
  gIntMin : list Z;
  gIntMax : list Z;
  gNsolTot : Z;
  gNflt : Z;
  gNint : Z;
  gDelFlt : list float64;
  gDelInt : list Z
}.

Definition CalcDerivedGrp (o : ParametersGrp) : result ParametersGrp :=
  if gNova o <? 1 then
    Panic "number of objective values (nova) must be greater than 0"
  else if gNgrp o <? 1 then
    Panic "at least one group must be defined"
  else if (gNsol o <? 2) || negb (Z.rem (gNsol o) 2 =? 0) then
    Panic "number of solutions must be even and greater than 2"
  else
    let nsoltot := wrap64 (gNsol o * gNgrp o) in
    if negb (Z.rem nsoltot 2 =? 0) then
      Panic "total number of solutions must be even"
    else
      '(nflt, nint, delflt, delint) <-
        derive_ranges (gFltMin o) (gFltMax o) (gIntMin o) (gIntMax o) ;;
      Ok {| gNova := gNova o; gNsol := gNsol o; gNgrp := gNgrp o;
            gFltMin := gFltMin o; gFltMax := gFltMax o;
            gIntMin := gIntMin o; gIntMax := gIntMax o;
            gNsolTot := nsoltot; gNflt := nflt; gNint := nint;
            gDelFlt := delflt; gDelInt := delint |}.

(* ================================================================== *)
(** * Solution (solution.go) *)

(** The solution record. The pointers of [WinOver] and [Closest] are kept
    as the identifiers of the solutions they point to. *)
Record Solution : Type := mkSolution {
  (* essential *)
  prms : Parameters;
  Id : Z;
  Ova : list float64;
  Oor : list float64;
  Flt : list float64;
  Int : list Z;
  (* metrics *)
  WinOver : list Z;
  Repeated : bool;
  Nwins : Z;
  Nlosses : Z;
  FrontId : Z;
  DistCrowd : float64;
  DistNeigh : float64;
  Closest : option Z
}.

(** [A.CopyInto(B)]: the new state of [B]. *)
Definition CopyInto (A B : Solution) : Solution :=
  {| prms := prms B;
     Id := Id A;
     Ova := copy (Ova B) (Ova A);
     Oor := copy (Oor B) (Oor A);
     Flt := copy (Flt B) (Flt A);
     Int := copy (Int B) (Int A);
     WinOver := WinOver B;
     Repeated := Repeated B;
     Nwins := Nwins B;
     Nlosses := Nlosses B;
     FrontId := FrontId B;
     DistCrowd := DistCrowd B;
     DistNeigh := DistNeigh B;
     Closest := Closest B |}.

(** Every [u[i] <= v[i]], position by position. *)
Fixpoint all_leq (u v : list float64) : bool :=
  match u, v with
  | x :: u', y :: v' => fle x y && all_leq u' v'
  | _, _ => true
  end.

(** Some [u[i] < v[i]]. *)
Fixpoint one_less (u v : list float64) : bool :=
  match u, v with
  | x :: u', y :: v' => flt x y || one_less u' v'
  | _, _ => false
  end.

(** Modelled from the spec: [utl.DblsParetoMin] belongs to the gosl
    library and is not among the sources. Section 4.3 gives its contract
    (Pareto-minimise: [u] dominates iff every [u[i] <= v[i]] and at least
    one is strict); the library asserts that both vectors have one
    length. *)
Definition DblsParetoMin (u v : list float64) : result (bool * bool) :=
  _ <- IntAssert (len u) (len v) ;;
  Ok (all_leq u v && one_less u v, all_leq v u && one_less v u).

(** The loop of [Compare] that counts the violations of both solutions
    over the indices of [A.Oor]. *)
Fixpoint count_violations (a b : list float64) (na nb : Z) : result (Z * Z) :=
  match a with
  | [] => Ok (na, nb)
  | x :: a' =>
      let na := if fgt x fzero then na + 1 else na in
      match b with
      | [] => Panic "index out of range"
      | y :: b' =>
          let nb := if fgt y fzero then nb + 1 else nb in
          count_violations a' b' na nb
      end
  end.

(** The body of [Compare], up to its [return]s. *)
Definition Compare_body (A B : Solution) : result (bool * bool) :=
  '(A_nviolations, B_nviolations) <- count_violations (Oor A) (Oor B) 0 0 ;;
  if A_nviolations >? 0 then
    if B_nviolations >? 0 then
      if A_nviolations <? B_nviolations then Ok (true, false)
      else if B_nviolations <? A_nviolations then Ok (false, true)
      else
        '(A_dominates, B_dominates) <- DblsParetoMin (Oor A) (Oor B) ;;
        if negb A_dominates && negb B_dominates
        then DblsParetoMin (Ova A) (Ova B)
        else Ok (A_dominates, B_dominates)
    else Ok (false, true)
  else if B_nviolations >? 0 then Ok (true, false)
  else DblsParetoMin (Ova A) (Ova B).

(** [A.Compare(B)]: the body, then the deferred function when
    [use_solution_comparedneigh] is set. The deferred function only ever
    sets a result to true. *)
Definition Compare (A B : Solution) : result (bool * bool) :=
  '(A_dominates, B_dominates) <- Compare_body A B ;;
  if use_solution_comparedneigh (prms A) then
    let A_dominates :=
      if fgt (DistNeigh A) (DistNeigh B) then true else A_dominates in
    let B_dominates :=
      if fgt (DistNeigh B) (DistNeigh A) then true else B_dominates in
    Ok (A_dominates, B_dominates)
  else Ok (A_dominates, B_dominates).

(** What a competition returns: either it is decided, or it is left to
    [rnd.FlipCoin(p)], whose result is [A_wins]. *)
Inductive Outcome : Type :=
| Decided (A_wins : bool)
| FlipCoin (p : float64).

(** The end of [Fight]: the neighbour-distance test, then the coin. *)
Definition Fight_neigh (A B : Solution) : Outcome :=
  if use_solution_distneighfight (prms A) then
    if fgt (DistNeigh A) (DistNeigh B) then Decided true
    else if fgt (DistNeigh B) (DistNeigh A) then Decided false
    else FlipCoin fhalf
  else FlipCoin fhalf.

(** [Fight] after the dominance tests: the front and crowding test. *)
Definition Fight_front (A B : Solution) : Outcome :=
  if use_solution_frontcomparison (prms A) then
    if FrontId A =? FrontId B then
      if fgt (DistCrowd A) (DistCrowd B) then Decided true
      else if fgt (DistCrowd B) (DistCrowd A) then Decided false
      else Fight_neigh A B
    else Fight_neigh A B
  else Fight_neigh A B.

(** [A.Fight(B)] *)
Definition Fight (A B : Solution) : result Outcome :=
  '(A_dom, B_dom) <- Compare A B ;;
  if A_dom then Ok (Decided true)
  else if B_dom then Ok (Decided false)
  else Ok (Fight_front A B).

(** ** Sorting *)

(** [solByOva0.Less], [solByOva1.Less] and [solByOva2.Less], for
    [k = 0, 1, 2], on the two elements compared. *)
Definition solByOva_Less (k : Z) (a b : Solution) : result bool :=
  x <- index (Ova a) k ;;
  y <- index (Ova b) k ;;
  Ok (flt x y).

(** [solByBest.Less] *)
Definition solByBest_Less (a b : Solution) : bool :=
  if FrontId a =? FrontId b then fgt (DistCrowd a) (DistCrowd b)
  else FrontId a <? FrontId b.

(** [SortByOva(s, idxOva)] *)
Definition SortByOva (s : list Solution) (idxOva : Z) : result (list Solution) :=
  match idxOva with
  | 0 => sort_Sort (solByOva_Less 0) s
  | 1 => sort_Sort (solByOva_Less 1) s
  | 2 => sort_Sort (solByOva_Less 2) s
  | _ => Panic "this code can only handle Nova <= 3 for now"
  end.

(** [SortByBest(s)] *)
Definition SortByBest (s : list Solution) : result (list Solution) :=
  sort_Sort (fun a b => Ok (solByBest_Less a b)) s.

(* ================================================================== *)
(** * Island (island.go) *)

(** The individual of the island code. Its type declaration is not among
    the sources; the fields are those the island functions read and
    write. *)
Record Individual : Type := mkIndividual {
  iId : Z;
  Ovas : list float64;
  Oors : list float64;
  Ints : list Z;
  Floats : list float64;
  Demerit : float64;
  iFrontId : Z;
  iDistCrowd : float64;
  iDistNeigh : float64
}.

Definition Population := list Individual.

Definition set_Demerit (d : float64) (ind : Individual) : Individual :=
  {| iId := iId ind; Ovas := Ovas ind; Oors := Oors ind; Ints := Ints ind;
     Floats := Floats ind; Demerit := d; iFrontId := iFrontId ind;
     iDistCrowd := iDistCrowd ind; iDistNeigh := iDistNeigh ind |}.

Definition set_FrontId (f : Z) (ind : Individual) : Individual :=
  {| iId := iId ind; Ovas := Ovas ind; Oors := Oors ind; Ints := Ints ind;
     Floats := Floats ind; Demerit := Demerit ind; iFrontId := f;
     iDistCrowd := iDistCrowd ind; iDistNeigh := iDistNeigh ind |}.

(** The configuration of an island ([o.C]): the fields read below. The
    user's objective function [OvaOor] writes the objective and
    out-of-range values of the individual it is given; its last argument,
    the report buffer, is left out. *)
Record ConfParams : Type := mkConfParams {
  cNova : Z;
  cNoor : Z;
  Ninds : Z;
  CompProb : bool;
  ParetoPhi : float64;
  CdistOff : bool;
  OvaOor : Individual -> Z -> Z -> Individual
}.

(** The island: its identifier, configuration, evaluation counter and
    the auxiliary arrays of [CalcDemeritsCdistAndSort]. *)
Record Island : Type := mkIsland {
  oId : Z;
  C : ConfParams;
  intmin : list Z;
  intmax : list Z;
  fltmin : list float64;
  fltmax : list float64;
  ovamin : list float64;
  ovamax : list float64;
  oormin : list float64;
  oormax : list float64;
  ovas : list (list float64);
  oors : list (list float64);
  sovas : list (list float64);
  soors : list (list float64);
  Nfeval : Z
}.

(** ** Loops *)

(** [for i := i0; i < i0 + n; i++ { body }] over a state. *)
Fixpoint for_loop {St} (n : nat) (i : Z) (body : Z -> St -> result St) (s : St)
  : result St :=
  match n with
  | O => Ok s
  | S n' => s' <- body i s ;; for_loop n' (i + 1) body s'
  end.

Definition for_range {St} (n : Z) (body : Z -> St -> result St) (s : St)
  : result St :=
  for_loop (Z.to_nat n) 0 body s.

(** [for i, x := range l { body }] over a state. *)
Fixpoint range_loop {A St} (l : list A) (i : Z)
  (body : Z -> A -> St -> result St) (s : St) : result St :=
  match l with
  | [] => Ok s
  | x :: l' => s' <- body i x s ;; range_loop l' (i + 1) body s'
  end.

(** [m[j][i] = v] *)
Definition store2 {A} (m : list (list A)) (j i : Z) (v : A) : result (list (list A)) :=
  row <- index m j ;;
  row' <- store row i v ;;
  store m j row'.

(** ** CalcOvs *)

(** The check of the out-of-range values of one individual. *)
Fixpoint check_oors (l : list float64) : result unit :=
  match l with
  | [] => Ok tt
  | oor :: l' =>
      if flt oor fzero then
        Panic "out-of-range values must be positive (or zero) indicating the positive distance to constraints"
      else check_oors l'
  end.

(** The loop of [CalcOvs] over the population, threading [o.Nfeval]. *)
Fixpoint CalcOvs_loop (conf : ConfParams) (id time : Z) (pop : Population)
  (nfeval : Z) : result (Population * Z) :=
  match pop with
  | [] => Ok ([], nfeval)
  | ind :: rest =>
      let ind := OvaOor conf ind id time in
      let nfeval := int_add nfeval 1 in
      _ <- check_oors (Oors ind) ;;
      '(rest, nfeval) <- CalcOvs_loop conf id time rest nfeval ;;
      Ok (ind :: rest, nfeval)
  end.

Definition set_Nfeval (n : Z) (o : Island) : Island :=
  {| oId := oId o; C := C o; intmin := intmin o; intmax := intmax o;
     fltmin := fltmin o; fltmax := fltmax o; ovamin := ovamin o;
     ovamax := ovamax o; oormin := oormin o; oormax := oormax o;
     ovas := ovas o; oors := oors o; sovas := sovas o; soors := soors o;
     Nfeval := n |}.

(** [o.CalcOvs(pop, time)]: the island and the population afterwards. *)
Definition CalcOvs (o : Island) (pop : Population) (time : Z)
  : result (Island * Population) :=
  '(pop, nfeval) <- CalcOvs_loop (C o) (oId o) time pop (Nfeval o) ;;
  Ok (set_Nfeval nfeval o, pop).

(** ** Dominance and fronts of individuals *)

(** The number of positive components of a penalty vector. *)
Fixpoint nviolations (oor : list float64) : Z :=
  match oor with
  | [] => 0
  | x :: r => (if fgt x fzero then 1 else 0) + nviolations r
  end.

(** Pareto-minimise: [(u dominates, v dominates)]. *)
Definition pareto_min (u v : list float64) : bool * bool :=
  (all_leq u v && one_less u v, all_leq v u && one_less v u).

(** Modelled from the spec: [IndCompareDet] is a function of this
    repository that is not among the sources. Section 4.3 gives the rule:
    count the violations; both feasible, Pareto-minimise on the
    objectives; both infeasible, fewer violations dominates, on a tie
    Pareto-minimise on the penalties and, if neither dominates, on the
    objectives; exactly one feasible, the feasible one dominates. *)
Definition IndCompareDet (A B : Individual) : bool * bool :=
  let nvA := nviolations (Oors A) in
  let nvB := nviolations (Oors B) in
  if (nvA =? 0) && (nvB =? 0) then pareto_min (Ovas A) (Ovas B)
  else if (0 <? nvA) && (0 <? nvB) then
    if nvA <? nvB then (true, false)
    else if nvB <? nvA then (false, true)
    else
      let '(a, b) := pareto_min (Oors A) (Oors B) in
      if negb a && negb b then pareto_min (Ovas A) (Ovas B) else (a, b)
  else if nvA =? 0 then (true, false)
  else (false, true).

(** One peeling step of the non-dominated sorting: every individual
    without a front yet, all of whose dominators have one, gets front
    [k]. *)
Definition peel_front (k : Z) (ranked : list (Individual * option Z))
  : list (Individual * option Z) :=
  map (fun '(x, fx) =>
         match fx with
         | Some _ => (x, fx)
         | None =>
             if forallb (fun '(y, fy) =>
                           match fy with
                           | Some _ => true
                           | None => negb (fst (IndCompareDet y x))
                           end) ranked
             then (x, Some k) else (x, None)
         end) ranked.

Fixpoint peel_fronts (fuel : nat) (k : Z) (ranked : list (Individual * option Z))
  : list (Individual * option Z) :=
  match fuel with
  | O => ranked
  | S fuel' => peel_fronts fuel' (k + 1) (peel_front k ranked)
  end.

(** Modelled from the spec: [NomDomSortAndCalcDistances] is a function
    of this repository that is not among the sources. Section 4.3 gives
    the fast non-dominated sorting: front 0 is made of the individuals
    with zero dominators, and the fronts are peeled one after the other.
    Only the front index is set here; the crowding and neighbour
    distances, which the demerits never read, are left as they are. *)
Definition NomDomSortAndCalcDistances (pop : Population) : Population :=
  map (fun '(x, fx) =>
         match fx with
         | Some f => set_FrontId f x
         | None => x
         end)
      (peel_fronts (length pop) 0 (map (fun x => (x, None)) pop)).

(** Modelled from the spec: [Population.SortByDemerit] is a function of
    this repository that is not among the sources. Section 4.7, step 4:
    sort by demerit, smallest first. *)
Definition SortByDemerit (pop : Population) : result Population :=
  sort_Sort (fun a b => Ok (flt (Demerit a) (Demerit b))) pop.

(** ** utl.Scaling *)

(** The minimum and maximum of a slice, as a loop of [<] and [>] tests
    from the first element on. *)
Fixpoint min_max (x : list float64) (xmin xmax : float64) : float64 * float64 :=
  match x with
  | [] => (xmin, xmax)
  | v :: r =>
      min_max r (if flt v xmin then v else xmin) (if fgt v xmax then v else xmax)
  end.

(** [s[i]] for [i = i0, i0+1, ...], one value per element of [x]. *)
Fixpoint map_idx {A B} (f : Z -> A -> B) (i : Z) (x : list A) : list B :=
  match x with
  | [] => []
  | v :: r => f i v :: map_idx f (i + 1) r
  end.

(** Modelled from the spec: [utl.Scaling] belongs to the gosl library and
    is not among the sources; the spec only says that the values are
    scaled. The model is the library's min-max scaling into [0, 1]:
    [s[i] = ds + (x[i] - xmin) / (xmax - xmin)]; when [xmax - xmin < tol]
    the series is spread by index ([useinds]) or filled with [ds]; a
    slice of fewer than two values leaves [s] untouched. The results are
    [s], [xmin] and [xmax]. *)
Definition Scaling (s x : list float64) (ds tol : float64)
  (reverse useinds : bool) : result (list float64 * float64 * float64) :=
  match x with
  | [] | [_] => Ok (s, fzero, fzero)
  | x0 :: rest =>
      _ <- IntAssert (len s) (len x) ;;
      let n := len x in
      let '(xmin, xmax) := min_max rest x0 x0 in
      let dx := fsub xmax xmin in
      if flt dx tol then
        if useinds then
          let N := float64_of_int (n - 1) in
          if reverse then
            Ok (map_idx (fun i _ => fadd ds (fdiv (float64_of_int (n - 1 - i)) N)) 0 x,
                xmin, xmax)
          else
            Ok (map_idx (fun i _ => fadd ds (fdiv (float64_of_int i) N)) 0 x,
                xmin, xmax)
        else Ok (map (fun _ => ds) x, xmin, xmax)
      else if reverse then
        Ok (map (fun v => fadd ds (fdiv (fsub xmax v) dx)) x, xmin, xmax)
      else
        Ok (map (fun v => fadd ds (fdiv (fsub v xmin) dx)) x, xmin, xmax)
  end.

(** [utl.Imin], [utl.Imax], [utl.Min] and [utl.Max] *)
Definition Imin (a b : Z) : Z := if a <? b then a else b.
Definition Imax (a b : Z) : Z := if a >? b then a else b.
Definition Min (a b : float64) : float64 := if flt a b then a else b.
Definition Max (a b : float64) : float64 := if fgt a b then a else b.

(** ** CalcDemeritsCdistAndSort *)

(** [for i, x := range l], producing one result per element. *)
Fixpoint mapM_idx {A B} (f : Z -> A -> result B) (i : Z) (l : list A)
  : result (list B) :=
  match l with
  | [] => Ok []
  | x :: l' =>
      y <- f i x ;;
      r <- mapM_idx f (i + 1) l' ;;
      Ok (y :: r)
  end.

(** The auxiliary arrays the first loop fills: [ovas], [oors], and the
    limits [intmin], [intmax], [fltmin], [fltmax]. *)
Definition AuxArrays : Type :=
  (list (list float64) * list (list float64)
   * list Z * list Z * list float64 * list float64)%type.

(** The body of the first loop, for individual [ind] at position [i]. *)
Definition fill_aux (conf : ConfParams) (i : Z) (ind : Individual)
  (st : AuxArrays) : result AuxArrays :=
  let '(ovas, oors, imin, imax, fmin, fmax) := st in
  ovas <- for_range (cNova conf)
            (fun j ovas => v <- index (Ovas ind) j ;; store2 ovas j i v) ovas ;;
  oors <- for_range (cNoor conf)
            (fun j oors => v <- index (Oors ind) j ;; store2 oors j i v) oors ;;
  '(imin, imax) <-
    range_loop (Ints ind) 0
      (fun j x '(imin, imax) =>
         if i =? 0 then
           imin <- store imin j x ;;
           imax <- store imax j x ;;
           Ok (imin, imax)
         else
           a <- index imin j ;;
           imin <- store imin j (Imin a x) ;;
           b <- index imax j ;;
           imax <- store imax j (Imax b x) ;;
           Ok (imin, imax))
      (imin, imax) ;;
  '(fmin, fmax) <-
    range_loop (Floats ind) 0
      (fun j x '(fmin, fmax) =>
         if i =? 0 then
           fmin <- store fmin j x ;;
           fmax <- store fmax j x ;;
           Ok (fmin, fmax)
         else
           a <- index fmin j ;;
           fmin <- store fmin j (Min a x) ;;
           b <- index fmax j ;;
           fmax <- store fmax j (Max b x) ;;
           Ok (fmin, fmax))
      (fmin, fmax) ;;
  Ok (ovas, oors, imin, imax, fmin, fmax).

(** The scaling loop over the [n] rows of [x]: the scaled rows and the
    minima and maxima. *)
Definition scale_rows (n : Z) (x : list (list float64))
  (st : list (list float64) * list float64 * list float64)
  : result (list (list float64) * list float64 * list float64) :=
  for_range n
    (fun i '(sx, xmin, xmax) =>
       s <- index sx i ;;
       xi <- index x i ;;
       '(s, lo, hi) <- Scaling s xi fzero f1em16 false true ;;
       sx <- store sx i s ;;
       xmin <- store xmin i lo ;;
       xmax <- store xmax i hi ;;
       Ok (sx, xmin, xmax))
    st.

(** The first demerit loop, for individual [ind] at position [i]. *)
Definition demerit_base (conf : ConfParams) (sovas : list (list float64))
  (i : Z) (ind : Individual) : result Individual :=
  let ind := set_Demerit fzero ind in
  if cNova conf >? 1 then
    Ok (set_Demerit (float64_of_int (iFrontId ind)) ind)
  else
    for_range (cNova conf)
      (fun j ind =>
         row <- index sovas j ;;
         v <- index row i ;;
         Ok (set_Demerit (fadd (Demerit ind) v) ind))
      ind.

Definition shift : float64 := ftwo.

(** The second demerit loop, for individual [ind] at position [i]. *)
Definition demerit_shift (conf : ConfParams) (soors : list (list float64))
  (i : Z) (ind : Individual) : result Individual :=
  '(ind, _) <-
    for_range (cNoor conf)
      (fun j '(ind, firstOor) =>
         oor <- index (Oors ind) j ;;
         if fgt oor fzero then
           let '(ind, firstOor) :=
             if firstOor : bool then (set_Demerit shift ind, false)
             else (ind, firstOor) in
           row <- index soors j ;;
           v <- index row i ;;
           Ok (set_Demerit (fadd (Demerit ind) v) ind, firstOor)
         else Ok (ind, firstOor))
      (ind, true) ;;
  Ok ind.

(** The demerits of [CalcDemeritsCdistAndSort], before the final sort:
    the island and the population with its demerits set. *)
Definition CalcDemerits (o : Island) (pop : Population)
  : result (Island * Population) :=
  let conf := C o in
  '(ovas, oors, imin, imax, fmin, fmax) <-
    range_loop pop 0 (fill_aux conf)
      (ovas o, oors o, intmin o, intmax o, fltmin o, fltmax o) ;;
  '(sovas, omin, omax) <-
    scale_rows (cNova conf) ovas (sovas o, ovamin o, ovamax o) ;;
  '(soors, rmin, rmax) <-
    scale_rows (cNoor conf) oors (soors o, oormin o, oormax o) ;;
  let pop := NomDomSortAndCalcDistances pop in
  pop <- mapM_idx (demerit_base conf sovas) 0 pop ;;
  pop <- mapM_idx (demerit_shift conf soors) 0 pop ;;
  Ok ({| oId := oId o; C := conf; intmin := imin; intmax := imax;
         fltmin := fmin; fltmax := fmax; ovamin := omin; ovamax := omax;
         oormin := rmin; oormax := rmax; ovas := ovas; oors := oors;
         sovas := sovas; soors := soors; Nfeval := Nfeval o |}, pop).

(** [o.CalcDemeritsCdistAndSort(pop)] *)
Definition CalcDemeritsCdistAndSort (o : Island) (pop : Population)
  : result (Island * Population) :=
  '(o, pop) <- CalcDemerits o pop ;;
  pop <- SortByDemerit pop ;;
  Ok (o, pop).

(** An individual is feasible when it has no positive out-of-range
    value. *)
Definition feasible (ind : Individual) : bool := nviolations (Oors ind) =? 0.

(** ** tournament *)

Section Tournament.
(** [IndCompareProb], the probabilistic comparison, is a function of
    this repository that is not among the sources; the tournament hands
    the decision over to it when [CompProb] is set. *)
Variable IndCompareProb : Individual -> Individual -> float64 -> Outcome.

(** The coin both distance branches of [tournament] end with. *)
Definition neigh_coin (A B : Individual) : Outcome :=
  let prob := fhalf in
  let prob := if fgt (iDistNeigh A) (iDistNeigh B) then f0_6 else prob in
  let prob := if fgt (iDistNeigh B) (iDistNeigh A) then f0_4 else prob in
  FlipCoin prob.

(** [o.tournament(A, B)] *)
Definition tournament (conf : ConfParams) (A B : Individual) : Outcome :=
  if CompProb conf then IndCompareProb A B (ParetoPhi conf)
  else
    let '(A_dom, B_dom) := IndCompareDet A B in
    if A_dom then Decided true
    else if B_dom then Decided false
    else if negb (iFrontId A =? iFrontId B) || CdistOff conf then neigh_coin A B
    else if fgt (iDistCrowd A) (iDistCrowd B) then Decided true
    else if feq (iDistCrowd A) (iDistCrowd B) then neigh_coin A B
    else Decided false.
End Tournament.

(** ** FilterPairs *)

Section FilterPairs.
(** The random source: [shuffle k l] is the result of the [k]-th shuffle
    of the run ([rnd.IntGetShuffled], [rnd.IntShuffle]) on [l]. *)
Variable shuffle : nat -> list Z -> list Z.

(** [for _, s := range aux { if s != a { b = s; break } }] *)
Fixpoint first_other (aux : list Z) (a b : Z) : Z :=
  match aux with
  | [] => b
  | s :: aux' => if negb (s =? a) then s else first_other aux' a b
  end.

(** The loop of [FilterPairs] from pair [i] on, for [n] pairs; [aux] is
    the pool and [k] counts the shuffles made so far. *)
Fixpoint FilterPairs_loop (n : nat) (i : Z) (selinds A B aux : list Z) (k : nat)
  : result (list Z * list Z) :=
  match n with
  | O => Ok (A, B)
  | S n' =>
      a <- index selinds (2 * i) ;;
      b <- index selinds (2 * i + 1) ;;
      let '(aux, k, b) :=
        if a =? b then
          let aux := if len aux =? 0 then shuffle k selinds else shuffle k aux in
          (aux, S k, first_other aux a b)
        else (aux, k, b) in
      A <- store A i a ;;
      B <- store B i b ;;
      FilterPairs_loop n' (i + 1) selinds A B aux k
  end.

(** [FilterPairs(A, B, selinds)]: the slices [A] and [B] afterwards. *)
Definition FilterPairs (A B selinds : list Z) : result (list Z * list Z) :=
  let ninds := len selinds in
  _ <- IntAssert (len A) (Z.quot ninds 2) ;;
  _ <- IntAssert (len B) (Z.quot ninds 2) ;;
  FilterPairs_loop (Z.to_nat (Z.quot ninds 2)) 0 selinds A B [] 0%nat.
End FilterPairs.

(* ================================================================== *)
(** * More of params.go *)

(** 0.1 and 1e-15 as Go rounds the literals. *)
Definition f0_1 : float64 := S754_finite false 7205759403792794 (-56).
Definition f1em15 : float64 := S754_finite false 5070602400912918 (-102).

(** [Parameters.Default], the version with [Ncpu]: the fields it sets;
    the bounds, the derived fields and the [use_solution_*] flags are
    left as they are. *)
Definition Default (o : Parameters) : Parameters :=
  {| Nova := 1; Noor := 0; Nsol := 40; Ncpu := 4;
     Tf := 100; DtExc := Z.quot 100 10; DtOut := Z.quot 100 5;
     Pll := true; Seed := 0; LatinDup := 2;
     EpsMinProb := f0_1; Verbose := true;
     Problem := 1; GenAll := false; Ntrials := 10;
     DEuseC := true; DEpm := fhalf; DEpc := f0_1;
     DEmult := fhalf; DebEtac := fone; DebEtam := fone;
     PmFlt := fzero; PmInt := f0_1;
     FltMin := FltMin o; FltMax := FltMax o;
     IntMin := IntMin o; IntMax := IntMax o;
     Nflt := Nflt o; Nint := Nint o;
     DelFlt := DelFlt o; DelInt := DelInt o;
     use_exchange_via_tournament := true;
     use_exchange_one_randomly := false;
     use_solution_absdistance := use_solution_absdistance o;
     use_solution_comparedneigh := use_solution_comparedneigh o;
     use_solution_frontcomparison := use_solution_frontcomparison o;
     use_solution_distneighfight := use_solution_distneighfight o |}.

(** [Parameters.EnforceRange(i, x)] (the same in both versions). *)
Definition EnforceRange (o : Parameters) (i : Z) (x : float64) : result float64 :=
  lo <- index (FltMin o) i ;;
  if flt x lo then Ok lo
  else
    hi <- index (FltMax o) i ;;
    if fgt x hi then Ok hi else Ok x.

(* ================================================================== *)
(** * More of solution.go *)

(** [math.Abs] and [math.Sqrt] *)
Definition fabs (x : float64) : float64 := SFabs x.
Definition fsqrt (x : float64) : float64 := SFsqrt prec64 emax64 x.

Section Distance.
(** [math.Pow] of the Go library. *)
Variable Pow : float64 -> float64 -> float64.

(** One term of the absolute distance, [|d| / (r + 1e-15)], for the
    difference [d] of two values and the range [r]. *)
Definition abs_term (d r : float64) : float64 :=
  fdiv (fabs d) (fadd r f1em15).

(** One term of the Euclidean distance, [Pow(d / (r + 1e-15), 2)]. *)
Definition pow_term (d r : float64) : float64 :=
  Pow (fdiv d (fadd r f1em15)) ftwo.

(** The loop over the floats:
    [acc += term(u[i] - v[i], hi[i] - lo[i])] for [i < len(u)]. *)
Definition sum_terms (term : float64 -> float64 -> float64)
  (u v hi lo : list float64) (acc : float64) : result float64 :=
  range_loop u 0
    (fun i x acc =>
       y <- index v i ;;
       h <- index hi i ;;
       l <- index lo i ;;
       Ok (fadd acc (term (fsub x y) (fsub h l))))
    acc.

(** The loop over the integers: the difference and the range are taken
    in 64-bit integers and converted to float64. *)
Definition sum_int_terms (term : float64 -> float64 -> float64)
  (u v hi lo : list Z) (acc : float64) : result float64 :=
  range_loop u 0
    (fun i x acc =>
       y <- index v i ;;
       h <- index hi i ;;
       l <- index lo i ;;
       Ok (fadd acc (term (float64_of_int (int_sub x y))
                          (float64_of_int (int_sub h l)))))
    acc.

(** [A.Distance(B, fmin, fmax, imin, imax)] *)
Definition Distance (A B : Solution) (fmin fmax : list float64)
  (imin imax : list Z) : result float64 :=
  if use_solution_absdistance (prms A) then
    dist <- sum_terms abs_term (Flt A) (Flt B) fmax fmin fzero ;;
    sum_int_terms abs_term (Int A) (Int B) imax imin dist
  else
    dflt <- sum_terms pow_term (Flt A) (Flt B) fmax fmin fzero ;;
    dint <- sum_int_terms pow_term (Int A) (Int B) imax imin fzero ;;
    Ok (fadd (fsqrt dflt) (fsqrt dint)).

(** [A.OvaDistance(B, omin, omax)] *)
Definition OvaDistance (A B : Solution) (omin omax : list float64)
  : result float64 :=
  if use_solution_absdistance (prms A) then
    sum_terms abs_term (Ova A) (Ova B) omax omin fzero
  else
    dist <- sum_terms pow_term (Ova A) (Ova B) omax omin fzero ;;
    Ok (fsqrt dist).
End Distance.

(* ================================================================== *)
(** * Selection and crossover operators *)

Section Operators.
(** The random source and the library's assertion: [flip p] is the draw
    of [rnd.FlipCoin(p)], [IntGetUniqueN a b n] the draw of
    [rnd.IntGetUniqueN(a, b, n)], [rand_Float64 k] the [k]-th draw of
    [rand.Float64()] of a call, [rnd_Float64 lo hi] the draw of
    [rnd.Float64(lo, hi)]; [IntAssertLessThan] is
    [chk.IntAssertLessThan]. *)
Variable flip : float64 -> bool.
Variable IntGetUniqueN : Z -> Z -> Z -> list Z.
Variable rand_Float64 : nat -> float64.
Variable rnd_Float64 : float64 -> float64 -> float64.
Variable IntAssertLessThan : Z -> Z -> result unit.

(** [sort.Ints] *)
Definition sort_Ints (l : list Z) : result (list Z) :=
  sort_Sort (fun a b => Ok (a <? b)) l.

(** The checks [GenerateCxEnds] makes on the given cuts, in order;
    [prev] is the cut before. *)
Fixpoint check_cuts (size : Z) (prev : option Z) (cuts : list Z) : result unit :=
  match cuts with
  | [] => Ok tt
  | cut :: rest =>
      if (cut <? 1) || (cut >=? size) then
        Panic "cut is outside the allowed range: 1 <= cut <= size-1"
      else
        match prev with
        | Some p =>
            if cut =? p then Panic "repeated cut values are not allowed"
            else check_cuts size (Some cut) rest
        | None => check_cuts size (Some cut) rest
        end
  end.

(** [pool[0], ..., pool[n-1]]; a shorter pool is read out of range. *)
Fixpoint take (n : nat) (pool : list Z) : result (list Z) :=
  match n with
  | O => Ok []
  | S n' =>
      match pool with
      | [] => Panic "index out of range"
      | x :: pool' => r <- take n' pool' ;; Ok (x :: r)
      end
  end.

(** [GenerateCxEnds(size, ncuts, cuts)] *)
Definition GenerateCxEnds (size ncuts : Z) (cuts : list Z) : result (list Z) :=
  if size <? 2 then Ok []
  else if size =? 2 then Ok [1; size]
  else if len cuts >? 0 then
    _ <- check_cuts size None cuts ;;
    sort_Ints (cuts ++ [size])
  else
    let ncuts := if ncuts <? 1 then 1 else ncuts in
    let ncuts := if ncuts >=? size then size - 1 else ncuts in
    pool <- sort_Ints (IntGetUniqueN 1 size ncuts) ;;
    ends <- take (Z.to_nat ncuts) pool ;;
    Ok (ends ++ [size]).

Section Crossover.
Context {T : Type}.

(** [a[j], b[j] = A[j], B[j]], or [b[j], a[j] = A[j], B[j]] when
    [swap]. *)
Definition cx_gene (swap : bool) (A B : list T) (j : Z)
  (ab : list T * list T) : result (list T * list T) :=
  let '(a, b) := ab in
  x <- index A j ;;
  y <- index B j ;;
  if swap then
    b <- store b j x ;;
    a <- store a j y ;;
    Ok (a, b)
  else
    a <- store a j x ;;
    b <- store b j y ;;
    Ok (a, b).

(** The loop over [ends]. *)
Fixpoint cx_ends (ends : list Z) (start : Z) (swap : bool) (A B : list T)
  (ab : list T * list T) : result (list T * list T) :=
  match ends with
  | [] => Ok ab
  | e :: ends' =>
      ab <- for_loop (Z.to_nat (e - start)) start (cx_gene swap A B) ab ;;
      cx_ends ends' e (negb swap) A B ab
  end.

(** [IntCrossover], [FltCrossover], [StrCrossover], [KeyCrossover] and
    [FunCrossover] (one body for the five element types): the children
    [a] and [b] afterwards, and [ends]. The four slices are taken to be
    distinct. *)
Definition Crossover (a b A B : list T) (ncuts : Z) (cuts : list Z)
  (pc : float64) : result (list T * list T * list Z) :=
  let size := len A in
  if negb (flip pc) || (size <? 2) then
    ab <- for_range (len A) (cx_gene false A B) (a, b) ;;
    Ok (ab, [])
  else
    ends <- GenerateCxEnds size ncuts cuts ;;
    ab <- cx_ends ends 0 false A B (a, b) ;;
    Ok (ab, ends).
End Crossover.

(** [for j, m := range cumprob { if m > s { ... j ...; break } }]: the
    first index whose cumulated probability exceeds [s]. *)
Fixpoint first_above (cumprob : list float64) (j : Z) (s : float64) : option Z :=
  match cumprob with
  | [] => None
  | m :: rest => if fgt m s then Some j else first_above rest (j + 1) s
  end.

(** One selection of the roulette: [selinds[i]] is written when an index
    is found. *)
Definition roulette_pick (cumprob : list float64) (i : Z) (s : float64)
  (selinds : list Z) : result (list Z) :=
  match first_above cumprob 0 s with
  | Some j => store selinds i j
  | None => Ok selinds
  end.

(** [RouletteSelect(selinds, cumprob, sample)]; [None] is the nil
    sample. *)
Definition RouletteSelect (selinds : list Z) (cumprob : list float64)
  (sample : option (list float64)) : result (list Z) :=
  let nsel := len selinds in
  _ <- IntAssertLessThan nsel (len cumprob) ;;
  match sample with
  | None =>
      for_range nsel
        (fun i sel => roulette_pick cumprob i (rand_Float64 (Z.to_nat i)) sel)
        selinds
  | Some sample =>
      _ <- IntAssert (len sample) nsel ;;
      range_loop sample 0 (fun i s sel => roulette_pick cumprob i s sel) selinds
  end.

(** [j = 0; for pb > cumprob[j] { j += 1 }] *)
Fixpoint sus_scan (cumprob : list float64) (j : Z) (pb : float64) : result Z :=
  match cumprob with
  | [] => Panic "index out of range"
  | c :: rest => if fgt pb c then sus_scan rest (j + 1) pb else Ok j
  end.

(** The body of the loop of [SUSselect] over the selections and the
    pointer [pb]. *)
Definition sus_step (cumprob : list float64) (dp : float64) (i : Z)
  (st : list Z * float64) : result (list Z * float64) :=
  let '(sel, pb) := st in
  j <- sus_scan cumprob 0 pb ;;
  let pb := fadd pb dp in
  sel <- store sel i j ;;
  Ok (sel, pb).

(** [SUSselect(selinds, cumprob, pb)] *)
Definition SUSselect (selinds : list Z) (cumprob : list float64)
  (pb : float64) : result (list Z) :=
  let nsel := len selinds in
  _ <- IntAssertLessThan nsel (len cumprob) ;;
  let dp := fdiv fone (float64_of_int nsel) in
  let pb := if flt pb fzero then rnd_Float64 fzero dp else pb in
  st <- for_range nsel (sus_step cumprob dp) (selinds, pb) ;;
  Ok (fst st).
End Operators.

(** [math] multiplication and the literal 1.2 as Go rounds it. *)
Definition fmul (x y : float64) : float64 := SFmul prec64 emax64 x y.
Definition f1_2 : float64 := S754_finite false 5404319552844595 (-52).

(** [Ranking(ninds, sp)]; [make] panics on a negative length. *)
Definition Ranking (ninds : Z) (sp : float64) : result (list float64) :=
  let sp := if flt sp fone || fgt sp ftwo then f1_2 else sp in
  if ninds <? 0 then Panic "makeslice: len out of range"
  else
    Ok (map (fun i =>
               fadd (fsub ftwo sp)
                    (fdiv (fmul (fmul ftwo (fsub sp fone))
                                (float64_of_int (int_sub (int_sub ninds i) 1)))
                          (float64_of_int (int_sub ninds 1))))
            (map Z.of_nat (seq 0 (Z.to_nat ninds)))).

(** [CumSum(cs, p)]: the slice [cs] afterwards. *)
Definition CumSum (cs p : list float64) : result (list float64) :=
  _ <- IntAssert (len cs) (len p) ;;
  if len p <? 1 then Ok cs
  else
    x <- index p 0 ;;
    cs <- store cs 0 x ;;
    for_loop (Z.to_nat (len p - 1)) 1
      (fun i cs =>
         prev <- index cs (i - 1) ;;
         x <- index p i ;;
         store cs i (fadd prev x))
      cs.

(* ================================================================== *)
(** * The population of population.go *)

Section PopulationSort.
(** The individuals of this version and their [Fitness] field; the
    struct is declared in a file that is not among the sources, and the
    sort reads nothing else of it. *)
Variable Ind : Type.
Variable Fitness : Ind -> float64.

(** [Population.Less]: [o[i].Fitness > o[j].Fitness] *)
Definition Population_Less (a b : Ind) : result bool :=
  Ok (fgt (Fitness a) (Fitness b)).

(** [Population.Sort] *)
Definition Population_Sort (o : list Ind) : result (list Ind) :=
  sort_Sort Population_Less o.
End PopulationSort.

(* ================================================================== *)
(** * The notions the properties are stated with *)

(** Pareto dominance of [u] over [v], minimising: every [u[i] <= v[i]]
    and at least one [u[i] < v[i]]. *)
Definition pareto_dominates (u v : list float64) : Prop :=
  (forall i x y, nth_error u i = Some x -> nth_error v i = Some y ->
                 fle x y = true) /\
  (exists i x y, nth_error u i = Some x /\ nth_error v i = Some y /\
                 flt x y = true).

(** [a] and [b] are the Pareto verdicts on [u] against [v]. *)
Definition pareto_verdict (u v : list float64) (a b : bool) : Prop :=
  (a = true <-> pareto_dominates u v) /\ (b = true <-> pareto_dominates v u).

(** The constraint-aware dominance rule of section 4.3 on two solutions:
    what [(A_dominates, B_dominates) = (a, b)] has to be in each of its
    cases. *)
Definition dominance_rule (A B : Solution) (a b : bool) : Prop :=
  let nvA := nviolations (Oor A) in
  let nvB := nviolations (Oor B) in
  (nvA = 0 -> nvB = 0 -> pareto_verdict (Ova A) (Ova B) a b) /\
  (0 < nvA -> 0 < nvB ->
     (nvA < nvB -> a = true /\ b = false) /\
     (nvB < nvA -> a = false /\ b = true) /\
     (nvA = nvB ->
        (pareto_dominates (Oor A) (Oor B) \/ pareto_dominates (Oor B) (Oor A) ->
         pareto_verdict (Oor A) (Oor B) a b) /\
        (~ pareto_dominates (Oor A) (Oor B) ->
         ~ pareto_dominates (Oor B) (Oor A) ->
         pareto_verdict (Ova A) (Ova B) a b))) /\
  (nvA = 0 -> 0 < nvB -> a = true /\ b = false) /\
  (0 < nvA -> nvB = 0 -> a = false /\ b = true).

(** The bounds of a configuration are unusable: none is given, or the
    minima and maxima differ in length. *)
Definition bounds_bad (fmin fmax : list float64) (imin imax : list Z) : Prop :=
  (fmin = [] /\ imin = []) \/
  length fmax <> length fmin \/ length imax <> length imin.

(** The derived ranges are the differences of the bounds, index by
    index. *)
Definition ranges_of (fmin fmax delflt : list float64) (imin imax delint : list Z)
  : Prop :=
  length delflt = length fmin /\ length delint = length imin /\
  (forall i x y, nth_error fmax i = Some x -> nth_error fmin i = Some y ->
                 nth_error delflt i = Some (fsub x y)) /\
  (forall i x y, nth_error imax i = Some x -> nth_error imin i = Some y ->
                 nth_error delint i = Some (int_sub x y)).

(** An evaluation wrote a negative out-of-range value into an individual
    of the population. *)
Definition negative_oor (conf : ConfParams) (id time : Z) (pop : Population)
  : Prop :=
  exists ind oor, In ind pop /\ In oor (Oors (OvaOor conf ind id time)) /\
                  flt oor fzero = true.

(** The counter after one increment per individual of [pop]. *)
Definition nfeval_after (pop : Population) (nfeval : Z) : Z :=
  Nat.iter (length pop) (fun n => int_add n 1) nfeval.

(** Best first: the front does not decrease, and within one front the
    crowding distance does not increase. *)
Definition best_order (a b : Solution) : Prop :=
  FrontId a <= FrontId b /\
  (FrontId a = FrontId b -> fle (DistCrowd b) (DistCrowd a) = true).

(** The crowding distance of the solution is set: it is a number. *)
Definition crowd_set (x : Solution) : Prop := is_nan (DistCrowd x) = false.




(** What [FilterPairs] is to put at pair [j]: [a] is [selinds[2j]]; [b]
    is [selinds[2j+1]] when it differs from [a]; on a collision [b] is
    another one of the selected indices when there is one, and [a] itself
    when all the selected indices are [a]. *)
Definition pair_ok (selinds : list Z) (j : nat) (a b : Z) : Prop :=
  nth_error selinds (2 * j) = Some a /\
  exists b0, nth_error selinds (2 * j + 1) = Some b0 /\
             (a <> b0 -> b = b0) /\
             (a = b0 -> Exists (fun s => s <> a) selinds ->
              b <> a /\ In b selinds) /\
             (a = b0 -> Forall (eq a) selinds -> b = a).

(** Identifier, feasibility, front and demerit of every individual. *)
Definition demerit_table (r : result (Island * Population))
  : list (Z * bool * Z * float64) :=
  match r with
  | Ok (_, pop) =>
      map (fun ind => (iId ind, feasible ind, iFrontId ind, Demerit ind)) pop
  | Panic _ => []
  end.

(* ================================================================== *)
(** * Example data *)

(** A configuration with one objective, one penalty, two floats and one
    integer; all the comparison flags are off. *)
Definition prms0 : Parameters :=
  {| Nova := 1; Noor := 1; Nsol := 6; Ncpu := 1;
     Tf := 1; DtExc := 1; DtOut := 1;
     Pll := false; Seed := 0; LatinDup := 2;
     EpsMinProb := fzero; Verbose := false;
     Problem := 1; GenAll := false; Ntrials := 1;
     DEuseC := true; DEpm := fhalf; DEpc := fhalf;
     DEmult := fhalf; DebEtac := fone; DebEtam := fone;
     PmFlt := fzero; PmInt := fzero;
     FltMin := [fzero; fzero]; FltMax := [fone; fone];
     IntMin := [0]; IntMax := [9];
     Nflt := 2; Nint := 1;
     DelFlt := [fone; fone]; DelInt := [9];
     use_exchange_via_tournament := true;
     use_exchange_one_randomly := false;
     use_solution_absdistance := false;
     use_solution_comparedneigh := false;
     use_solution_frontcomparison := false;
     use_solution_distneighfight := false |}.

(** A solution with the given identifier, objectives, penalties, front,
    crowding distance and neighbour distance. *)
Definition sol (p : Parameters) (id : Z) (ova oor : list float64)
  (front : Z) (crowd neigh : float64) : Solution :=
  {| prms := p; Id := id; Ova := ova; Oor := oor;
     Flt := [fzero; fone]; Int := [id];
     WinOver := []; Repeated := false; Nwins := 0; Nlosses := 0;
     FrontId := front; DistCrowd := crowd; DistNeigh := neigh;
     Closest := None |}.

(** [prms0] with the neighbour-distance comparison switched on. *)
Definition prms_neigh : Parameters :=
  {| Nova := 1; Noor := 1; Nsol := 6; Ncpu := 1;
     Tf := 1; DtExc := 1; DtOut := 1;
     Pll := false; Seed := 0; LatinDup := 2;
     EpsMinProb := fzero; Verbose := false;
     Problem := 1; GenAll := false; Ntrials := 1;
     DEuseC := true; DEpm := fhalf; DEpc := fhalf;
     DEmult := fhalf; DebEtac := fone; DebEtam := fone;
     PmFlt := fzero; PmInt := fzero;
     FltMin := [fzero; fzero]; FltMax := [fone; fone];
     IntMin := [0]; IntMax := [9];
     Nflt := 2; Nint := 1;
     DelFlt := [fone; fone]; DelInt := [9];
     use_exchange_via_tournament := true;
     use_exchange_one_randomly := false;
     use_solution_absdistance := false;
     use_solution_comparedneigh := true;
     use_solution_frontcomparison := false;
     use_solution_distneighfight := false |}.

(** Example data: an island configuration whose objective function
    leaves the individual as it is, and an individual. *)
Definition conf0 : ConfParams :=
  {| cNova := 1; cNoor := 1; Ninds := 2; CompProb := false;
     ParetoPhi := fzero; CdistOff := false;
     OvaOor := fun ind _ _ => ind |}.

(** An individual with the given identifier, objectives and
    penalties. *)
Definition indiv (id : Z) (ova oor : list float64) : Individual :=
  {| iId := id; Ovas := ova; Oors := oor; Ints := []; Floats := [fzero];
     Demerit := fzero; iFrontId := 0; iDistCrowd := fzero;
     iDistNeigh := fzero |}.

(** [prms0] with other sizes. *)
Definition prms_sized (nova nsol ncpu : Z) : Parameters :=
  {| Nova := nova; Noor := 1; Nsol := nsol; Ncpu := ncpu;
     Tf := 1; DtExc := 1; DtOut := 1;
     Pll := false; Seed := 0; LatinDup := 2;
     EpsMinProb := fzero; Verbose := false;
     Problem := 1; GenAll := false; Ntrials := 1;
     DEuseC := true; DEpm := fhalf; DEpc := fhalf;
     DEmult := fhalf; DebEtac := fone; DebEtam := fone;
     PmFlt := fzero; PmInt := fzero;
     FltMin := [fzero; fzero]; FltMax := [fone; fone];
     IntMin := [0]; IntMax := [9];
     Nflt := 0; Nint := 0;
     DelFlt := []; DelInt := [];
     use_exchange_via_tournament := true;
     use_exchange_one_randomly := false;
     use_solution_absdistance := false;
     use_solution_comparedneigh := false;
     use_solution_frontcomparison := false;
     use_solution_distneighfight := false |}.

(** A configuration of the older version, with one float bound. *)
Definition grp_sized (nova nsol ngrp : Z) : ParametersGrp :=
  {| gNova := nova; gNsol := nsol; gNgrp := ngrp;
     gFltMin := [fzero]; gFltMax := [fone]; gIntMin := []; gIntMax := [];
     gNsolTot := 0; gNflt := 0; gNint := 0; gDelFlt := []; gDelInt := [] |}.

(** An objective function that writes an infinite objective value and a
    zero penalty. *)
Definition conf_inf : ConfParams :=
  {| cNova := 1; cNoor := 1; Ninds := 2; CompProb := false;
     ParetoPhi := fzero; CdistOff := false;
     OvaOor := fun ind _ _ =>
       {| iId := iId ind; Ovas := [fpinf]; Oors := [fzero];
          Ints := Ints ind; Floats := Floats ind; Demerit := Demerit ind;
          iFrontId := iFrontId ind; iDistCrowd := iDistCrowd ind;
          iDistNeigh := iDistNeigh ind |} |}.

(** An island for one objective, one penalty and two individuals. *)
Definition island0 (conf : ConfParams) : Island :=
  {| oId := 0; C := conf; intmin := []; intmax := [];
     fltmin := [fzero]; fltmax := [fzero];
     ovamin := [fzero]; ovamax := [fzero];
     oormin := [fzero]; oormax := [fzero];
     ovas := [[fzero; fzero]]; oors := [[fzero; fzero]];
     sovas := [[fzero; fzero]]; soors := [[fzero; fzero]];
     Nfeval := 0 |}.

(** An island for two objectives, one penalty and six individuals. *)
Definition conf6 : ConfParams :=
  {| cNova := 2; cNoor := 1; Ninds := 6; CompProb := false;
     ParetoPhi := fzero; CdistOff := false;
     OvaOor := fun ind _ _ => ind |}.

Definition zeros6 : list float64 := repeat fzero 6.

(** Its island, with rows of six values. *)
Definition island6 : Island :=
  {| oId := 0; C := conf6; intmin := []; intmax := [];
     fltmin := [fzero]; fltmax := [fzero];
     ovamin := [fzero; fzero]; ovamax := [fzero; fzero];
     oormin := [fzero]; oormax := [fzero];
     ovas := [zeros6; zeros6]; oors := [zeros6];
     sovas := [zeros6; zeros6]; soors := [zeros6];
     Nfeval := 0 |}.

(** Five feasible individuals, each dominated by the one before it, and
    one infeasible individual. *)
Definition pop6 : Population :=
  [indiv 0 [float64_of_int 0; float64_of_int 0] [fzero];
   indiv 1 [float64_of_int 1; float64_of_int 1] [fzero];
   indiv 2 [float64_of_int 2; float64_of_int 2] [fzero];
   indiv 3 [float64_of_int 3; float64_of_int 3] [fzero];
   indiv 4 [float64_of_int 4; float64_of_int 4] [fzero];
   indiv 5 [float64_of_int 0; float64_of_int 0] [fone]].

(* ================================================================== *)
(** * Further notions and example data *)

(** The verdict of a comparison with its two sides exchanged. *)
Definition swap_verdict (r : result (bool * bool)) : result (bool * bool) :=
  match r with
  | Ok (a, b) => Ok (b, a)
  | Panic m => Panic m
  end.

(** The outcome of a competition seen from the other side: a decision is
    reversed, a coin stays a coin. *)
Definition mirror (r : result Outcome) : result Outcome :=
  match r with
  | Ok (Decided w) => Ok (Decided (negb w))
  | Ok (FlipCoin p) => Ok (FlipCoin p)
  | Panic m => Panic m
  end.

(** [prms0] with the absolute-distance mode switched on. *)
Definition prms_abs : Parameters :=
  {| Nova := 1; Noor := 1; Nsol := 6; Ncpu := 1;
     Tf := 1; DtExc := 1; DtOut := 1;
     Pll := false; Seed := 0; LatinDup := 2;
     EpsMinProb := fzero; Verbose := false;
     Problem := 1; GenAll := false; Ntrials := 1;
     DEuseC := true; DEpm := fhalf; DEpc := fhalf;
     DEmult := fhalf; DebEtac := fone; DebEtam := fone;
     PmFlt := fzero; PmInt := fzero;
     FltMin := [fzero; fzero]; FltMax := [fone; fone];
     IntMin := [0]; IntMax := [9];
     Nflt := 2; Nint := 1;
     DelFlt := [fone; fone]; DelInt := [9];
     use_exchange_via_tournament := true;
     use_exchange_one_randomly := false;
     use_solution_absdistance := true;
     use_solution_comparedneigh := false;
     use_solution_frontcomparison := false;
     use_solution_distneighfight := false |}.

(** The cuts [GenerateCxEnds] accepts: each within [1, size-1] and none
    equal to the one before it. *)
Definition cuts_ok (size : Z) (cuts : list Z) : Prop :=
  forall i c, nth_error cuts i = Some c ->
    1 <= c < size /\ nth_error cuts (S i) <> Some c.

(** The number of cuts [GenerateCxEnds] draws when none is given. *)
Definition clamp_ncuts (size ncuts : Z) : Z := Z.min (Z.max 1 ncuts) (size - 1).

(** The number of ends at or before locus [j], and whether the locus
    lies in a swapped stretch. *)
Definition crossings (ends : list Z) (j : Z) : nat :=
  length (filter (fun e => e <=? j) ends).

Definition swapped (ends : list Z) (j : nat) : bool :=
  Nat.odd (crossings ends (Z.of_nat j)).

(** What [GenerateCxEnds] needs of the draw of [rnd.IntGetUniqueN] when
    no cut is given: enough values, each a cut position. *)
Definition draw_ok (IntGetUniqueN : Z -> Z -> Z -> list Z) (size ncuts : Z)
  : Prop :=
  let pool := IntGetUniqueN 1 size (clamp_ncuts size ncuts) in
  clamp_ncuts size ncuts <= len pool /\
  Forall (fun c => 1 <= c < size) pool.

(** The ends a crossover walks along: sorted, within [1, size], the last
    one the size. *)
Definition ends_ok (size : Z) (ends : list Z) : Prop :=
  StronglySorted Z.le ends /\ Forall (fun e => 1 <= e <= size) ends /\
  last ends 0 = size.

(** [j] is the first index whose cumulated probability exceeds [s]; no
    cumulated probability exceeds [s]. *)
Definition first_exceeding (cumprob : list float64) (s : float64) (j : nat)
  : Prop :=
  (exists m, nth_error cumprob j = Some m /\ fgt m s = true) /\
  forall k m, (k < j)%nat -> nth_error cumprob k = Some m -> fgt m s = false.

Definition none_exceeds (cumprob : list float64) (s : float64) : Prop :=
  Forall (fun m => fgt m s = false) cumprob.

(** The sample [RouletteSelect] uses for its [i]-th selection. *)
Definition roulette_sample (rand_Float64 : nat -> float64)
  (sample : option (list float64)) (i : nat) : option float64 :=
  match sample with
  | None => Some (rand_Float64 i)
  | Some l => nth_error l i
  end.

(** The pointer of the [i]-th selection of [SUSselect]: [dp] added [i]
    times to the first one. *)
Fixpoint sus_pointer (pb dp : float64) (i : nat) : float64 :=
  match i with
  | O => pb
  | S i' => sus_pointer (fadd pb dp) dp i'
  end.

(** [j] is the first index whose cumulated probability the pointer [p]
    does not exceed; the pointer exceeds them all. *)
Definition first_not_below (cumprob : list float64) (p : float64) (j : nat)
  : Prop :=
  (exists c, nth_error cumprob j = Some c /\ fgt p c = false) /\
  forall k c, (k < j)%nat -> nth_error cumprob k = Some c -> fgt p c = true.

Definition exceeds_all (cumprob : list float64) (p : float64) : Prop :=
  Forall (fun c => fgt p c = true) cumprob.

(** [chk.IntAssertLessThan] as used in the examples. *)
Definition assert_less (a b : Z) : result unit :=
  if a <? b then Ok tt else Panic "IntAssertLessThan failed".

(** The outcome seen from the other contestant: a decision is reversed
    and a coin of probability [p] becomes one of probability [1 - p]. *)
Definition mirror_coin (o : Outcome) : Outcome :=
  match o with
  | Decided w => Decided (negb w)
  | FlipCoin p => FlipCoin (fsub fone p)
  end.

(** The sums [p[0]], [p[0] + p[1]], ... added up from the left. *)
Fixpoint running_sums (acc : float64) (p : list float64) : list float64 :=
  match p with
  | [] => []
  | x :: r => fadd acc x :: running_sums (fadd acc x) r
  end.

Definition cumulated (p : list float64) : list float64 :=
  match p with
  | [] => []
  | x :: r => x :: running_sums x r
  end.

(** Best first by fitness: the fitness does not increase. *)
Definition fitness_order {Ind} (Fitness : Ind -> float64) (a b : Ind) : Prop :=
  fle (Fitness b) (Fitness a) = true.

(** The configuration [CalcDerived] makes of [prms_sized 1 6 1]. *)
Definition prms_derived : Parameters :=
  match CalcDerived (prms_sized 1 6 1) with
  | Ok o => o
  | Panic _ => prms0
  end.

(** A divisor the distances can use: a number other than zero. *)
Definition divisor_ok (d : float64) : Prop :=
  match d with
  | S754_nan | S754_zero _ => False
  | _ => True
  end.

(** The first [n] ranges [width(hi[i], lo[i]) + 1e-15] are there and
    usable as divisors. *)
Definition ranges_usable {H} (width : H -> H -> float64) (n : nat)
  (hi lo : list H) : Prop :=
  forall i, (i < n)%nat ->
    exists h l, nth_error hi i = Some h /\ nth_error lo i = Some l /\
                divisor_ok (fadd (width h l) f1em15).





(* ================================================================== *)
(** * Properties of the float64 comparisons *)

Ltac case_signs := repeat match goal with s : bool |- _ => destruct s end.

Lemma SFcompare_antisym (x y : float64) :
  SFcompare y x = option_map CompOpp (SFcompare x y).
Proof.
  destruct x as [sx|sx| |sx mx ex], y as [sy|sy| |sy my ey];
    case_signs; simpl; try reflexivity;
    rewrite (Z.compare_antisym ex ey);
    destruct (ex ?= ey); simpl; try reflexivity;
    change (Pos.compare_cont Eq my mx) with (Pos.compare my mx);
    change (Pos.compare_cont Eq mx my) with (Pos.compare mx my);
    rewrite (Pos.compare_antisym mx my);
    destruct (mx ?= my)%positive; reflexivity.
Qed.

Lemma SFcompare_key (x y : float64) :
  is_nan x = false -> is_nan y = false ->
  SFcompare x y = Some (lex3 (float_key x) (float_key y)).
Proof.
  destruct x as [sx|sx| |sx mx ex], y as [sy|sy| |sy my ey];
    case_signs; simpl; intros Hx Hy; try discriminate; try reflexivity.
  rewrite Z.compare_opp, (Z.compare_antisym ex ey).
  destruct (ex ?= ey); reflexivity.
Qed.

Lemma lex3_le_trans p q r : lex3_le p q -> lex3_le q r -> lex3_le p r.
Proof.
  destruct p as [[a b] c], q as [[a' b'] c'], r as [[a'' b''] c''].
  unfold lex3_le, lex3.
  destruct (Z.compare_spec a a'), (Z.compare_spec a' a''), (Z.compare_spec a a'');
    try lia; try congruence;
  destruct (Z.compare_spec b b'), (Z.compare_spec b' b''), (Z.compare_spec b b'');
    try lia; try congruence;
  destruct (Z.compare_spec c c'), (Z.compare_spec c' c''), (Z.compare_spec c c'');
    try lia; congruence.
Qed.

Lemma fle_key x y :
  fle x y = true <->
  is_nan x = false /\ is_nan y = false /\ lex3_le (float_key x) (float_key y).
Proof.
  unfold fle, SFleb, lex3_le. split.
  - destruct (is_nan x) eqn:Hx; [destruct x; try discriminate; simpl; discriminate|].
    destruct (is_nan y) eqn:Hy;
      [destruct y; try discriminate; destruct x; simpl; discriminate|].
    rewrite (SFcompare_key x y Hx Hy).
    destruct (lex3 _ _); intros; try discriminate; repeat split; congruence.
  - intros (Hx & Hy & H). rewrite (SFcompare_key x y Hx Hy).
    destruct (lex3 _ _); congruence.
Qed.

Lemma fle_trans x y z : fle x y = true -> fle y z = true -> fle x z = true.
Proof.
  rewrite !fle_key. intros (Hx & Hy & H1) (_ & Hz & H2).
  repeat split; auto. eapply lex3_le_trans; eauto.
Qed.

(** [x < y] excludes [y < x] and [y <= x]. *)
Lemma flt_asym x y : flt x y = true -> flt y x = false.
Proof.
  unfold flt, SFltb. rewrite (SFcompare_antisym x y).
  destruct (SFcompare x y) as [[]|]; simpl; congruence.
Qed.

Lemma flt_not_fle x y : flt x y = true -> fle y x = false.
Proof.
  unfold flt, fle, SFltb, SFleb. rewrite (SFcompare_antisym x y).
  destruct (SFcompare x y) as [[]|]; simpl; congruence.
Qed.

Lemma fgt_asym x y : fgt x y = true -> fgt y x = false.
Proof. unfold fgt. apply flt_asym. Qed.

(** Two floats that compare equal are in no strict order. *)
Lemma feq_not_flt x y : feq x y = true -> flt x y = false /\ flt y x = false.
Proof.
  unfold feq, flt, SFeqb, SFltb. rewrite (SFcompare_antisym x y).
  destruct (SFcompare x y) as [[]|]; simpl; intros; split; congruence.
Qed.

Lemma feq_not_fgt x y : feq x y = true -> fgt x y = false /\ fgt y x = false.
Proof. intros H. unfold fgt. destruct (feq_not_flt x y H). split; assumption. Qed.

(** Without NaN, "not greater" is "less or equal". *)
Lemma not_fgt_fle x y :
  is_nan x = false -> is_nan y = false -> fgt x y = false -> fle x y = true.
Proof.
  intros Hx Hy. unfold fgt, flt, fle, SFltb, SFleb.
  rewrite (SFcompare_antisym x y), (SFcompare_key x y Hx Hy).
  destruct (lex3 _ _); simpl; congruence.
Qed.

Lemma not_flt_fle x y :
  is_nan x = false -> is_nan y = false -> flt x y = false -> fle y x = true.
Proof. intros Hx Hy H. apply not_fgt_fle; assumption. Qed.

(* ================================================================== *)
(** * Properties of the built-in copy and of CopyInto *)

Lemma copy_length {A} (dst src : list A) : length (copy dst src) = length dst.
Proof.
  unfold copy. rewrite length_app, length_firstn, length_skipn. lia.
Qed.

Lemma copy_idem {A} (dst src : list A) : copy (copy dst src) src = copy dst src.
Proof.
  unfold copy at 1. rewrite copy_length. unfold copy.
  f_equal.
  destruct (Nat.le_gt_cases (length dst) (length src)) as [Hle | Hgt].
  - rewrite (skipn_all2 dst) by assumption.
    apply skipn_all2. rewrite length_app, length_firstn. simpl. lia.
  - rewrite firstn_all2 by lia.
    rewrite skipn_app, skipn_all, Nat.sub_diag. reflexivity.
Qed.

Lemma copy_same_length {A} (dst src : list A) :
  length dst = length src -> copy dst src = src.
Proof.
  intros H. unfold copy. rewrite H, firstn_all, <- H, skipn_all.
  apply app_nil_r.
Qed.

(** Claim C9. Copying [A] into [B] twice leaves [B] in exactly the state
    one copy leaves it in; with matching vector lengths the copied fields
    [Id], [Ova], [Oor], [Flt] and [Int] are those of [A] after one copy
    and after two. *)
Theorem CopyInto_idempotent (A B : Solution) :
  length (Ova A) = length (Ova B) ->
  length (Oor A) = length (Oor B) ->
  length (Flt A) = length (Flt B) ->
  length (Int A) = length (Int B) ->
  CopyInto A (CopyInto A B) = CopyInto A B /\
  Id (CopyInto A B) = Id A /\
  Ova (CopyInto A B) = Ova A /\
  Oor (CopyInto A B) = Oor A /\
  Flt (CopyInto A B) = Flt A /\
  Int (CopyInto A B) = Int A.
Proof.
  intros Hova Hoor Hflt Hint. split.
  - unfold CopyInto; simpl. rewrite !copy_idem. reflexivity.
  - simpl. rewrite !copy_same_length by (symmetry; assumption).
    repeat split; reflexivity.
Qed.

Lemma CopyInto_idempotent_witness :
  CopyInto (sol prms0 1 [fone] [fzero] 0 fzero fzero)
           (CopyInto (sol prms0 1 [fone] [fzero] 0 fzero fzero)
                     (sol prms0 2 [ftwo] [fone] 3 fone fone))
  = CopyInto (sol prms0 1 [fone] [fzero] 0 fzero fzero)
             (sol prms0 2 [ftwo] [fone] 3 fone fone).
Proof.
  apply (CopyInto_idempotent (sol prms0 1 [fone] [fzero] 0 fzero fzero)
                             (sol prms0 2 [ftwo] [fone] 3 fone fone));
    reflexivity.
Defined.

(* ================================================================== *)
(** * Properties of the dominance comparison *)

Lemma nviolations_nonneg (l : list float64) : 0 <= nviolations l.
Proof. induction l as [|x l IH]; simpl; [lia | destruct (fgt x fzero); lia]. Qed.

(** With penalty vectors of one length the counting loop of [Compare]
    returns the two violation counts. *)
Lemma count_violations_eq (a b : list float64) (na nb : Z) :
  length a = length b ->
  count_violations a b na nb = Ok (na + nviolations a, nb + nviolations b).
Proof.
  revert b na nb. induction a as [|x a IH]; intros [|y b] na nb Hlen;
    simpl in *; try discriminate.
  - f_equal. f_equal; lia.
  - rewrite IH by congruence.
    destruct (fgt x fzero), (fgt y fzero); f_equal; f_equal; lia.
Qed.

(** A shorter second penalty vector makes the loop read out of range. *)
Lemma count_violations_short (a b : list float64) (na nb : Z) :
  (length b < length a)%nat -> failed (count_violations a b na nb).
Proof.
  revert b na nb. induction a as [|x a IH]; intros [|y b] na nb Hlen;
    simpl in *; try lia; try exact I.
  apply IH. lia.
Qed.

Lemma all_leq_spec (u v : list float64) :
  length u = length v ->
  (all_leq u v = true <->
   forall i x y, nth_error u i = Some x -> nth_error v i = Some y ->
                 fle x y = true).
Proof.
  revert v. induction u as [|a u IH]; intros [|b v] Hlen; simpl in *;
    try discriminate.
  - split; [intros _ [|i] x y H; discriminate | reflexivity].
  - rewrite andb_true_iff, IH by congruence. split.
    + intros [Hab H] [|i] x y Hx Hy; simpl in *.
      * congruence.
      * eauto.
    + intros H. split.
      * apply (H 0%nat); reflexivity.
      * intros i x y Hx Hy. apply (H (S i)); assumption.
Qed.

Lemma one_less_spec (u v : list float64) :
  one_less u v = true <->
  exists i x y, nth_error u i = Some x /\ nth_error v i = Some y /\
                flt x y = true.
Proof.
  revert v. induction u as [|a u IH]; intros [|b v]; simpl.
  - split; [discriminate | intros ([|i] & x & y & H & _); discriminate].
  - split; [discriminate | intros ([|i] & x & y & H & _); discriminate].
  - split; [discriminate | intros ([|i] & x & y & _ & H & _); discriminate].
  - rewrite orb_true_iff, IH. split.
    + intros [H | (i & x & y & Hx & Hy & H)].
      * exists 0%nat, a, b. auto.
      * exists (S i), x, y. auto.
    + intros ([|i] & x & y & Hx & Hy & H); simpl in *.
      * left. congruence.
      * right. eauto 6.
Qed.

Lemma pareto_min_verdict (u v : list float64) :
  length u = length v ->
  pareto_verdict u v (fst (pareto_min u v)) (snd (pareto_min u v)).
Proof.
  intros Hlen. unfold pareto_verdict, pareto_dominates, pareto_min; simpl.
  rewrite !andb_true_iff, !all_leq_spec, !one_less_spec by congruence.
  split; reflexivity.
Qed.

(** A strict inequality at one position rules out the converse
    domination. *)
Lemma one_less_not_all_leq (u v : list float64) :
  one_less u v = true -> all_leq v u = false.
Proof.
  revert v. induction u as [|a u IH]; intros [|b v]; simpl; try discriminate.
  rewrite orb_true_iff. intros [H | H].
  - rewrite (flt_not_fle _ _ H). reflexivity.
  - rewrite (IH _ H). apply andb_false_r.
Qed.

Lemma pareto_min_not_both (u v : list float64) : pareto_min u v <> (true, true).
Proof.
  unfold pareto_min. intros H. injection H as H1 H2.
  apply andb_true_iff in H1 as [_ H1]. apply andb_true_iff in H2 as [H2 _].
  rewrite (one_less_not_all_leq _ _ H1) in H2. discriminate.
Qed.

Lemma DblsParetoMin_eq (u v : list float64) :
  length u = length v -> DblsParetoMin u v = Ok (pareto_min u v).
Proof.
  intros H. unfold DblsParetoMin, IntAssert, len. rewrite H, Z.eqb_refl.
  reflexivity.
Qed.

Lemma DblsParetoMin_not_both (u v : list float64) :
  DblsParetoMin u v <> Ok (true, true).
Proof.
  unfold DblsParetoMin, IntAssert.
  destruct (len u =? len v); simpl; [|discriminate].
  intros H. injection H as H1 H2.
  exact (pareto_min_not_both u v (f_equal2 pair H1 H2)).
Qed.

(** The body of [Compare] never reports both dominations. *)
Lemma Compare_body_not_both (A B : Solution) :
  Compare_body A B <> Ok (true, true).
Proof.
  unfold Compare_body.
  destruct (count_violations (Oor A) (Oor B) 0 0) as [[na nb]|m]; simpl;
    [|discriminate].
  destruct (na >? 0), (nb >? 0); try discriminate;
    try apply DblsParetoMin_not_both.
  destruct (na <? nb); [discriminate|].
  destruct (nb <? na); [discriminate|].
  pose proof (DblsParetoMin_not_both (Oor A) (Oor B)) as Hoor.
  destruct (DblsParetoMin (Oor A) (Oor B)) as [[a b]|m]; simpl; [|discriminate].
  destruct a, b; simpl; try discriminate; try congruence.
  apply DblsParetoMin_not_both.
Qed.

(** With the flag off and vectors of matching lengths, the body of
    [Compare] returns verdicts that follow the dominance rule. *)
Lemma Compare_body_rule (A B : Solution) :
  length (Oor A) = length (Oor B) ->
  length (Ova A) = length (Ova B) ->
  exists a b, Compare_body A B = Ok (a, b) /\ dominance_rule A B a b.
Proof.
  intros Hoor Hova. unfold Compare_body.
  rewrite (count_violations_eq _ _ 0 0 Hoor).
  rewrite !(DblsParetoMin_eq _ _ Hoor), !(DblsParetoMin_eq _ _ Hova).
  pose proof (nviolations_nonneg (Oor A)) as HA.
  pose proof (nviolations_nonneg (Oor B)) as HB.
  pose proof (pareto_min_verdict _ _ Hova) as Vova.
  pose proof (pareto_min_verdict _ _ Hoor) as Voor.
  destruct (pareto_min (Ova A) (Ova B)) as [va vb].
  destruct (pareto_min (Oor A) (Oor B)) as [ra rb].
  simpl in Vova, Voor. destruct Voor as [Va Vb].
  unfold dominance_rule. simpl.
  destruct (Z.gtb_spec (nviolations (Oor A)) 0) as [HgA | HgA];
    destruct (Z.gtb_spec (nviolations (Oor B)) 0) as [HgB | HgB].
  - destruct (Z.ltb_spec (nviolations (Oor A)) (nviolations (Oor B))) as [Hab | Hab];
      [|destruct (Z.ltb_spec (nviolations (Oor B)) (nviolations (Oor A))) as [Hba | Hba]].
    + exists true, false. split; [reflexivity|].
      repeat split; intros; try lia; auto.
    + exists false, true. split; [reflexivity|].
      repeat split; intros; try lia; auto.
    + destruct (negb ra && negb rb) eqn:Eboth.
      * exists va, vb. split; [reflexivity|].
        apply andb_true_iff in Eboth as [Ea Eb].
        apply negb_true_iff in Ea, Eb. subst ra rb.
        split; [intros; lia|]. split; [|split; intros; lia].
        intros _ _. split; [intros; lia|]. split; [intros; lia|].
        intros _. split; [|intros; exact Vova].
        intros [H | H]; [apply Va in H | apply Vb in H]; discriminate.
      * exists ra, rb. split; [reflexivity|].
        split; [intros; lia|]. split; [|split; intros; lia].
        intros _ _. split; [intros; lia|]. split; [intros; lia|].
        intros _. split; [intros _; split; assumption|].
        intros Hna Hnb. exfalso.
        destruct ra; [apply Hna, Va; reflexivity|].
        destruct rb; [apply Hnb, Vb; reflexivity|].
        discriminate.
  - exists false, true. split; [reflexivity|].
    repeat split; intros; try lia; auto.
  - exists true, false. split; [reflexivity|].
    repeat split; intros; try lia; auto.
  - exists va, vb. split; [reflexivity|].
    split; [intros; exact Vova|].
    split; [intros; lia|]. split; intros; lia.
Qed.

(** Without the deferred function, [Compare] is its body. *)
Lemma Compare_flag_off (A B : Solution) :
  use_solution_comparedneigh (prms A) = false ->
  Compare A B = Compare_body A B.
Proof.
  intros H. unfold Compare. rewrite H.
  destruct (Compare_body A B) as [[a b]|m]; reflexivity.
Qed.

(** Claim C1, as amended. With the neighbour-distance comparison flag
    off, and penalty vectors of one length and objective vectors of one
    length, [Compare] returns the verdicts of the constraint-aware
    dominance rule: both feasible, Pareto on the objectives; both
    infeasible, fewer violations wins, on a tie Pareto on the penalties
    and, if neither dominates there, Pareto on the objectives; exactly
    one feasible, the feasible one dominates. *)
Theorem Compare_implements_rule (A B : Solution) :
  use_solution_comparedneigh (prms A) = false ->
  length (Oor A) = length (Oor B) ->
  length (Ova A) = length (Ova B) ->
  exists a b, Compare A B = Ok (a, b) /\ dominance_rule A B a b.
Proof.
  intros Hflag Hoor Hova. rewrite (Compare_flag_off A B Hflag).
  apply Compare_body_rule; assumption.
Qed.

Lemma Compare_implements_rule_witness :
  exists a b,
    Compare (sol prms0 1 [fone] [fone] 0 fzero fzero)
            (sol prms0 2 [ftwo] [fzero] 0 fzero fone) = Ok (a, b) /\
    dominance_rule (sol prms0 1 [fone] [fone] 0 fzero fzero)
                   (sol prms0 2 [ftwo] [fzero] 0 fzero fone) a b.
Proof.
  apply (Compare_implements_rule (sol prms0 1 [fone] [fone] 0 fzero fzero)
                                 (sol prms0 2 [ftwo] [fzero] 0 fzero fone));
    reflexivity.
Defined.

(** Claim C1 fails as stated: with the neighbour-distance comparison
    flag on, two feasible solutions with the same objective value and
    penalty vectors of one length are not compared by the rule. [A] is
    reported to dominate, on its larger neighbour distance alone. *)
Lemma Compare_flag_on_breaks_rule :
  length (Oor (sol prms_neigh 1 [fone] [fzero] 0 fzero fone)) =
  length (Oor (sol prms_neigh 2 [fone] [fzero] 0 fzero fzero)) /\
  Compare (sol prms_neigh 1 [fone] [fzero] 0 fzero fone)
          (sol prms_neigh 2 [fone] [fzero] 0 fzero fzero) = Ok (true, false) /\
  ~ (exists a b,
       Compare (sol prms_neigh 1 [fone] [fzero] 0 fzero fone)
               (sol prms_neigh 2 [fone] [fzero] 0 fzero fzero) = Ok (a, b) /\
       dominance_rule (sol prms_neigh 1 [fone] [fzero] 0 fzero fone)
                      (sol prms_neigh 2 [fone] [fzero] 0 fzero fzero) a b).
Proof.
  split; [reflexivity|]. split; [reflexivity|].
  intros (a & b & H & R).
  change (Ok (true, false) = Ok (a, b)) in H. injection H as <- <-.
  destruct R as [R _]. specialize (R eq_refl eq_refl).
  destruct R as [[R _] _]. destruct (R eq_refl) as [_ (i & x & y & Hx & Hy & Hlt)].
  destruct i as [|[|i]]; simpl in Hx, Hy; try discriminate.
  injection Hx as <-. injection Hy as <-. discriminate.
Qed.

(** Claim C2, as amended. [Compare] never returns both dominations when
    the neighbour-distance comparison flag is off, nor when it is on but
    neither neighbour distance is greater than the other. *)
Theorem Compare_never_both (A B : Solution) :
  use_solution_comparedneigh (prms A) = false \/
  (fgt (DistNeigh A) (DistNeigh B) = false /\
   fgt (DistNeigh B) (DistNeigh A) = false) ->
  Compare A B <> Ok (true, true).
Proof.
  intros H. pose proof (Compare_body_not_both A B) as Hbody.
  unfold Compare.
  destruct (Compare_body A B) as [[a b]|m]; simpl; [|discriminate].
  destruct (use_solution_comparedneigh (prms A)).
  - destruct H as [H | [H1 H2]]; [discriminate|].
    rewrite H1, H2. exact Hbody.
  - exact Hbody.
Qed.

Lemma Compare_never_both_witness :
  Compare (sol prms0 1 [fone] [fone] 0 fzero fone)
          (sol prms0 2 [ftwo] [fzero] 0 fzero fzero) <> Ok (true, true).
Proof.
  apply (Compare_never_both (sol prms0 1 [fone] [fone] 0 fzero fone)
                            (sol prms0 2 [ftwo] [fzero] 0 fzero fzero)).
  left. reflexivity.
Defined.

(** Claim C2 fails as stated: with the neighbour-distance comparison
    flag on, an infeasible [A] with the larger neighbour distance against
    a feasible [B] gets both dominations: [B] from the rule, [A] from the
    deferred function. *)
Lemma Compare_flag_on_both :
  use_solution_comparedneigh (prms (sol prms_neigh 1 [fone] [fone] 0 fzero fone)) = true /\
  Compare (sol prms_neigh 1 [fone] [fone] 0 fzero fone)
          (sol prms_neigh 2 [ftwo] [fzero] 0 fzero fzero) = Ok (true, true).
Proof. split; reflexivity. Qed.

(* ================================================================== *)
(** * Properties of the tournaments *)







(** The island's tournament does use biased coins, but only when the
    neighbour distances differ. *)
Example tournament_biased_coin :
  tournament (fun _ _ _ => Decided true) conf0
    {| iId := 1; Ovas := [fone]; Oors := [fzero]; Ints := []; Floats := [];
       Demerit := fzero; iFrontId := 0; iDistCrowd := fone;
       iDistNeigh := fone |}
    {| iId := 2; Ovas := [fone]; Oors := [fzero]; Ints := []; Floats := [];
       Demerit := fzero; iFrontId := 0; iDistCrowd := fone;
       iDistNeigh := fzero |}
  = FlipCoin f0_6.
Proof. reflexivity. Qed.

(* ================================================================== *)
(** * Properties of the parameter derivation *)

Lemma del_flt_ok (fmax fmin : list float64) :
  length fmax = length fmin ->
  exists r, del_flt (length fmin) fmax fmin = Ok r /\
            length r = length fmin /\
            forall i x y, nth_error fmax i = Some x ->
                          nth_error fmin i = Some y ->
                          nth_error r i = Some (fsub x y).
Proof.
  revert fmin. induction fmax as [|a fmax IH]; intros [|b fmin] H;
    simpl in *; try discriminate.
  - exists []. repeat split. intros [|i] x y Hx; discriminate.
  - destruct (IH fmin) as (r & Hr & Hlen & Hnth); [congruence|].
    rewrite Hr. simpl. exists (fsub a b :: r). repeat split.
    + simpl. congruence.
    + intros [|i] x y Hx Hy; simpl in *; [congruence | eauto].
Qed.

Lemma del_int_ok (imax imin : list Z) :
  length imax = length imin ->
  exists r, del_int (length imin) imax imin = Ok r /\
            length r = length imin /\
            forall i x y, nth_error imax i = Some x ->
                          nth_error imin i = Some y ->
                          nth_error r i = Some (int_sub x y).
Proof.
  revert imin. induction imax as [|a imax IH]; intros [|b imin] H;
    simpl in *; try discriminate.
  - exists []. repeat split. intros [|i] x y Hx; discriminate.
  - destruct (IH imin) as (r & Hr & Hlen & Hnth); [congruence|].
    rewrite Hr. simpl. exists (int_sub a b :: r). repeat split.
    + simpl. congruence.
    + intros [|i] x y Hx Hy; simpl in *; [congruence | eauto].
Qed.

Lemma len_to_nat {A} (l : list A) : Z.to_nat (len l) = length l.
Proof. unfold len. apply Nat2Z.id. Qed.

Lemma len_eq_iff {A B} (l : list A) (l' : list B) :
  len l = len l' <-> length l = length l'.
Proof. unfold len. lia. Qed.

Lemma len_zero_iff {A} (l : list A) : len l = 0 <-> l = [].
Proof. unfold len. destruct l; simpl; split; intros; try lia; congruence. Qed.

Lemma derive_ranges_spec (fmin fmax : list float64) (imin imax : list Z) :
  (failed (derive_ranges fmin fmax imin imax) <->
   bounds_bad fmin fmax imin imax) /\
  (forall nflt nint delflt delint,
     derive_ranges fmin fmax imin imax = Ok (nflt, nint, delflt, delint) ->
     nflt = len fmin /\ nint = len imin /\
     ranges_of fmin fmax delflt imin imax delint).
Proof.
  unfold derive_ranges, bounds_bad.
  destruct ((len fmin =? 0) && (len imin =? 0)) eqn:E.
  { apply andb_true_iff in E as [E1 E2]. apply Z.eqb_eq in E1, E2.
    apply len_zero_iff in E1, E2.
    split; [split; auto; intros; exact I | discriminate]. }
  assert (Hsome : ~ (fmin = [] /\ imin = [])).
  { intros [-> ->]. discriminate. }
  unfold IntAssert.
  destruct (Z.eqb_spec (len fmax) (len fmin)) as [Hf|Hf]; simpl.
  2:{ rewrite len_eq_iff in Hf. split; [split; auto; intros; exact I | discriminate]. }
  destruct (Z.eqb_spec (len imax) (len imin)) as [Hi|Hi]; simpl.
  2:{ rewrite len_eq_iff in Hi. split; [split; auto; intros; exact I | discriminate]. }
  apply len_eq_iff in Hf, Hi. rewrite !len_to_nat.
  destruct (del_flt_ok fmax fmin Hf) as (df & Hdf & Hlf & Hnf).
  destruct (del_int_ok imax imin Hi) as (di & Hdi & Hli & Hni).
  rewrite Hdf, Hdi. simpl. split.
  - split; [intros [] | intros [H | [H | H]]; contradiction].
  - intros nflt nint delflt delint H. injection H as <- <- <- <-.
    repeat split; assumption.
Qed.

(** The Ncpu version of [CalcDerived]: when it fails, and what it
    derives. *)
Lemma CalcDerived_spec (o : Parameters) :
  (failed (CalcDerived o) <->
   Nova o < 1 \/ Nsol o < 6 \/ Ncpu o > Z.quot (Nsol o) 2 \/
   bounds_bad (FltMin o) (FltMax o) (IntMin o) (IntMax o)) /\
  (forall o', CalcDerived o = Ok o' ->
     ranges_of (FltMin o) (FltMax o) (DelFlt o')
               (IntMin o) (IntMax o) (DelInt o')).
Proof.
  unfold CalcDerived.
  destruct (Z.ltb_spec (Nova o) 1) as [Hnova|Hnova].
  { split; [split; auto; intros; exact I | discriminate]. }
  destruct (Z.ltb_spec (Nsol o) 6) as [Hnsol|Hnsol].
  { split; [split; auto; intros; exact I | discriminate]. }
  assert (Hq : 3 <= Z.quot (Nsol o) 2).
  { rewrite Z.quot_div_nonneg by lia. apply Z.div_le_lower_bound; lia. }
  set (cpu := if Ncpu o <? 2 then (1, false, 1) else (Ncpu o, Pll o, DtExc o)).
  assert (Hcpu : fst (fst cpu) > Z.quot (Nsol o) 2 <-> Ncpu o > Z.quot (Nsol o) 2).
  { unfold cpu. destruct (Z.ltb_spec (Ncpu o) 2); simpl; lia. }
  destruct cpu as [[ncpu pll] dtexc]. simpl in Hcpu.
  destruct (Z.gtb_spec ncpu (Z.quot (Nsol o) 2)) as [Hgt|Hle].
  { split; [split; [intros _; right; right; left; lia | intros; exact I]
           | discriminate]. }
  destruct (derive_ranges_spec (FltMin o) (FltMax o) (IntMin o) (IntMax o))
    as [Hfail Hok].
  destruct (derive_ranges (FltMin o) (FltMax o) (IntMin o) (IntMax o))
    as [[[[nflt nint] delflt] delint]|m]; simpl in *.
  - split.
    + split; [intros [] | intros [H | [H | [H | H]]]; try lia].
      apply Hfail in H. exact H.
    + intros o' H. injection H as <-. simpl.
      apply (Hok _ _ _ _ eq_refl).
  - split; [|discriminate].
    split; [intros _; right; right; right; apply Hfail; exact I | intros; exact I].
Qed.

(** The older version with groups: when it fails, and what it derives. *)
Lemma CalcDerivedGrp_spec (o : ParametersGrp) :
  (failed (CalcDerivedGrp o) <->
   gNova o < 1 \/ gNgrp o < 1 \/ gNsol o < 2 \/ Z.rem (gNsol o) 2 <> 0 \/
   Z.rem (wrap64 (gNsol o * gNgrp o)) 2 <> 0 \/
   bounds_bad (gFltMin o) (gFltMax o) (gIntMin o) (gIntMax o)) /\
  (forall o', CalcDerivedGrp o = Ok o' ->
     ranges_of (gFltMin o) (gFltMax o) (gDelFlt o')
               (gIntMin o) (gIntMax o) (gDelInt o')).
Proof.
  unfold CalcDerivedGrp.
  destruct (Z.ltb_spec (gNova o) 1) as [Hnova|Hnova].
  { split; [split; auto; intros; exact I | discriminate]. }
  destruct (Z.ltb_spec (gNgrp o) 1) as [Hgrp|Hgrp].
  { split; [split; auto; intros; exact I | discriminate]. }
  destruct (Z.ltb_spec (gNsol o) 2) as [Hnsol|Hnsol]; simpl.
  { split; [split; auto; intros; exact I | discriminate]. }
  destruct (Z.eqb_spec (Z.rem (gNsol o) 2) 0) as [Heven|Hodd]; simpl.
  2:{ split; [split; [intros _; do 3 right; left; exact Hodd | intros; exact I]
             | discriminate]. }
  destruct (Z.eqb_spec (Z.rem (wrap64 (gNsol o * gNgrp o)) 2) 0) as [Htot|Htot];
    simpl.
  2:{ split; [split; [intros _; do 4 right; left; exact Htot | intros; exact I]
             | discriminate]. }
  destruct (derive_ranges_spec (gFltMin o) (gFltMax o) (gIntMin o) (gIntMax o))
    as [Hfail Hok].
  destruct (derive_ranges (gFltMin o) (gFltMax o) (gIntMin o) (gIntMax o))
    as [[[[nflt nint] delflt] delint]|m]; simpl in *.
  - split.
    + split; [intros [] | intros [H | [H | [H | [H | [H | H]]]]]; try lia].
      apply Hfail in H. exact H.
    + intros o' H. injection H as <-. simpl.
      apply (Hok _ _ _ _ eq_refl).
  - split; [|discriminate].
    split; [intros _; do 5 right; apply Hfail; exact I | intros; exact I].
Qed.

(** Claim C5, as amended. The parameter derivation fails exactly when the
    configuration has no objective ([nova < 1]), fewer than 6 solutions,
    more CPUs than half the solutions, no bounds at all, or bounds whose
    minima and maxima differ in length; whether [nsol] is even is not
    looked at. Every other configuration is accepted, and then
    [DelFlt[i] = FltMax[i] - FltMin[i]] and
    [DelInt[i] = IntMax[i] - IntMin[i]] for every index. The older
    version of the derivation, with groups instead of CPUs, fails exactly
    on [nova < 1], [ngrp < 1], [nsol < 2], an odd [nsol], an odd
    [nsol * ngrp], or the same unusable bounds, and derives the same
    ranges. *)
Theorem CalcDerived_fails_exactly_when (o : Parameters) (g : ParametersGrp) :
  (failed (CalcDerived o) <->
   Nova o < 1 \/ Nsol o < 6 \/ Ncpu o > Z.quot (Nsol o) 2 \/
   bounds_bad (FltMin o) (FltMax o) (IntMin o) (IntMax o)) /\
  (forall o', CalcDerived o = Ok o' ->
     ranges_of (FltMin o) (FltMax o) (DelFlt o')
               (IntMin o) (IntMax o) (DelInt o')) /\
  (failed (CalcDerivedGrp g) <->
   gNova g < 1 \/ gNgrp g < 1 \/ gNsol g < 2 \/ Z.rem (gNsol g) 2 <> 0 \/
   Z.rem (wrap64 (gNsol g * gNgrp g)) 2 <> 0 \/
   bounds_bad (gFltMin g) (gFltMax g) (gIntMin g) (gIntMax g)) /\
  (forall g', CalcDerivedGrp g = Ok g' ->
     ranges_of (gFltMin g) (gFltMax g) (gDelFlt g')
               (gIntMin g) (gIntMax g) (gDelInt g')).
Proof.
  destruct (CalcDerived_spec o) as [H1 H2].
  destruct (CalcDerivedGrp_spec g) as [H3 H4].
  split; [exact H1|]. split; [exact H2|]. split; [exact H3 | exact H4].
Qed.

(** Claim C5 fails as stated, in both directions and on both versions.
    An odd [nsol = 7] is accepted; a configuration that passes every
    listed check but has [nova = 0] is refused; and the older version
    accepts [nsol = 4 < 6]. *)
Lemma CalcDerived_odd_nsol_accepted :
  (Z.odd (Nsol (prms_sized 1 7 1)) = true /\
   succeeded (CalcDerived (prms_sized 1 7 1))) /\
  (Z.even (Nsol (prms_sized 0 6 1)) = true /\
   6 <= Nsol (prms_sized 0 6 1) /\
   Ncpu (prms_sized 0 6 1) <= Z.quot (Nsol (prms_sized 0 6 1)) 2 /\
   ~ bounds_bad (FltMin (prms_sized 0 6 1)) (FltMax (prms_sized 0 6 1))
                (IntMin (prms_sized 0 6 1)) (IntMax (prms_sized 0 6 1)) /\
   failed (CalcDerived (prms_sized 0 6 1))) /\
  (gNsol (grp_sized 1 4 1) < 6 /\ succeeded (CalcDerivedGrp (grp_sized 1 4 1))).
Proof.
  repeat split; try reflexivity; try exact I; try (simpl; lia).
  - intros H. discriminate H.
  - unfold bounds_bad. simpl. intros [[H _] | [H | H]]; try discriminate; lia.
Qed.

(* ================================================================== *)
(** * Properties of the objective evaluation *)

Lemma check_oors_spec (l : list float64) :
  (failed (check_oors l) <-> exists oor, In oor l /\ flt oor fzero = true) /\
  ((forall oor, In oor l -> flt oor fzero = false) -> check_oors l = Ok tt).
Proof.
  induction l as [|x l [IHf IHo]]; simpl.
  - split; [split; [intros [] | intros (oor & [] & _)] | reflexivity].
  - destruct (flt x fzero) eqn:E.
    + split.
      * split; [intros _; exists x; auto | intros; exact I].
      * intros H. rewrite (H x (or_introl eq_refl)) in E. discriminate.
    + split.
      * rewrite IHf. split.
        -- intros (oor & Hin & Hneg). exists oor. auto.
        -- intros (oor & [-> | Hin] & Hneg); [congruence | eauto].
      * intros H. apply IHo. intros oor Hin. apply H. auto.
Qed.

Lemma nfeval_after_step (pop : Population) (nfeval : Z) :
  nfeval_after pop (int_add nfeval 1) = int_add (nfeval_after pop nfeval) 1.
Proof.
  unfold nfeval_after. induction (length pop) as [|n IH]; simpl;
    [reflexivity | rewrite IH; reflexivity].
Qed.

Lemma CalcOvs_loop_spec (conf : ConfParams) (id time : Z) (pop : Population)
  (nfeval : Z) :
  (failed (CalcOvs_loop conf id time pop nfeval) <->
   negative_oor conf id time pop) /\
  (~ negative_oor conf id time pop ->
   CalcOvs_loop conf id time pop nfeval =
   Ok (map (fun ind => OvaOor conf ind id time) pop, nfeval_after pop nfeval)).
Proof.
  unfold negative_oor.
  revert nfeval. induction pop as [|ind pop IH]; intros nfeval; simpl.
  - split; [split; [intros [] | intros (i & o & [] & _)] | reflexivity].
  - destruct (check_oors_spec (Oors (OvaOor conf ind id time))) as [Hf Ho].
    destruct (IH (int_add nfeval 1)) as [IHf IHo].
    destruct (check_oors (Oors (OvaOor conf ind id time))) as [[]|m] eqn:E;
      simpl in *.
    + assert (Hhead : forall oor, In oor (Oors (OvaOor conf ind id time)) ->
                                  flt oor fzero = false).
      { intros oor Hin. destruct (flt oor fzero) eqn:En; [|reflexivity].
        exfalso. apply Hf. eauto. }
      split.
      * split.
        -- intros H.
           destruct (CalcOvs_loop conf id time pop (int_add nfeval 1))
             as [[rest n]|m'] eqn:El; [destruct H|].
           destruct (proj1 IHf I) as (i & o & Hi & Ho' & Hn).
           exists i, o. auto.
        -- intros (i & o & [<- | Hi] & Ho' & Hn).
           ++ rewrite (Hhead o Ho') in Hn. discriminate.
           ++ assert (Hfail : failed (CalcOvs_loop conf id time pop (int_add nfeval 1)))
                by (apply IHf; eauto).
              destruct (CalcOvs_loop conf id time pop (int_add nfeval 1))
                as [[rest n]|m']; [destruct Hfail | exact I].
      * intros Hnone. rewrite IHo.
        -- simpl. rewrite nfeval_after_step. reflexivity.
        -- intros (i & o & Hi & Ho' & Hn). apply Hnone. exists i, o. auto.
    + split.
      * split; [intros _ | intros; exact I].
        destruct (proj1 Hf I) as (o & Ho' & Hn). exists ind, o. auto.
      * intros Hnone. exfalso. apply Hnone.
        destruct (proj1 Hf I) as (o & Ho' & Hn). exists ind, o. auto.
Qed.

(** Claim C6, as amended. Evaluating a population fails if and only if
    the objective function writes a negative out-of-range component into
    some individual; the objective values are not inspected. For every
    population whose evaluations write no negative penalty the evaluation
    succeeds, every individual has been evaluated, and the evaluation
    counter has been incremented once per individual. *)
Theorem CalcOvs_fails_iff_negative_oor (o : Island) (pop : Population) (time : Z) :
  (failed (CalcOvs o pop time) <-> negative_oor (C o) (oId o) time pop) /\
  (~ negative_oor (C o) (oId o) time pop ->
   CalcOvs o pop time =
   Ok (set_Nfeval (nfeval_after pop (Nfeval o)) o,
       map (fun ind => OvaOor (C o) ind (oId o) time) pop)).
Proof.
  unfold CalcOvs.
  destruct (CalcOvs_loop_spec (C o) (oId o) time pop (Nfeval o)) as [Hf Ho].
  split.
  - rewrite <- Hf.
    destruct (CalcOvs_loop (C o) (oId o) time pop (Nfeval o)) as [[p n]|m];
      simpl; reflexivity.
  - intros Hnone. rewrite (Ho Hnone). reflexivity.
Qed.

(** Without overflow the counter grows by the size of the population. *)
Lemma wrap64_small (z : Z) : - 2 ^ 63 <= z < 2 ^ 63 -> wrap64 z = z.
Proof.
  intros H. unfold wrap64. rewrite Z.mod_small; lia.
Qed.

Lemma nfeval_after_no_overflow (pop : Population) (nfeval : Z) :
  - 2 ^ 63 <= nfeval -> nfeval + len pop < 2 ^ 63 ->
  nfeval_after pop nfeval = nfeval + len pop.
Proof.
  unfold nfeval_after, len. induction pop as [|ind pop IH]; simpl; intros Hlo Hhi.
  - lia.
  - rewrite IH by lia. unfold int_add. rewrite wrap64_small; lia.
Qed.

(** Claim C6 fails as stated: an objective function that produces a
    non-finite objective value does not make the evaluation fail. *)
Lemma CalcOvs_accepts_infinite_objective :
  (exists ind ova,
     In ind [indiv 0 [fzero] [fzero]; indiv 1 [fzero] [fzero]] /\
     In ova (Ovas (OvaOor conf_inf ind 0 0)) /\ is_finite ova = false) /\
  succeeded (CalcOvs (island0 conf_inf)
                     [indiv 0 [fzero] [fzero]; indiv 1 [fzero] [fzero]] 0).
Proof.
  split; [|exact I].
  exists (indiv 0 [fzero] [fzero]), fpinf. simpl. auto.
Qed.

(* ================================================================== *)
(** * Properties of sort.Sort *)

Lemma StronglySorted_snoc {A} (R : A -> A -> Prop) (l : list A) (x : A) :
  StronglySorted R l -> Forall (fun y => R y x) l ->
  StronglySorted R (l ++ [x]).
Proof.
  induction l as [|a l IH]; simpl; intros Hs Hall.
  - repeat constructor.
  - apply StronglySorted_inv in Hs as [Hs Ha].
    inversion Hall as [|? ? Hax Hall']; subst.
    constructor; [apply IH; assumption|].
    apply Forall_app. split; [assumption | repeat constructor; assumption].
Qed.

Lemma StronglySorted_rev {A} (R : A -> A -> Prop) (l : list A) :
  StronglySorted (fun a b => R b a) l -> StronglySorted R (rev l).
Proof.
  induction l as [|a l IH]; simpl; intros Hs; [constructor|].
  apply StronglySorted_inv in Hs as [Hs Ha].
  apply StronglySorted_snoc; [apply IH; assumption|].
  apply Forall_rev. exact Ha.
Qed.

Lemma StronglySorted_weaken {A} (P : A -> Prop) (R R' : A -> A -> Prop)
  (l : list A) :
  (forall a b, P a -> P b -> R a b -> R' a b) ->
  Forall P l -> StronglySorted R l -> StronglySorted R' l.
Proof.
  intros Himp. induction l as [|a l IH]; intros HP Hs; [constructor|].
  apply StronglySorted_inv in Hs as [Hs Ha].
  inversion HP as [|? ? HPa HPl]; subst.
  constructor; [apply IH; assumption|].
  rewrite Forall_forall in *. intros b Hb. apply Himp; auto.
Qed.

Section SortProps.
Context {A : Type}.
Variable less : A -> A -> result bool.
Variable lessb : A -> A -> bool.
Variable P : A -> Prop.

(** [a] may stand before [b]: [b] is not less than [a]. *)
Let before (a b : A) : Prop := lessb b a = false.

Hypothesis less_def : forall a b, P a -> P b -> less a b = Ok (lessb a b).
Hypothesis lessb_asym :
  forall a b, P a -> P b -> lessb a b = true -> lessb b a = false.
Hypothesis before_trans :
  forall a b c, P a -> P b -> P c -> before a b -> before b c -> before a c.

Lemma sink_sorted (x : A) (rp : list A) :
  P x -> Forall P rp -> StronglySorted (fun a b => before b a) rp ->
  exists r, sink less x rp = Ok r /\ Permutation (x :: rp) r /\
            StronglySorted (fun a b => before b a) r.
Proof.
  intros Hx. induction rp as [|p rp IH]; intros HP Hs; simpl.
  - exists [x]. repeat split; auto. repeat constructor.
  - inversion HP as [|? ? Hp HPrp]; subst.
    apply StronglySorted_inv in Hs as [Hs Hp_all].
    rewrite (less_def x p Hx Hp). simpl.
    destruct (lessb x p) eqn:E.
    + destruct (IH HPrp Hs) as (r & Hr & Hperm & Hsorted).
      rewrite Hr. simpl. exists (p :: r). split; [reflexivity|]. split.
      * rewrite perm_swap. constructor. exact Hperm.
      * constructor; [exact Hsorted|].
        apply (Permutation_Forall Hperm). constructor; [|exact Hp_all].
        unfold before. apply lessb_asym; assumption.
    + exists (x :: p :: rp). split; [reflexivity|]. split; [reflexivity|].
      constructor; [constructor; assumption|].
      constructor; [exact E|].
      rewrite Forall_forall in *. intros b Hb.
      apply (before_trans b p x); auto.
Qed.

Lemma insertionSort_sorted (rest rp : list A) :
  Forall P rp -> Forall P rest ->
  StronglySorted (fun a b => before b a) rp ->
  exists r, insertionSort less rp rest = Ok r /\
            Permutation (rev rp ++ rest) r /\ StronglySorted before r.
Proof.
  revert rp. induction rest as [|x rest IH]; intros rp HP Hrest Hs; simpl.
  - exists (rev rp). rewrite app_nil_r. repeat split; auto.
    apply StronglySorted_rev. exact Hs.
  - inversion Hrest as [|? ? Hx Hrest']; subst.
    destruct (sink_sorted x rp Hx HP Hs) as (rp' & Hsink & Hperm & Hs').
    rewrite Hsink. simpl.
    destruct (IH rp' (Permutation_Forall Hperm (Forall_cons x Hx HP)) Hrest' Hs')
      as (r & Hr & Hperm' & Hsorted).
    exists r. repeat split; auto.
    rewrite <- Hperm', <- !Permutation_rev, <- Hperm.
    symmetry. apply Permutation_middle.
Qed.

(** On elements where [less] is defined and a strict weak order, the sort
    returns its input rearranged in order. *)
Lemma sort_Sort_sorted (s : list A) :
  Forall P s ->
  exists r, sort_Sort less s = Ok r /\ Permutation s r /\
            StronglySorted before r.
Proof.
  intros HP.
  destruct (insertionSort_sorted s [] (Forall_nil P) HP (SSorted_nil _))
    as (r & Hr & Hperm & Hs).
  exists r. auto.
Qed.
End SortProps.

(* ================================================================== *)
(** * Properties of SortByBest and SortByOva *)

Lemma solByBest_Less_asym (a b : Solution) :
  solByBest_Less a b = true -> solByBest_Less b a = false.
Proof.
  unfold solByBest_Less. rewrite (Z.eqb_sym (FrontId b) (FrontId a)).
  destruct (Z.eqb_spec (FrontId a) (FrontId b)) as [E|E].
  - apply fgt_asym.
  - intros H. apply Z.ltb_lt in H. apply Z.ltb_ge. lia.
Qed.

Lemma solByBest_before_iff (a b : Solution) :
  crowd_set a -> crowd_set b ->
  (solByBest_Less b a = false <-> best_order a b).
Proof.
  unfold crowd_set, solByBest_Less, best_order. intros Ha Hb.
  destruct (Z.eqb_spec (FrontId b) (FrontId a)) as [E|E].
  - split.
    + intros H. split; [lia|]. intros _. apply not_fgt_fle; assumption.
    + intros [_ H]. specialize (H (eq_sym E)).
      destruct (flt (DistCrowd a) (DistCrowd b)) eqn:F; [|exact F].
      rewrite (flt_not_fle _ _ F) in H. discriminate.
  - rewrite Z.ltb_ge. split.
    + intros H. split; [lia|]. intros E'. congruence.
    + intros [H _]. exact H.
Qed.

Lemma best_order_trans (a b c : Solution) :
  best_order a b -> best_order b c -> best_order a c.
Proof.
  unfold best_order. intros [H1 H2] [H3 H4]. split; [lia|].
  intros E. assert (FrontId a = FrontId b) by lia.
  assert (FrontId b = FrontId c) by lia.
  eapply fle_trans; eauto.
Qed.

(** The comparator looks at the front and the crowding distance only. *)
Lemma solByBest_Less_reads (a b a' b' : Solution) :
  FrontId a = FrontId a' -> DistCrowd a = DistCrowd a' ->
  FrontId b = FrontId b' -> DistCrowd b = DistCrowd b' ->
  solByBest_Less a b = solByBest_Less a' b'.
Proof. unfold solByBest_Less. intros -> -> -> ->. reflexivity. Qed.

Lemma solByBest_Less_tie (a b : Solution) :
  FrontId a = FrontId b -> feq (DistCrowd a) (DistCrowd b) = true ->
  solByBest_Less a b = false /\ solByBest_Less b a = false.
Proof.
  intros E H. destruct (feq_not_fgt _ _ H) as [H1 H2].
  unfold solByBest_Less. rewrite E, Z.eqb_refl. split; assumption.
Qed.

(** Claim C8, as amended. On solutions whose crowding distances are set
    (none is NaN), [SortByBest] returns its input rearranged best first:
    nondecreasing in [FrontId] and, within one [FrontId], nonincreasing
    in [DistCrowd]. The comparator reads nothing but these two fields:
    two solutions that tie on both are not ordered by it either way,
    whatever their identifiers, and no coin is consulted. *)
Theorem SortByBest_sorts_best_first (s : list Solution) :
  Forall crowd_set s ->
  (exists r, SortByBest s = Ok r /\ Permutation s r /\
             StronglySorted best_order r) /\
  (forall a b, FrontId a = FrontId b ->
               feq (DistCrowd a) (DistCrowd b) = true ->
               solByBest_Less a b = false /\ solByBest_Less b a = false) /\
  (forall a b a' b',
     FrontId a = FrontId a' -> DistCrowd a = DistCrowd a' ->
     FrontId b = FrontId b' -> DistCrowd b = DistCrowd b' ->
     solByBest_Less a b = solByBest_Less a' b').
Proof.
  intros HP. split; [|split; [exact solByBest_Less_tie | exact solByBest_Less_reads]].
  destruct (sort_Sort_sorted (fun a b => Ok (solByBest_Less a b))
              solByBest_Less crowd_set) with (s := s)
    as (r & Hr & Hperm & Hs); auto.
  - intros a b _ _. apply solByBest_Less_asym.
  - intros a b c Ha Hb Hc. rewrite !solByBest_before_iff by assumption.
    apply best_order_trans.
  - exists r. split; [exact Hr|]. split; [exact Hperm|].
    apply (StronglySorted_weaken crowd_set
             (fun a b => solByBest_Less b a = false) best_order r).
    + intros a b Ha Hb. apply solByBest_before_iff; assumption.
    + apply (Permutation_Forall Hperm HP).
    + exact Hs.
Qed.

Lemma SortByBest_sorts_best_first_witness :
  exists r,
    SortByBest [sol prms0 1 [fone] [fzero] 1 fone fzero;
                sol prms0 2 [fone] [fzero] 0 fone fzero;
                sol prms0 3 [fone] [fzero] 0 ftwo fzero] = Ok r /\
    Permutation [sol prms0 1 [fone] [fzero] 1 fone fzero;
                 sol prms0 2 [fone] [fzero] 0 fone fzero;
                 sol prms0 3 [fone] [fzero] 0 ftwo fzero] r /\
    StronglySorted best_order r.
Proof.
  apply (SortByBest_sorts_best_first
           [sol prms0 1 [fone] [fzero] 1 fone fzero;
            sol prms0 2 [fone] [fzero] 0 fone fzero;
            sol prms0 3 [fone] [fzero] 0 ftwo fzero]).
  repeat constructor.
Defined.

(** Claim C8 fails as stated: two solutions that tie on front and
    crowding distance are not ordered by the comparator, and the sort
    leaves identifier 2 before identifier 1; no order on the identifiers
    is established. *)
Lemma SortByBest_ignores_id :
  Id (sol prms0 1 [fone] [fzero] 0 fone fzero) <
  Id (sol prms0 2 [fone] [fzero] 0 fone fzero) /\
  solByBest_Less (sol prms0 1 [fone] [fzero] 0 fone fzero)
                 (sol prms0 2 [fone] [fzero] 0 fone fzero) = false /\
  solByBest_Less (sol prms0 2 [fone] [fzero] 0 fone fzero)
                 (sol prms0 1 [fone] [fzero] 0 fone fzero) = false /\
  SortByBest [sol prms0 2 [fone] [fzero] 0 fone fzero;
              sol prms0 1 [fone] [fzero] 0 fone fzero]
  = Ok [sol prms0 2 [fone] [fzero] 0 fone fzero;
        sol prms0 1 [fone] [fzero] 0 fone fzero].
Proof. repeat split; reflexivity. Qed.

(** Three solutions given worst first come out best first. *)
Example SortByBest_example :
  SortByBest [sol prms0 1 [fone] [fzero] 1 fpinf fzero;
              sol prms0 2 [fone] [fzero] 0 fone fzero;
              sol prms0 3 [fone] [fzero] 0 fpinf fzero]
  = Ok [sol prms0 3 [fone] [fzero] 0 fpinf fzero;
        sol prms0 2 [fone] [fzero] 0 fone fzero;
        sol prms0 1 [fone] [fzero] 1 fpinf fzero].
Proof. reflexivity. Qed.

(** ** SortByOva *)




Example SortByOva_examples :
  SortByOva [sol prms0 1 [ftwo; fzero] [fzero] 0 fzero fzero;
             sol prms0 2 [fone; fone] [fzero] 0 fzero fzero] 0
  = Ok [sol prms0 2 [fone; fone] [fzero] 0 fzero fzero;
        sol prms0 1 [ftwo; fzero] [fzero] 0 fzero fzero] /\
  SortByOva [sol prms0 1 [ftwo; fzero] [fzero] 0 fzero fzero;
             sol prms0 2 [fone; fone] [fzero] 0 fzero fzero] 1
  = Ok [sol prms0 1 [ftwo; fzero] [fzero] 0 fzero fzero;
        sol prms0 2 [fone; fone] [fzero] 0 fzero fzero] /\
  failed (SortByOva [sol prms0 1 [ftwo; fzero] [fzero] 0 fzero fzero;
                     sol prms0 2 [fone; fone] [fzero] 0 fzero fzero] 3) /\
  failed (SortByOva [sol prms0 1 [ftwo; fzero] [fzero] 0 fzero fzero;
                     sol prms0 2 [fone; fone] [fzero] 0 fzero fzero] 2).
Proof. repeat split; reflexivity || exact I. Qed.


Section SortReads.
Context {A : Type}.
Variable less : A -> A -> result bool.
Variable R : A -> Prop.
Hypothesis less_reads : forall a b c, less a b = Ok c -> R a /\ R b.



End SortReads.




(* ================================================================== *)
(** * Properties of FilterPairs *)

Lemma first_other_all_equal (aux : list Z) (a b : Z) :
  Forall (eq a) aux -> first_other aux a b = b.
Proof.
  induction aux as [|s aux IH]; simpl; intros H; [reflexivity|].
  inversion H as [|? ? Hs Haux]; subst.
  rewrite Z.eqb_refl. simpl. apply IH. exact Haux.
Qed.

(** The replacement is the first index of the pool that differs from
    [a], when there is one. *)
Lemma first_other_found (aux : list Z) (a b : Z) :
  Exists (fun s => s <> a) aux ->
  first_other aux a b <> a /\ In (first_other aux a b) aux.
Proof.
  induction aux as [|s aux IH]; simpl; intros H; [inversion H|].
  destruct (Z.eqb_spec s a) as [E|E]; simpl.
  - inversion H as [? ? Hs | ? ? Haux]; subst; [contradiction|].
    destruct (IH Haux) as [H1 H2]. auto.
  - auto.
Qed.

Lemma index_In {A} (s : list A) (i : Z) (x : A) : index s i = Ok x -> In x s.
Proof.
  unfold index. destruct (i <? 0); [discriminate|].
  destruct (nth_error s (Z.to_nat i)) eqn:E; [|discriminate].
  intros H. injection H as <-. eapply nth_error_In. exact E.
Qed.

Section FilterPairsProps.
Variable shuffle : nat -> list Z -> list Z.
Hypothesis shuffle_perm : forall k l, Permutation l (shuffle k l).

(** When all selected indices are one and the same, no shuffle can
    provide a replacement: the loop does what it does with the identity
    for a shuffle. *)
Lemma FilterPairs_loop_all_equal (a : Z) (selinds : list Z) :
  Forall (eq a) selinds ->
  forall n i A B aux aux' k k',
    Forall (eq a) aux -> Forall (eq a) aux' ->
    FilterPairs_loop shuffle n i selinds A B aux k =
    FilterPairs_loop (fun _ l => l) n i selinds A B aux' k'.
Proof.
  intros Hsel. induction n as [|n IH]; intros i A B aux aux' k k' Haux Haux';
    cbn [FilterPairs_loop]; [reflexivity|].
  destruct (index selinds (2 * i)) as [x|m] eqn:Ex; cbn [bind]; [|reflexivity].
  destruct (index selinds (2 * i + 1)) as [y|m] eqn:Ey; cbn [bind]; [|reflexivity].
  rewrite Forall_forall in Hsel.
  rewrite <- (Hsel x (index_In _ _ _ Ex)), <- (Hsel y (index_In _ _ _ Ey)).
  rewrite Z.eqb_refl.
  assert (Hnew : Forall (eq a)
                   (if len aux =? 0 then shuffle k selinds else shuffle k aux)).
  { destruct (len aux =? 0);
      eapply Permutation_Forall; try apply shuffle_perm;
      [apply Forall_forall; exact Hsel | exact Haux]. }
  assert (Hnew' : Forall (eq a) (if len aux' =? 0 then selinds else aux')).
  { destruct (len aux' =? 0); [apply Forall_forall; exact Hsel | exact Haux']. }
  rewrite !first_other_all_equal by assumption.
  destruct (store A i a) as [A'|m]; cbn [bind]; [|reflexivity].
  destruct (store B i a) as [B'|m]; cbn [bind]; [|reflexivity].
  apply IH; assumption.
Qed.

Lemma FilterPairs_all_equal (a : Z) (A B selinds : list Z) :
  Forall (eq a) selinds ->
  FilterPairs shuffle A B selinds = FilterPairs (fun _ l => l) A B selinds.
Proof.
  intros Hsel. unfold FilterPairs.
  destruct (IntAssert (len A) (Z.quot (len selinds) 2)); simpl; [|reflexivity].
  destruct (IntAssert (len B) (Z.quot (len selinds) 2)); simpl; [|reflexivity].
  apply (FilterPairs_loop_all_equal a); auto.
Qed.
End FilterPairsProps.

(** ** What FilterPairs returns in general *)

Lemma set_nth_ok {A} (s : list A) (n : nat) (v : A) :
  (n < length s)%nat ->
  exists s', set_nth s n v = Some s' /\ length s' = length s /\
             nth_error s' n = Some v /\
             forall j, j <> n -> nth_error s' j = nth_error s j.
Proof.
  revert n. induction s as [|h s IH]; intros [|n] Hn; simpl in *; try lia.
  - exists (v :: s). repeat split. intros [|j] Hj; [lia | reflexivity].
  - destruct (IH n) as (s' & Hs & Hlen & Hv & Hother); [lia|].
    rewrite Hs. simpl. exists (h :: s'). repeat split; simpl; auto.
    intros [|j] Hj; [reflexivity | apply Hother; lia].
Qed.

Lemma store_ok {A} (s : list A) (i : Z) (v : A) :
  0 <= i -> (Z.to_nat i < length s)%nat ->
  exists s', store s i v = Ok s' /\ length s' = length s /\
             nth_error s' (Z.to_nat i) = Some v /\
             forall j, j <> Z.to_nat i -> nth_error s' j = nth_error s j.
Proof.
  intros Hi Hlen. unfold store. destruct (Z.ltb_spec i 0) as [Hneg|_]; [lia|].
  destruct (set_nth_ok s (Z.to_nat i) v Hlen) as (s' & Hs & Hrest).
  rewrite Hs. exists s'. split; [reflexivity | exact Hrest].
Qed.

Lemma index_ok {A} (s : list A) (i : Z) :
  0 <= i -> (Z.to_nat i < length s)%nat ->
  exists x, index s i = Ok x /\ nth_error s (Z.to_nat i) = Some x.
Proof.
  intros Hi Hlen. unfold index. destruct (Z.ltb_spec i 0) as [Hneg|_]; [lia|].
  destruct (nth_error s (Z.to_nat i)) as [x|] eqn:E.
  - exists x. auto.
  - apply nth_error_None in E. lia.
Qed.

Section FilterPairsSpec.
Variable shuffle : nat -> list Z -> list Z.
Hypothesis shuffle_perm : forall k l, Permutation l (shuffle k l).

Lemma FilterPairs_loop_spec (selinds : list Z) (n : nat) :
  forall i A B aux k,
    0 <= i ->
    (Z.to_nat i + n <= length A)%nat ->
    (Z.to_nat i + n <= length B)%nat ->
    (2 * (Z.to_nat i + n) <= length selinds)%nat ->
    aux = [] \/ Permutation selinds aux ->
    exists A' B',
      FilterPairs_loop shuffle n i selinds A B aux k = Ok (A', B') /\
      length A' = length A /\ length B' = length B /\
      (forall j, (Z.to_nat i <= j < Z.to_nat i + n)%nat ->
                 exists a b, nth_error A' j = Some a /\
                             nth_error B' j = Some b /\
                             pair_ok selinds j a b) /\
      (forall j, (j < Z.to_nat i)%nat ->
                 nth_error A' j = nth_error A j /\
                 nth_error B' j = nth_error B j).
Proof.
  induction n as [|n IH]; intros i A B aux k Hi HA HB Hsel Haux;
    cbn [FilterPairs_loop].
  - exists A, B. repeat split; auto. intros j Hj. lia.
  - destruct (index_ok selinds (2 * i)) as (a & Ea & Na); [lia | lia |].
    destruct (index_ok selinds (2 * i + 1)) as (b0 & Eb & Nb); [lia | lia |].
    rewrite Ea. cbn [bind]. rewrite Eb. cbn [bind].
    replace (Z.to_nat (2 * i)) with (2 * Z.to_nat i)%nat in Na by lia.
    replace (Z.to_nat (2 * i + 1)) with (2 * Z.to_nat i + 1)%nat in Nb by lia.
    set (aux1 := if len aux =? 0 then shuffle k selinds else shuffle k aux).
    assert (Haux1 : Permutation selinds aux1).
    { unfold aux1. destruct (Z.eqb_spec (len aux) 0) as [E|E].
      - apply shuffle_perm.
      - destruct Haux as [-> | Haux]; [exfalso; apply E; reflexivity|].
        rewrite Haux at 1. apply shuffle_perm. }
    set (st := if a =? b0 then (aux1, S k, first_other aux1 a b0)
               else (aux, k, b0)).
    assert (Hst : (fst (fst st) = [] \/ Permutation selinds (fst (fst st))) /\
                  pair_ok selinds (Z.to_nat i) a (snd st)).
    { unfold st, pair_ok. destruct (Z.eqb_spec a b0) as [E|E]; simpl.
      - split; [right; exact Haux1|].
        split; [exact Na|]. exists b0. split; [exact Nb|].
        split; [intros; contradiction|]. split.
        + intros _ Hex.
          destruct (first_other_found aux1 a b0) as [H1 H2].
          { apply Exists_exists in Hex as (s & Hin & Hs).
            apply Exists_exists. exists s. split; [|exact Hs].
            eapply Permutation_in; eauto. }
          split; [exact H1|].
          eapply Permutation_in; [symmetry; exact Haux1 | exact H2].
        + intros _ Hall. rewrite first_other_all_equal; [congruence|].
          eapply Permutation_Forall; eauto.
      - split; [exact Haux|].
        split; [exact Na|]. exists b0. split; [exact Nb|].
        split; [reflexivity|]. split; intros; contradiction. }
    destruct st as [[aux2 k2] b]. simpl in Hst. destruct Hst as [Haux2 Hpair].
    destruct (store_ok A i a) as (A1 & EA & LA & VA & OA); [lia | lia |].
    destruct (store_ok B i b) as (B1 & EB & LB & VB & OB); [lia | lia |].
    rewrite EA. cbn [bind]. rewrite EB. cbn [bind].
    destruct (IH (i + 1) A1 B1 aux2 k2) as (A' & B' & Hr & LA' & LB' & Hnew & Hold);
      try lia; try assumption.
    exists A', B'. split; [exact Hr|].
    split; [congruence|]. split; [congruence|]. split.
    + intros j Hj. destruct (Nat.eq_dec j (Z.to_nat i)) as [-> | Hne].
      * exists a, b. destruct (Hold (Z.to_nat i)) as [H1 H2]; [lia|].
        rewrite H1, H2. auto.
      * apply Hnew. lia.
    + intros j Hj. destruct (Hold j) as [H1 H2]; [lia|].
      rewrite H1, H2. split; [apply OA | apply OB]; lia.
Qed.

(** With [A] and [B] of length [n/2], [FilterPairs] fills every pair
    [i]: [A[i]] is [selinds[2i]]; [B[i]] is [selinds[2i+1]] when the two
    differ; on a collision [B[i]] is another of the selected indices if
    there is one, and the same parent again if there is none. *)
Lemma FilterPairs_spec (A B selinds : list Z) :
  length A = Nat.div2 (length selinds) ->
  length B = Nat.div2 (length selinds) ->
  exists A' B',
    FilterPairs shuffle A B selinds = Ok (A', B') /\
    length A' = length A /\ length B' = length B /\
    forall j, (j < Nat.div2 (length selinds))%nat ->
              exists a b, nth_error A' j = Some a /\ nth_error B' j = Some b /\
                          pair_ok selinds j a b.
Proof.
  intros HA HB. unfold FilterPairs, IntAssert.
  assert (Hq : Z.quot (len selinds) 2 = Z.of_nat (Nat.div2 (length selinds))).
  { unfold len. rewrite Z.quot_div_nonneg by lia.
    rewrite Nat.div2_div, Nat2Z.inj_div. reflexivity. }
  rewrite Hq. unfold len. rewrite HA, HB, Z.eqb_refl. cbn [bind].
  rewrite Nat2Z.id.
  pose proof (Nat.div2_odd (length selinds)) as Hodd.
  assert (Hle : (2 * Nat.div2 (length selinds) <= length selinds)%nat)
    by (destruct (Nat.odd (length selinds)); simpl in Hodd; lia).
  destruct (FilterPairs_loop_spec selinds (Nat.div2 (length selinds)) 0 A B [] 0%nat)
    as (A' & B' & Hr & LA & LB & Hnew & _); simpl; try lia; auto.
  exists A', B'. split; [exact Hr|].
  split; [congruence|]. split; [congruence|].
  intros j Hj. apply Hnew. simpl. lia.
Qed.
End FilterPairsSpec.

(** Claim C7, evaluated where the code departs from it. When the six
    selected indices are all 0 (a selection that one dominant individual
    produces), every pair puts parent 0 with itself, whatever the shuffles
    return. *)
Theorem FilterPairs_pairs_parent_with_itself (shuffle : nat -> list Z -> list Z) :
  (forall k l, Permutation l (shuffle k l)) ->
  FilterPairs shuffle [7; 7; 7] [7; 7; 7] [0; 0; 0; 0; 0; 0]
  = Ok ([0; 0; 0], [0; 0; 0]).
Proof.
  intros Hperm.
  rewrite (FilterPairs_all_equal shuffle Hperm 0) by (repeat constructor).
  reflexivity.
Qed.

Lemma FilterPairs_pairs_parent_with_itself_witness :
  FilterPairs (fun _ l => rev l) [7; 7; 7] [7; 7; 7] [0; 0; 0; 0; 0; 0]
  = Ok ([0; 0; 0], [0; 0; 0]).
Proof.
  apply (FilterPairs_pairs_parent_with_itself (fun _ l => rev l)).
  intros k l. apply Permutation_rev.
Defined.

(** A collision that the pool can repair is repaired: here the second
    pair (1, 1) gets the first index other than 1 of the shuffled
    pool. *)
Example FilterPairs_repairs_collision :
  FilterPairs (fun _ l => rev l) [7; 7] [7; 7] [0; 2; 1; 1] = Ok ([0; 1], [2; 2]).
Proof. reflexivity. Qed.

(* ================================================================== *)
(** * The demerits of a multi-objective population *)

(** With more than one objective the demerit of a feasible individual is
    its front index, whatever the shift of the infeasible ones. *)
Lemma demerit_base_multi (conf : ConfParams) (sovas : list (list float64))
  (i : Z) (ind : Individual) :
  1 < cNova conf ->
  exists ind', demerit_base conf sovas i ind = Ok ind' /\
               Demerit ind' = float64_of_int (iFrontId ind).
Proof.
  intros H. unfold demerit_base.
  destruct (Z.gtb_spec (cNova conf) 1); [|lia].
  eexists. split; reflexivity.
Qed.

(** Claim C3, evaluated where the code departs from it. With two
    objectives, the feasible individual of the fifth front gets demerit 4
    and the infeasible individual gets demerit 2 + 1 = 3: the infeasible
    one has the smaller demerit and is sorted ahead of a feasible one. *)
Theorem demerit_shift_below_front_index :
  demerit_table (CalcDemerits island6 pop6) =
    [(0, true, 0, float64_of_int 0); (1, true, 1, float64_of_int 1);
     (2, true, 2, float64_of_int 2); (3, true, 3, float64_of_int 3);
     (4, true, 4, float64_of_int 4); (5, false, 5, float64_of_int 3)] /\
  demerit_table (CalcDemeritsCdistAndSort island6 pop6) =
    [(0, true, 0, float64_of_int 0); (1, true, 1, float64_of_int 1);
     (2, true, 2, float64_of_int 2); (3, true, 3, float64_of_int 3);
     (5, false, 5, float64_of_int 3); (4, true, 4, float64_of_int 4)] /\
  flt (float64_of_int 3) (float64_of_int 4) = true.
Proof. split; [|split]; vm_compute; reflexivity. Qed.

(** With one objective the same kind of population is ranked as the
    claim says: the scaled objective stays below the shift. *)
Example demerit_single_objective :
  demerit_table
    (CalcDemeritsCdistAndSort
       {| oId := 0;
          C := {| cNova := 1; cNoor := 1; Ninds := 4; CompProb := false;
                  ParetoPhi := fzero; CdistOff := false;
                  OvaOor := fun ind _ _ => ind |};
          intmin := []; intmax := []; fltmin := [fzero]; fltmax := [fzero];
          ovamin := [fzero]; ovamax := [fzero];
          oormin := [fzero]; oormax := [fzero];
          ovas := [repeat fzero 4]; oors := [repeat fzero 4];
          sovas := [repeat fzero 4]; soors := [repeat fzero 4];
          Nfeval := 0 |}
       [indiv 0 [float64_of_int 8] [fone]; indiv 1 [float64_of_int 4] [fzero];
        indiv 2 [float64_of_int 0] [fzero]; indiv 3 [float64_of_int 6] [ftwo]])
  = [(2, true, 0, fzero); (1, true, 1, fhalf);
     (0, false, 2, S754_finite false 5629499534213120 (-51));
     (3, false, 3, float64_of_int 3)].
Proof. vm_compute. reflexivity. Qed.


(* ================================================================== *)
(** * Further properties of the parameters *)

Lemma fle_refl (x : float64) : is_nan x = false -> fle x x = true.
Proof.
  intros H. apply fle_key. repeat split; auto.
  unfold lex3_le, lex3. destruct (float_key x) as [[a b] c].
  rewrite !Z.compare_refl. discriminate.
Qed.

Lemma fle_not_nan (x y : float64) :
  fle x y = true -> is_nan x = false /\ is_nan y = false.
Proof. intros H. apply fle_key in H as (Hx & Hy & _). auto. Qed.

Lemma fle_not_flt (x y : float64) : fle x y = true -> flt y x = false.
Proof.
  intros H. destruct (flt y x) eqn:E; [|reflexivity].
  rewrite (flt_not_fle _ _ E) in H. discriminate.
Qed.

(** X1. [EnforceRange] clamps: with bounds [lo <= hi] at index [i], a
    value that is a number comes back inside [[lo, hi]], unchanged when
    it was inside already, and enforcing the range again changes nothing;
    a NaN comes back as it is. *)
Theorem EnforceRange_clamps (o : Parameters) (i : Z) (x lo hi : float64) :
  index (FltMin o) i = Ok lo ->
  index (FltMax o) i = Ok hi ->
  fle lo hi = true ->
  (is_nan x = false ->
   exists r, EnforceRange o i x = Ok r /\
             fle lo r = true /\ fle r hi = true /\
             (fle lo x = true -> fle x hi = true -> r = x) /\
             EnforceRange o i r = Ok r) /\
  (is_nan x = true -> EnforceRange o i x = Ok x).
Proof.
  intros Hlo Hhi Hle. destruct (fle_not_nan _ _ Hle) as [Nlo Nhi].
  pose proof (fle_not_flt _ _ Hle) as Hhl.
  unfold EnforceRange. rewrite Hlo. cbn [bind]. rewrite Hhi. cbn [bind].
  split.
  - intros Nx. destruct (flt x lo) eqn:E1.
    + exists lo. split; [reflexivity|]. split; [apply fle_refl; assumption|].
      split; [assumption|]. split.
      * intros H _. rewrite (fle_not_flt _ _ H) in E1. discriminate.
      * change (fgt lo hi) with (flt hi lo). rewrite Hhl.
        destruct (flt lo lo) eqn:E; [|reflexivity].
        pose proof (flt_asym _ _ E). congruence.
    + destruct (fgt x hi) eqn:E2.
      * exists hi. split; [reflexivity|]. split; [assumption|].
        split; [apply fle_refl; assumption|]. split.
        -- intros _ H. change (fgt x hi) with (flt hi x) in E2.
           rewrite (fle_not_flt _ _ H) in E2. discriminate.
        -- rewrite Hhl.
           destruct (fgt hi hi) eqn:E; [|reflexivity].
           pose proof (fgt_asym _ _ E). congruence.
      * exists x. split; [reflexivity|].
        split; [apply not_flt_fle; assumption|].
        split; [apply not_fgt_fle; assumption|].
        split; [reflexivity|]. rewrite E1, E2. reflexivity.
  - intros Nx. destruct x; try discriminate.
    unfold flt, fgt. destruct lo, hi; reflexivity.
Qed.

Lemma EnforceRange_clamps_witness :
  exists r, EnforceRange prms0 0 ftwo = Ok r /\
            fle fzero r = true /\ fle r fone = true /\
            (fle fzero ftwo = true -> fle ftwo fone = true -> r = ftwo) /\
            EnforceRange prms0 0 r = Ok r.
Proof.
  apply (EnforceRange_clamps prms0 0 ftwo fzero fone); reflexivity.
Defined.

Example EnforceRange_examples :
  EnforceRange prms0 0 ftwo = Ok fone /\
  EnforceRange prms0 1 fhalf = Ok fhalf /\
  EnforceRange prms0 0 fnan = Ok fnan /\
  failed (EnforceRange prms0 2 fhalf).
Proof. repeat split; reflexivity || exact I. Qed.


(** What [CalcDerived] returns when it succeeds, field by field. *)
Lemma CalcDerived_ok_inv (o o' : Parameters) :
  CalcDerived o = Ok o' ->
  1 <= Nova o /\ 6 <= Nsol o /\
  exists delflt delint,
    derive_ranges (FltMin o) (FltMax o) (IntMin o) (IntMax o)
      = Ok (len (FltMin o), len (IntMin o), delflt, delint) /\
    o' = {| Nova := Nova o; Noor := Noor o; Nsol := Nsol o;
            Ncpu := if Ncpu o <? 2 then 1 else Ncpu o;
            Tf := if Tf o <? 1 then 1 else Tf o;
            DtExc := if Ncpu o <? 2 then 1
                     else if DtExc o <? 1 then 1 else DtExc o;
            DtOut := DtOut o;
            Pll := if Ncpu o <? 2 then false else Pll o;
            Seed := Seed o; LatinDup := LatinDup o;
            EpsMinProb := EpsMinProb o; Verbose := Verbose o;
            Problem := Problem o; GenAll := GenAll o; Ntrials := Ntrials o;
            DEuseC := DEuseC o; DEpm := DEpm o; DEpc := DEpc o;
            DEmult := DEmult o; DebEtac := DebEtac o; DebEtam := DebEtam o;
            PmFlt := PmFlt o; PmInt := PmInt o;
            FltMin := FltMin o; FltMax := FltMax o;
            IntMin := IntMin o; IntMax := IntMax o;
            Nflt := len (FltMin o); Nint := len (IntMin o);
            DelFlt := delflt; DelInt := delint;
            use_exchange_via_tournament := use_exchange_via_tournament o;
            use_exchange_one_randomly := use_exchange_one_randomly o;
            use_solution_absdistance := use_solution_absdistance o;
            use_solution_comparedneigh := use_solution_comparedneigh o;
            use_solution_frontcomparison := use_solution_frontcomparison o;
            use_solution_distneighfight := use_solution_distneighfight o |} /\
    (if Ncpu o <? 2 then 1 else Ncpu o) <= Z.quot (Nsol o) 2.
Proof.
  unfold CalcDerived.
  destruct (Z.ltb_spec (Nova o) 1) as [Hnova|Hnova]; [discriminate|].
  destruct (Z.ltb_spec (Nsol o) 6) as [Hnsol|Hnsol]; [discriminate|].
  destruct (derive_ranges_spec (FltMin o) (FltMax o) (IntMin o) (IntMax o))
    as [_ Hok].
  destruct (Z.ltb_spec (Ncpu o) 2) as [Hcpu|Hcpu].
  - destruct (Z.gtb_spec 1 (Z.quot (Nsol o) 2)) as [Hgt|Hle]; [discriminate|].
    destruct (derive_ranges (FltMin o) (FltMax o) (IntMin o) (IntMax o))
      as [[[[nflt nint] delflt] delint]|m]; [|discriminate].
    destruct (Hok _ _ _ _ eq_refl) as (-> & -> & _).
    simpl. intros H. injection H as <-.
    split; [lia|]. split; [lia|]. exists delflt, delint.
    split; [reflexivity|]. split; [reflexivity | lia].
  - destruct (Z.gtb_spec (Ncpu o) (Z.quot (Nsol o) 2)) as [Hgt|Hle];
      [discriminate|].
    destruct (derive_ranges (FltMin o) (FltMax o) (IntMin o) (IntMax o))
      as [[[[nflt nint] delflt] delint]|m]; [|discriminate].
    destruct (Hok _ _ _ _ eq_refl) as (-> & -> & _).
    simpl. intros H. injection H as <-.
    split; [lia|]. split; [lia|]. exists delflt, delint.
    split; [reflexivity|]. split; [reflexivity | lia].
Qed.

(** X2. An accepted configuration comes back normalised: at least one
    objective and six solutions, between 1 and [Nsol/2] CPUs, final time
    and exchange interval at least 1, the numbers of floats and integers
    those of the bounds with at least one of them; fewer than two CPUs
    means one CPU, no parallel run and an exchange at every step; the
    sizes and bounds given are not changed. *)
Theorem CalcDerived_normalises (o o' : Parameters) :
  CalcDerived o = Ok o' ->
  1 <= Nova o' /\ 6 <= Nsol o' /\
  1 <= Ncpu o' <= Z.quot (Nsol o') 2 /\
  1 <= Tf o' /\ 1 <= DtExc o' /\
  Nflt o' = len (FltMin o') /\ Nint o' = len (IntMin o') /\
  0 < Nflt o' + Nint o' /\
  len (DelFlt o') = Nflt o' /\ len (DelInt o') = Nint o' /\
  (Ncpu o < 2 -> Ncpu o' = 1 /\ Pll o' = false /\ DtExc o' = 1) /\
  (2 <= Ncpu o -> Ncpu o' = Ncpu o /\ Pll o' = Pll o) /\
  Nova o' = Nova o /\ Noor o' = Noor o /\ Nsol o' = Nsol o /\
  FltMin o' = FltMin o /\ FltMax o' = FltMax o /\
  IntMin o' = IntMin o /\ IntMax o' = IntMax o.
Proof.
  intros H.
  destruct (CalcDerived_ok_inv o o' H)
    as (Hnova & Hnsol & delflt & delint & Hd & -> & Hcpu).
  destruct (derive_ranges_spec (FltMin o) (FltMax o) (IntMin o) (IntMax o))
    as [Hfail Hok].
  destruct (Hok _ _ _ _ Hd) as (_ & _ & Hlf & Hli & _).
  assert (Hsome : ~ bounds_bad (FltMin o) (FltMax o) (IntMin o) (IntMax o)).
  { intros Hbad. apply Hfail in Hbad. rewrite Hd in Hbad. exact Hbad. }
  simpl. unfold len in *.
  assert (Hpos : 0 < Z.of_nat (length (FltMin o)) + Z.of_nat (length (IntMin o))).
  { destruct (FltMin o) eqn:Ef, (IntMin o) eqn:Ei; simpl; try lia.
    exfalso. apply Hsome. left. auto. }
  destruct (Z.ltb_spec (Ncpu o) 2), (Z.ltb_spec (Tf o) 1),
    (Z.ltb_spec (DtExc o) 1); repeat split; try lia; try congruence.
Qed.

Lemma CalcDerived_normalises_witness :
  1 <= Nova prms_derived /\ 6 <= Nsol prms_derived /\
  1 <= Ncpu prms_derived <= Z.quot (Nsol prms_derived) 2 /\
  1 <= Tf prms_derived /\ 1 <= DtExc prms_derived /\
  Nflt prms_derived = len (FltMin prms_derived) /\
  Nint prms_derived = len (IntMin prms_derived).
Proof.
  destruct (CalcDerived_normalises (prms_sized 1 6 1) prms_derived eq_refl)
    as (H1 & H2 & H3 & H4 & H5 & H6 & H7 & _).
  repeat split; assumption || apply H3.
Defined.

(** X3. [CalcDerived] is idempotent: deriving again from a configuration
    it returned returns the same configuration. *)
Theorem CalcDerived_idempotent (o o' : Parameters) :
  CalcDerived o = Ok o' -> CalcDerived o' = Ok o'.
Proof.
  intros H.
  destruct (CalcDerived_ok_inv o o' H)
    as (Hnova & Hnsol & delflt & delint & Hd & -> & Hcpu).
  clear H. unfold CalcDerived.
  destruct (Z.ltb_spec (Ncpu o) 2) as [Hc|Hc],
    (Z.ltb_spec (Tf o) 1) as [Ht|Ht], (Z.ltb_spec (DtExc o) 1) as [He|He];
    cbn [Nova Nsol Ncpu Tf DtExc Pll FltMin FltMax IntMin IntMax];
    rewrite Hd; cbn [bind];
    repeat match goal with
    | |- context [?a <? ?b] => destruct (Z.ltb_spec a b); try lia
    | |- context [?a >? ?b] => destruct (Z.gtb_spec a b); try lia
    end; reflexivity.
Qed.

Lemma CalcDerived_idempotent_witness :
  CalcDerived prms_derived = Ok prms_derived.
Proof.
  apply (CalcDerived_idempotent (prms_sized 1 6 1) prms_derived).
  reflexivity.
Defined.

(** X4. The defaults are a valid configuration as soon as usable bounds
    are given: [CalcDerived] accepts them and keeps 1 objective, 40
    solutions, 4 CPUs, the parallel run, 100 generations and an exchange
    every 10; without usable bounds it refuses them. *)
Theorem Default_is_accepted (o : Parameters) :
  (~ bounds_bad (FltMin o) (FltMax o) (IntMin o) (IntMax o) ->
   exists o', CalcDerived (Default o) = Ok o' /\
              Nova o' = 1 /\ Nsol o' = 40 /\ Ncpu o' = 4 /\ Pll o' = true /\
              Tf o' = 100 /\ DtExc o' = 10 /\ DtOut o' = 20) /\
  (bounds_bad (FltMin o) (FltMax o) (IntMin o) (IntMax o) ->
   failed (CalcDerived (Default o))).
Proof.
  destruct (CalcDerived_spec (Default o)) as [Hfail _].
  split.
  - intros Hb.
    destruct (CalcDerived (Default o)) as [o'|m] eqn:E.
    + exists o'. split; [reflexivity|].
      destruct (CalcDerived_ok_inv _ _ E) as (_ & _ & df & di & _ & -> & _).
      simpl. repeat split; reflexivity.
    + exfalso. destruct (proj1 Hfail I) as [H | [H | [H | H]]];
        simpl in H; try lia; try contradiction.
      revert H. vm_compute. discriminate.
  - intros Hb. apply Hfail. do 3 right. exact Hb.
Qed.


(* ================================================================== *)
(** * Further properties of the comparison and of the fight *)

Lemma DblsParetoMin_swap (u v : list float64) :
  DblsParetoMin v u = swap_verdict (DblsParetoMin u v).
Proof.
  unfold DblsParetoMin, IntAssert. rewrite (Z.eqb_sym (len v) (len u)).
  destruct (len u =? len v); reflexivity.
Qed.

Lemma Compare_body_swap (A B : Solution) :
  length (Oor A) = length (Oor B) ->
  Compare_body B A = swap_verdict (Compare_body A B).
Proof.
  intros Hlen. unfold Compare_body.
  rewrite (count_violations_eq _ _ 0 0 Hlen).
  rewrite (count_violations_eq _ _ 0 0 (eq_sym Hlen)).
  cbn [bind Z.add].
  rewrite (DblsParetoMin_swap (Oor A) (Oor B)), (DblsParetoMin_swap (Ova A) (Ova B)).
  destruct (Z.gtb_spec (nviolations (Oor A)) 0),
    (Z.gtb_spec (nviolations (Oor B)) 0); try reflexivity.
  destruct (Z.ltb_spec (nviolations (Oor A)) (nviolations (Oor B))),
    (Z.ltb_spec (nviolations (Oor B)) (nviolations (Oor A)));
    try lia; try reflexivity.
  destruct (DblsParetoMin (Oor A) (Oor B)) as [[a b]|m]; [|reflexivity].
  cbn [swap_verdict bind]. rewrite (andb_comm (negb b) (negb a)).
  destruct (negb a && negb b); reflexivity.
Qed.

(** X5. Exchanging the two solutions exchanges the two verdicts: with
    penalty vectors of one length and the same setting of the
    neighbour-distance comparison flag on both sides, [B.Compare(A)]
    returns [(B_dominates, A_dominates)] of [A.Compare(B)], and panics
    exactly when it does. *)
Theorem Compare_swap (A B : Solution) :
  length (Oor A) = length (Oor B) ->
  use_solution_comparedneigh (prms A) = use_solution_comparedneigh (prms B) ->
  Compare B A = swap_verdict (Compare A B).
Proof.
  intros Hlen Hflag. unfold Compare.
  rewrite (Compare_body_swap A B Hlen), <- Hflag.
  destruct (Compare_body A B) as [[a b]|m]; [|reflexivity].
  cbn [swap_verdict bind].
  destruct (use_solution_comparedneigh (prms A)); reflexivity.
Qed.

Lemma Compare_swap_witness :
  Compare (sol prms0 2 [ftwo] [fzero] 0 fzero fzero)
          (sol prms0 1 [fone] [fone] 0 fzero fone)
  = swap_verdict (Compare (sol prms0 1 [fone] [fone] 0 fzero fone)
                          (sol prms0 2 [ftwo] [fzero] 0 fzero fzero)).
Proof.
  apply (Compare_swap (sol prms0 1 [fone] [fone] 0 fzero fone)
                      (sol prms0 2 [ftwo] [fzero] 0 fzero fzero));
    reflexivity.
Defined.

Lemma flt_irrefl (x : float64) : flt x x = false.
Proof.
  destruct (flt x x) eqn:E; [|reflexivity].
  pose proof (flt_asym _ _ E). congruence.
Qed.

Lemma one_less_irrefl (u : list float64) : one_less u u = false.
Proof.
  induction u as [|x u IH]; simpl; [reflexivity|].
  rewrite flt_irrefl, IH. reflexivity.
Qed.

Lemma Compare_body_self (A : Solution) : Compare_body A A = Ok (false, false).
Proof.
  unfold Compare_body. rewrite (count_violations_eq _ _ 0 0 eq_refl).
  cbn [bind Z.add]. unfold DblsParetoMin, IntAssert.
  rewrite !Z.eqb_refl. cbn [bind]. rewrite !one_less_irrefl, !andb_false_r.
  rewrite Z.ltb_irrefl.
  destruct (nviolations (Oor A) >? 0); reflexivity.
Qed.

(** X6. No solution dominates itself: comparing a solution with itself
    returns no domination on either side, whatever its flags and
    values. *)
Theorem Compare_self (A : Solution) : Compare A A = Ok (false, false).
Proof.
  unfold Compare. rewrite Compare_body_self. cbn [bind].
  change (fgt (DistNeigh A) (DistNeigh A)) with (flt (DistNeigh A) (DistNeigh A)).
  rewrite flt_irrefl.
  destruct (use_solution_comparedneigh (prms A)); reflexivity.
Qed.

(** X7. A feasible solution wins every fight against an infeasible one
    (neighbour-distance comparison off, penalty vectors of one length):
    the fight is decided for it from either side, with no coin and
    whatever the objective values, fronts and distances. *)
Theorem Fight_feasible_beats_infeasible (A B : Solution) :
  use_solution_comparedneigh (prms A) = false ->
  use_solution_comparedneigh (prms B) = false ->
  length (Oor A) = length (Oor B) ->
  nviolations (Oor A) = 0 ->
  0 < nviolations (Oor B) ->
  Fight A B = Ok (Decided true) /\ Fight B A = Ok (Decided false).
Proof.
  intros Hflag HflagB Hlen HA HB.
  assert (Hbody : Compare_body A B = Ok (true, false)).
  { unfold Compare_body. rewrite (count_violations_eq _ _ 0 0 Hlen).
    cbn [bind Z.add]. rewrite HA.
    destruct (Z.gtb_spec (nviolations (Oor B)) 0); [reflexivity | lia]. }
  split.
  - unfold Fight. rewrite (Compare_flag_off A B Hflag), Hbody. reflexivity.
  - unfold Fight. rewrite (Compare_flag_off B A HflagB),
      (Compare_body_swap A B Hlen), Hbody. reflexivity.
Qed.

Lemma Fight_feasible_beats_infeasible_witness :
  Fight (sol prms0 1 [ftwo] [fzero] 3 fzero fzero)
        (sol prms0 2 [fone] [fone] 0 fone fone) = Ok (Decided true) /\
  Fight (sol prms0 2 [fone] [fone] 0 fone fone)
        (sol prms0 1 [ftwo] [fzero] 3 fzero fzero) = Ok (Decided false).
Proof.
  apply (Fight_feasible_beats_infeasible
           (sol prms0 1 [ftwo] [fzero] 3 fzero fzero)
           (sol prms0 2 [fone] [fone] 0 fone fone));
    reflexivity.
Defined.

Lemma Fight_neigh_mirror (A B : Solution) :
  use_solution_distneighfight (prms A) = use_solution_distneighfight (prms B) ->
  Ok (Fight_neigh B A) = mirror (Ok (Fight_neigh A B)).
Proof.
  intros Hf. unfold Fight_neigh. rewrite <- Hf.
  destruct (use_solution_distneighfight (prms A)); [|reflexivity].
  destruct (fgt (DistNeigh A) (DistNeigh B)) eqn:E1.
  - rewrite (fgt_asym _ _ E1). reflexivity.
  - destruct (fgt (DistNeigh B) (DistNeigh A)); reflexivity.
Qed.

Lemma Fight_front_mirror (A B : Solution) :
  use_solution_frontcomparison (prms A) = use_solution_frontcomparison (prms B) ->
  use_solution_distneighfight (prms A) = use_solution_distneighfight (prms B) ->
  Ok (Fight_front B A) = mirror (Ok (Fight_front A B)).
Proof.
  intros Hf Hn. unfold Fight_front. rewrite <- Hf.
  rewrite (Z.eqb_sym (FrontId B) (FrontId A)).
  pose proof (Fight_neigh_mirror A B Hn) as Hm.
  destruct (use_solution_frontcomparison (prms A)); [|exact Hm].
  destruct (FrontId A =? FrontId B); [|exact Hm].
  destruct (fgt (DistCrowd A) (DistCrowd B)) eqn:E1.
  - rewrite (fgt_asym _ _ E1). reflexivity.
  - destruct (fgt (DistCrowd B) (DistCrowd A)); [reflexivity | exact Hm].
Qed.

(** X8. The fight is consistent from both sides: with the same flags on
    both solutions, the neighbour-distance comparison off and penalty
    vectors of one length, [B.Fight(A)] decides the opposite of
    [A.Fight(B)], falls to the coin exactly when it does, and panics
    exactly when it does. *)
Theorem Fight_mirror (A B : Solution) :
  length (Oor A) = length (Oor B) ->
  use_solution_comparedneigh (prms A) = false ->
  use_solution_comparedneigh (prms B) = false ->
  use_solution_frontcomparison (prms A) = use_solution_frontcomparison (prms B) ->
  use_solution_distneighfight (prms A) = use_solution_distneighfight (prms B) ->
  Fight B A = mirror (Fight A B).
Proof.
  intros Hlen HfA HfB Hfront Hneigh. unfold Fight.
  rewrite (Compare_flag_off A B HfA), (Compare_flag_off B A HfB),
    (Compare_body_swap A B Hlen).
  pose proof (Compare_body_not_both A B) as Hnb.
  destruct (Compare_body A B) as [[a b]|m]; [|reflexivity].
  cbn [swap_verdict bind].
  destruct a, b; try reflexivity; [congruence|].
  apply Fight_front_mirror; assumption.
Qed.

Lemma Fight_mirror_witness :
  Fight (sol prms0 2 [fone] [fzero] 0 fone fone)
        (sol prms0 1 [ftwo] [fzero] 0 fone fone)
  = mirror (Fight (sol prms0 1 [ftwo] [fzero] 0 fone fone)
                  (sol prms0 2 [fone] [fzero] 0 fone fone)).
Proof.
  apply (Fight_mirror (sol prms0 1 [ftwo] [fzero] 0 fone fone)
                      (sol prms0 2 [fone] [fzero] 0 fone fone));
    reflexivity.
Defined.

(** With the neighbour-distance comparison on, the two sides can both
    claim the fight. *)
Example Fight_flag_on_both_win :
  Fight (sol prms_neigh 1 [fone] [fone] 0 fzero fone)
        (sol prms_neigh 2 [ftwo] [fzero] 0 fzero fzero) = Ok (Decided true) /\
  Fight (sol prms_neigh 2 [ftwo] [fzero] 0 fzero fzero)
        (sol prms_neigh 1 [fone] [fone] 0 fzero fone) = Ok (Decided true).
Proof. split; reflexivity. Qed.


(* ================================================================== *)
(** * Properties of the distances *)

Lemma SFabs_binary_round_aux (s s' : bool) (m e : Z) (l : location) :
  SFabs (binary_round_aux prec64 emax64 s m e l) =
  SFabs (binary_round_aux prec64 emax64 s' m e l).
Proof.
  unfold binary_round_aux.
  destruct (shr_fexp prec64 emax64 m e l) as [mrs e1].
  destruct (shr_fexp prec64 emax64 _ e1 loc_Exact) as [mrs' e2].
  destruct (shr_m mrs'); try reflexivity.
  destruct (e2 <=? emax64 - prec64); reflexivity.
Qed.

Lemma SFabs_binary_normalize_opp (m e : Z) :
  SFabs (binary_normalize prec64 emax64 (- m) e false) =
  SFabs (binary_normalize prec64 emax64 m e false).
Proof.
  destruct m as [|p|p]; simpl; try reflexivity;
    unfold binary_round;
    destruct (shl_align p e _) as [mz ez];
    apply SFabs_binary_round_aux.
Qed.

Lemma fabs_fsub_sym (x y : float64) : fabs (fsub x y) = fabs (fsub y x).
Proof.
  unfold fabs, fsub.
  destruct x as [sx|sx| |sx mx ex], y as [sy|sy| |sy my ey];
    try (destruct sx, sy; reflexivity); try (destruct sx; reflexivity);
    try (destruct sy; reflexivity); try reflexivity.
  unfold SFsub. rewrite (Z.min_comm ey ex).
  rewrite <- SFabs_binary_normalize_opp. f_equal. f_equal. lia.
Qed.

Lemma wrap64_opp (z : Z) :
  wrap64 (- z) = - wrap64 z \/
  (wrap64 (- z) = - 2 ^ 63 /\ wrap64 z = - 2 ^ 63).
Proof.
  unfold wrap64.
  change (2 ^ 63) with 9223372036854775808.
  change (2 ^ 64) with 18446744073709551616.
  Z.to_euclidean_division_equations. lia.
Qed.

Lemma fabs_float64_of_int_sub_sym (a b : Z) :
  fabs (float64_of_int (int_sub a b)) = fabs (float64_of_int (int_sub b a)).
Proof.
  unfold int_sub. replace (b - a) with (- (a - b)) by lia.
  destruct (wrap64_opp (a - b)) as [H | [H1 H2]].
  - rewrite H. unfold fabs, float64_of_int, f64.
    symmetry. apply SFabs_binary_normalize_opp.
  - rewrite H1, H2. reflexivity.
Qed.

Lemma index_app_mid {A} (p l : list A) (x : A) (k : Z) :
  len p = k -> index (p ++ x :: l) k = Ok x.
Proof.
  intros <-. unfold index, len.
  destruct (Z.ltb_spec (Z.of_nat (length p)) 0); [lia|].
  rewrite Nat2Z.id, nth_error_app2, Nat.sub_diag by lia. reflexivity.
Qed.

Lemma len_snoc {A} (p : list A) (x : A) : len (p ++ [x]) = len p + 1.
Proof. unfold len. rewrite length_app. simpl. lia. Qed.

(** Two lock-step loops over [u] and [v], from index [k] on, agree when
    their terms do. *)
Lemma range_loop_exchange {A H} (f g : A -> A -> H -> H -> float64)
  (hi lo : list H) :
  (forall x y h l, f x y h l = g y x h l) ->
  forall (u v pu pv : list A) (k : Z) (acc : float64),
    length u = length v -> len pu = k -> len pv = k ->
    range_loop u k
      (fun i x acc =>
         y <- index (pv ++ v) i ;;
         h <- index hi i ;;
         l <- index lo i ;;
         Ok (fadd acc (f x y h l))) acc
    = range_loop v k
        (fun i y acc =>
           x <- index (pu ++ u) i ;;
           h <- index hi i ;;
           l <- index lo i ;;
           Ok (fadd acc (g y x h l))) acc.
Proof.
  intros Hfg. induction u as [|x u IH]; intros [|y v] pu pv k acc Hlen Hpu Hpv;
    simpl in Hlen; try discriminate; [reflexivity|].
  cbn [range_loop].
  rewrite (index_app_mid pv v y k Hpv), (index_app_mid pu u x k Hpu).
  cbn [bind].
  destruct (index hi k) as [h|m]; [|reflexivity]. cbn [bind].
  destruct (index lo k) as [l|m]; [|reflexivity]. cbn [bind].
  rewrite (Hfg x y h l).
  specialize (IH v (pu ++ [x]) (pv ++ [y]) (k + 1) (fadd acc (g y x h l))).
  rewrite <- !app_assoc in IH. simpl in IH.
  apply IH; [congruence | rewrite len_snoc; lia | rewrite len_snoc; lia].
Qed.

Section DistanceProps.
Variable Pow : float64 -> float64 -> float64.

Lemma sum_abs_terms_sym (u v hi lo : list float64) (acc : float64) :
  length u = length v ->
  sum_terms abs_term u v hi lo acc = sum_terms abs_term v u hi lo acc.
Proof.
  intros Hlen. unfold sum_terms.
  apply (range_loop_exchange
           (fun x y h l => abs_term (fsub x y) (fsub h l))
           (fun y x h l => abs_term (fsub y x) (fsub h l)) hi lo)
    with (pu := []) (pv := []); auto.
  intros x y h l. unfold abs_term. rewrite (fabs_fsub_sym x y). reflexivity.
Qed.

Lemma sum_abs_int_terms_sym (u v hi lo : list Z) (acc : float64) :
  length u = length v ->
  sum_int_terms abs_term u v hi lo acc = sum_int_terms abs_term v u hi lo acc.
Proof.
  intros Hlen. unfold sum_int_terms.
  apply (range_loop_exchange
           (fun x y h l => abs_term (float64_of_int (int_sub x y))
                                    (float64_of_int (int_sub h l)))
           (fun y x h l => abs_term (float64_of_int (int_sub y x))
                                    (float64_of_int (int_sub h l))) hi lo)
    with (pu := []) (pv := []); auto.
  intros x y h l. unfold abs_term.
  rewrite (fabs_float64_of_int_sub_sym x y). reflexivity.
Qed.

(** X9. In the absolute-distance mode both distances are symmetric,
    exactly: for two solutions with that mode set and vectors of the same
    lengths, [A.Distance(B)] and [B.Distance(A)] return the same float64
    (or panic alike), and so do [A.OvaDistance(B)] and
    [B.OvaDistance(A)]. *)
Theorem Distance_abs_symmetric (A B : Solution) (fmin fmax : list float64)
  (imin imax : list Z) (omin omax : list float64) :
  use_solution_absdistance (prms A) = true ->
  use_solution_absdistance (prms B) = true ->
  length (Flt A) = length (Flt B) ->
  length (Int A) = length (Int B) ->
  length (Ova A) = length (Ova B) ->
  Distance Pow A B fmin fmax imin imax = Distance Pow B A fmin fmax imin imax /\
  OvaDistance Pow A B omin omax = OvaDistance Pow B A omin omax.
Proof.
  intros HA HB Hflt Hint Hova. unfold Distance, OvaDistance.
  rewrite HA, HB. split.
  - rewrite (sum_abs_terms_sym (Flt A) (Flt B) fmax fmin fzero Hflt).
    destruct (sum_terms abs_term (Flt B) (Flt A) fmax fmin fzero) as [d|m];
      [|reflexivity].
    cbn [bind]. apply sum_abs_int_terms_sym. exact Hint.
  - apply sum_abs_terms_sym. exact Hova.
Qed.
End DistanceProps.

Lemma Distance_abs_symmetric_witness :
  Distance (fun x _ => x) (sol prms_abs 1 [fone] [fzero] 0 fzero fzero)
           (sol prms_abs 2 [ftwo] [fzero] 0 fzero fzero)
           [fzero; fzero] [fone; fone] [0] [9]
  = Distance (fun x _ => x) (sol prms_abs 2 [ftwo] [fzero] 0 fzero fzero)
             (sol prms_abs 1 [fone] [fzero] 0 fzero fzero)
             [fzero; fzero] [fone; fone] [0] [9] /\
  OvaDistance (fun x _ => x) (sol prms_abs 1 [fone] [fzero] 0 fzero fzero)
              (sol prms_abs 2 [ftwo] [fzero] 0 fzero fzero) [fzero] [ftwo]
  = OvaDistance (fun x _ => x) (sol prms_abs 2 [ftwo] [fzero] 0 fzero fzero)
                (sol prms_abs 1 [fone] [fzero] 0 fzero fzero) [fzero] [ftwo].
Proof.
  apply (Distance_abs_symmetric (fun x _ => x)
           (sol prms_abs 1 [fone] [fzero] 0 fzero fzero)
           (sol prms_abs 2 [ftwo] [fzero] 0 fzero fzero));
    reflexivity.
Defined.

(** The distance between solutions 1 and 2 of the examples: the integer
    genes differ by 1 over a range of 9. *)
Example Distance_example :
  Distance (fun x _ => x) (sol prms_abs 1 [fone] [fzero] 0 fzero fzero)
           (sol prms_abs 2 [ftwo] [fzero] 0 fzero fzero)
           [fzero; fzero] [fone; fone] [0] [9]
  = Ok (fdiv fone (fadd (float64_of_int 9) f1em15)).
Proof. vm_compute. reflexivity. Qed.

(* ================================================================== *)
(** * The distance of a solution to itself *)

Lemma fsub_self (x : float64) : is_finite x = true -> fsub x x = fzero.
Proof.
  destruct x as [s|s| |s m e]; try discriminate; intros _.
  - destruct s; reflexivity.
  - unfold fsub, SFsub. cbv zeta. rewrite Z.sub_diag. reflexivity.
Qed.

Lemma fadd_zero_quotient (d : float64) :
  divisor_ok d -> fadd fzero (fdiv fzero d) = fzero.
Proof. destruct d as [s|s| |s m e]; simpl; try contradiction; destruct s; reflexivity. Qed.

Lemma index_nth_error {A} (s : list A) (i : nat) (x : A) :
  nth_error s i = Some x -> index s (Z.of_nat i) = Ok x.
Proof.
  intros H. unfold index. destruct (Z.ltb_spec (Z.of_nat i) 0); [lia|].
  rewrite Nat2Z.id, H. reflexivity.
Qed.

(** The loop of the absolute distance over a vector against itself, from
    index [k] on, adds nothing to a zero sum. *)
Lemma sum_self_zero {A H} (P : A -> Prop) (diff : A -> A -> float64)
  (width : H -> H -> float64) (hi lo : list H) :
  (forall x, P x -> fabs (diff x x) = fzero) ->
  forall (u pu : list A) (k : nat),
    length pu = k -> Forall P u ->
    ranges_usable width (k + length u) hi lo ->
    range_loop u (Z.of_nat k)
      (fun i x acc =>
         y <- index (pu ++ u) i ;;
         h <- index hi i ;;
         l <- index lo i ;;
         Ok (fadd acc (abs_term (diff x y) (width h l)))) fzero
    = Ok fzero.
Proof.
  intros Hdiff. induction u as [|x u IH]; intros pu k Hpu HP Hr; [reflexivity|].
  cbn [range_loop].
  rewrite (index_app_mid pu u x (Z.of_nat k)) by (unfold len; lia).
  cbn [bind].
  destruct (Hr k) as (h & l & Hh & Hl & Hok); [simpl; lia|].
  rewrite (index_nth_error _ _ _ Hh), (index_nth_error _ _ _ Hl). cbn [bind].
  inversion HP as [|? ? Hx HP']; subst.
  change (abs_term (diff x x) (width h l))
    with (fdiv (fabs (diff x x)) (fadd (width h l) f1em15)).
  rewrite (Hdiff x Hx), (fadd_zero_quotient _ Hok).
  specialize (IH (pu ++ [x]) (S (length pu))).
  rewrite <- app_assoc in IH. simpl app in IH.
  replace (Z.of_nat (length pu) + 1) with (Z.of_nat (S (length pu))) by lia.
  apply IH; [rewrite length_app; simpl; lia | exact HP' |].
  intros i Hi. apply Hr. simpl. lia.
Qed.

Section DistanceSelf.
Variable Pow : float64 -> float64 -> float64.

(** X10. In the absolute mode a solution is at distance zero from
    itself, in the genes and in the objectives, provided its floats and
    objectives are finite and the ranges divided by are usable; the
    integer genes need no condition. *)
Theorem Distance_abs_self (A : Solution) (fmin fmax : list float64)
  (imin imax : list Z) (omin omax : list float64) :
  use_solution_absdistance (prms A) = true ->
  Forall (fun x => is_finite x = true) (Flt A) ->
  Forall (fun x => is_finite x = true) (Ova A) ->
  ranges_usable fsub (length (Flt A)) fmax fmin ->
  ranges_usable (fun h l => float64_of_int (int_sub h l)) (length (Int A))
    imax imin ->
  ranges_usable fsub (length (Ova A)) omax omin ->
  Distance Pow A A fmin fmax imin imax = Ok fzero /\
  OvaDistance Pow A A omin omax = Ok fzero.
Proof.
  intros Hflag HF HO Rf Ri Ro.
  assert (Hflt : forall u hi lo,
             Forall (fun x => is_finite x = true) u ->
             ranges_usable fsub (length u) hi lo ->
             sum_terms abs_term u u hi lo fzero = Ok fzero).
  { intros u hi lo Hu Hr. unfold sum_terms.
    apply (sum_self_zero (fun x => is_finite x = true) fsub fsub hi lo)
      with (pu := []) (k := O); auto.
    intros x Hx. rewrite (fsub_self x Hx). reflexivity. }
  unfold Distance, OvaDistance. rewrite Hflag.
  split; [|apply Hflt; assumption].
  rewrite (Hflt _ _ _ HF Rf). cbn [bind]. unfold sum_int_terms.
  apply (sum_self_zero (fun _ => True)
           (fun x y => float64_of_int (int_sub x y))
           (fun h l => float64_of_int (int_sub h l)) imax imin)
    with (pu := []) (k := O); auto.
  - intros x _. unfold int_sub. rewrite Z.sub_diag. reflexivity.
  - apply Forall_forall. auto.
Qed.
End DistanceSelf.

Lemma Distance_abs_self_witness :
  Distance (fun x _ => x) (sol prms_abs 1 [fone] [fzero] 0 fzero fzero)
           (sol prms_abs 1 [fone] [fzero] 0 fzero fzero)
           [fzero; fzero] [fone; fone] [0] [9] = Ok fzero /\
  OvaDistance (fun x _ => x) (sol prms_abs 1 [fone] [fzero] 0 fzero fzero)
              (sol prms_abs 1 [fone] [fzero] 0 fzero fzero) [fzero] [ftwo]
  = Ok fzero.
Proof.
  apply (Distance_abs_self (fun x _ => x)
           (sol prms_abs 1 [fone] [fzero] 0 fzero fzero)).
  - reflexivity.
  - repeat constructor.
  - repeat constructor.
  - intros [|[|i]] Hi; simpl in Hi; try lia;
      exists fone, fzero; repeat split; try exact I.
  - intros [|i] Hi; simpl in Hi; try lia. exists 9, 0. repeat split.
  - intros [|i] Hi; simpl in Hi; try lia. exists ftwo, fzero. repeat split.
Defined.

(** An infinite gene is at no distance from itself: the difference is
    NaN. *)
Example Distance_abs_self_infinite :
  OvaDistance (fun x _ => x) (sol prms_abs 1 [fpinf] [fzero] 0 fzero fzero)
              (sol prms_abs 1 [fpinf] [fzero] 0 fzero fzero) [fzero] [ftwo]
  = Ok fnan.
Proof. reflexivity. Qed.

(* ================================================================== *)
(** * The island's tournament seen from both sides *)

Lemma feq_sym (x y : float64) : feq y x = feq x y.
Proof.
  unfold feq, SFeqb. rewrite (SFcompare_antisym x y).
  destruct (SFcompare x y) as [[]|]; reflexivity.
Qed.

(** Two numbers are in exactly one of the three orders. *)
Lemma fgt_feq_cases (x y : float64) :
  is_nan x = false -> is_nan y = false ->
  (fgt x y = true /\ feq x y = false /\ fgt y x = false) \/
  (fgt x y = false /\ feq x y = true /\ fgt y x = false) \/
  (fgt x y = false /\ feq x y = false /\ fgt y x = true).
Proof.
  intros Hx Hy. unfold fgt, flt, feq, SFltb, SFeqb.
  rewrite (SFcompare_antisym x y), (SFcompare_key x y Hx Hy).
  destruct (lex3 _ _); simpl; auto.
Qed.

Lemma neigh_coin_mirror (A B : Individual) :
  neigh_coin B A = mirror_coin (neigh_coin A B).
Proof.
  unfold neigh_coin.
  destruct (fgt (iDistNeigh A) (iDistNeigh B)) eqn:E1.
  - rewrite (fgt_asym _ _ E1). reflexivity.
  - destruct (fgt (iDistNeigh B) (iDistNeigh A)); reflexivity.
Qed.

(** X11. The island's tournament in its deterministic mode, seen from
    the other side: when the dominance comparison gives the exchanged
    verdicts for the exchanged contestants and not both at once, and the
    crowding distances are numbers, [tournament(B, A)] is the mirror of
    [tournament(A, B)]: a decided outcome is reversed, and a coin of
    probability 0.5, 0.6 or 0.4 for [A] is a coin of probability 0.5,
    0.4 or 0.6 for [B]. *)
Theorem tournament_mirror
  (IndCompareProb : Individual -> Individual -> float64 -> Outcome)
  (conf : ConfParams) (A B : Individual) (a b : bool) :
  CompProb conf = false ->
  IndCompareDet A B = (a, b) ->
  IndCompareDet B A = (b, a) ->
  a && b = false ->
  is_nan (iDistCrowd A) = false ->
  is_nan (iDistCrowd B) = false ->
  tournament IndCompareProb conf B A
  = mirror_coin (tournament IndCompareProb conf A B).
Proof.
  intros Hprob HAB HBA Hnot NA NB. unfold tournament.
  rewrite Hprob, HAB, HBA.
  destruct a, b; try discriminate; try reflexivity.
  rewrite (Z.eqb_sym (iFrontId B) (iFrontId A)), (neigh_coin_mirror A B).
  destruct (negb (iFrontId A =? iFrontId B) || CdistOff conf); [reflexivity|].
  rewrite (feq_sym (iDistCrowd A) (iDistCrowd B)).
  destruct (fgt_feq_cases _ _ NA NB) as [(-> & -> & ->) | [(-> & -> & ->) | (-> & -> & ->)]];
    reflexivity.
Qed.

Lemma tournament_mirror_witness :
  tournament (fun _ _ _ => Decided true) conf0
    {| iId := 2; Ovas := [fone]; Oors := [fzero]; Ints := []; Floats := [];
       Demerit := fzero; iFrontId := 0; iDistCrowd := fone;
       iDistNeigh := fzero |}
    {| iId := 1; Ovas := [fone]; Oors := [fzero]; Ints := []; Floats := [];
       Demerit := fzero; iFrontId := 0; iDistCrowd := fone;
       iDistNeigh := fone |}
  = FlipCoin f0_4.
Proof.
  apply (tournament_mirror (fun _ _ _ => Decided true) conf0
           {| iId := 1; Ovas := [fone]; Oors := [fzero]; Ints := []; Floats := [];
              Demerit := fzero; iFrontId := 0; iDistCrowd := fone;
              iDistNeigh := fone |}
           {| iId := 2; Ovas := [fone]; Oors := [fzero]; Ints := []; Floats := [];
              Demerit := fzero; iFrontId := 0; iDistCrowd := fone;
              iDistNeigh := fzero |} false false);
    reflexivity.
Defined.

(** When a crowding distance is NaN the two sides do not mirror each
    other: each contestant loses the tournament it starts. *)
Example tournament_nan_crowd_both_lose :
  tournament (fun _ _ _ => Decided true) conf0
    {| iId := 1; Ovas := [fone]; Oors := [fzero]; Ints := []; Floats := [];
       Demerit := fzero; iFrontId := 0; iDistCrowd := fnan;
       iDistNeigh := fone |}
    {| iId := 2; Ovas := [fone]; Oors := [fzero]; Ints := []; Floats := [];
       Demerit := fzero; iFrontId := 0; iDistCrowd := fone;
       iDistNeigh := fone |}
  = Decided false /\
  tournament (fun _ _ _ => Decided true) conf0
    {| iId := 2; Ovas := [fone]; Oors := [fzero]; Ints := []; Floats := [];
       Demerit := fzero; iFrontId := 0; iDistCrowd := fone;
       iDistNeigh := fone |}
    {| iId := 1; Ovas := [fone]; Oors := [fzero]; Ints := []; Floats := [];
       Demerit := fzero; iFrontId := 0; iDistCrowd := fnan;
       iDistNeigh := fone |}
  = Decided false.
Proof. split; reflexivity. Qed.

(* ================================================================== *)
(** * A copy and its original *)

Lemma Compare_body_reads (A B A' B' : Solution) :
  Ova A = Ova A' -> Oor A = Oor A' -> Ova B = Ova B' -> Oor B = Oor B' ->
  Compare_body A B = Compare_body A' B'.
Proof. unfold Compare_body. intros -> -> -> ->. reflexivity. Qed.

(** X12. A copy ties with its original. After [A.CopyInto(B)] into a
    solution [B] with objective and penalty vectors as long as those of
    [A], and with the neighbour-distance comparison off, neither [B] nor
    [A] dominates the other, whichever is asked; the copy keeps the
    parameters, front, distances and counters that [B] had. *)
Theorem CopyInto_copy_ties_with_original (A B : Solution) :
  length (Ova A) = length (Ova B) ->
  length (Oor A) = length (Oor B) ->
  use_solution_comparedneigh (prms A) = false ->
  use_solution_comparedneigh (prms B) = false ->
  Compare (CopyInto A B) A = Ok (false, false) /\
  Compare A (CopyInto A B) = Ok (false, false) /\
  prms (CopyInto A B) = prms B /\
  FrontId (CopyInto A B) = FrontId B /\
  DistCrowd (CopyInto A B) = DistCrowd B /\
  DistNeigh (CopyInto A B) = DistNeigh B /\
  Nwins (CopyInto A B) = Nwins B /\
  Nlosses (CopyInto A B) = Nlosses B.
Proof.
  intros Hova Hoor HfA HfB.
  assert (Eova : Ova (CopyInto A B) = Ova A)
    by (simpl; apply copy_same_length; symmetry; exact Hova).
  assert (Eoor : Oor (CopyInto A B) = Oor A)
    by (simpl; apply copy_same_length; symmetry; exact Hoor).
  pose proof (Compare_body_self A) as Hself.
  split; [|split; [|repeat split]].
  - rewrite (Compare_flag_off (CopyInto A B) A HfB).
    rewrite (Compare_body_reads (CopyInto A B) A A A); auto.
  - rewrite (Compare_flag_off A (CopyInto A B) HfA).
    rewrite (Compare_body_reads A (CopyInto A B) A A); auto.
Qed.

Lemma CopyInto_copy_ties_with_original_witness :
  Compare (CopyInto (sol prms0 1 [fone] [fzero] 0 fzero fzero)
                    (sol prms0 2 [ftwo] [fone] 3 fone fone))
          (sol prms0 1 [fone] [fzero] 0 fzero fzero) = Ok (false, false).
Proof.
  apply (CopyInto_copy_ties_with_original
           (sol prms0 1 [fone] [fzero] 0 fzero fzero)
           (sol prms0 2 [ftwo] [fone] 3 fone fone));
    reflexivity.
Defined.

(* ================================================================== *)
(** * Properties of Ranking and CumSum *)

Lemma fadd_nan_r (x : float64) : fadd x fnan = fnan.
Proof. destruct x as [s|s| |s m e]; reflexivity. Qed.

Lemma fadd_nan_l (x : float64) : fadd fnan x = fnan.
Proof. destruct x as [s|s| |s m e]; reflexivity. Qed.

Lemma fdiv_mul_zero_zero (x : float64) : fdiv (fmul x fzero) fzero = fnan.
Proof. destruct x as [s|s| |s m e]; try destruct s; reflexivity. Qed.

Lemma map_const {A B} (f : A -> B) (c : B) (l : list A) :
  (forall x, f x = c) -> map f l = repeat c (length l).
Proof.
  intros H. induction l as [|x l IH]; simpl; [reflexivity|].
  rewrite H, IH. reflexivity.
Qed.

(** X13. [Ranking]: a selective pressure below 1 or above 2 is replaced
    by 1.2; for a nonnegative number of individuals the call returns
    that many fitnesses, and for a negative one it panics; for a single
    individual the fitness is NaN (the rank is divided by
    [ninds - 1 = 0]); and a NaN pressure is not replaced, so that every
    fitness is NaN. *)
Theorem Ranking_edge_cases (ninds : Z) (sp : float64) :
  (flt sp fone = true \/ fgt sp ftwo = true ->
   Ranking ninds sp = Ranking ninds f1_2) /\
  (0 <= ninds -> exists f, Ranking ninds sp = Ok f /\ len f = ninds) /\
  (ninds < 0 -> failed (Ranking ninds sp)) /\
  Ranking 1 sp = Ok [fnan] /\
  (0 <= ninds -> Ranking ninds fnan = Ok (repeat fnan (Z.to_nat ninds))).
Proof.
  split; [|split; [|split; [|split]]].
  - intros H. unfold Ranking.
    replace (flt sp fone || fgt sp ftwo) with true
      by (destruct H as [-> | ->]; [reflexivity | symmetry; apply orb_true_r]).
    reflexivity.
  - intros Hn. unfold Ranking.
    destruct (Z.ltb_spec ninds 0) as [?|_]; [lia|].
    eexists. split; [reflexivity|].
    unfold len. rewrite !length_map, length_seq. lia.
  - intros Hn. unfold Ranking.
    destruct (Z.ltb_spec ninds 0) as [_|?]; [exact I | lia].
  - unfold Ranking. change (1 <? 0) with false. cbv iota.
    change (map Z.of_nat (seq 0 (Z.to_nat 1))) with [0]. cbn [map].
    change (float64_of_int (int_sub (int_sub 1 0) 1)) with fzero.
    change (float64_of_int (int_sub 1 1)) with fzero.
    rewrite fdiv_mul_zero_zero, fadd_nan_r. reflexivity.
  - intros Hn. unfold Ranking.
    destruct (Z.ltb_spec ninds 0) as [?|_]; [lia|].
    change (flt fnan fone || fgt fnan ftwo) with false. cbv iota.
    change (fsub ftwo fnan) with fnan.
    f_equal. rewrite (map_const _ fnan) by (intros i; apply fadd_nan_l).
    rewrite length_map, length_seq. reflexivity.
Qed.

Lemma running_sums_length (acc : float64) (p : list float64) :
  length (running_sums acc p) = length p.
Proof.
  revert acc. induction p as [|x p IH]; intros acc; simpl; [reflexivity|].
  rewrite IH. reflexivity.
Qed.

Lemma cumulated_length (p : list float64) : length (cumulated p) = length p.
Proof. destruct p; simpl; [reflexivity | rewrite running_sums_length; reflexivity]. Qed.

Lemma running_sums_step (r : list float64) :
  forall (acc : float64) (j : nat) (c x : float64),
    nth_error (acc :: running_sums acc r) j = Some c ->
    nth_error r j = Some x ->
    nth_error (running_sums acc r) j = Some (fadd c x).
Proof.
  induction r as [|y r IH]; intros acc j c x Hc Hx.
  - destruct j; discriminate.
  - destruct j as [|j]; simpl in *.
    + injection Hc as <-. injection Hx as <-. reflexivity.
    + apply IH; assumption.
Qed.

(** Each cumulated sum is the one before plus the next value. *)
Lemma cumulated_step (p : list float64) (j : nat) (c x : float64) :
  nth_error (cumulated p) j = Some c ->
  nth_error p (S j) = Some x ->
  nth_error (cumulated p) (S j) = Some (fadd c x).
Proof.
  destruct p as [|y r]; [destruct j; discriminate|].
  simpl. apply running_sums_step.
Qed.

Lemma CumSum_loop (p : list float64) (m : nat) :
  forall (k : nat) (cs : list float64),
    (1 <= k)%nat -> (k + m = length p)%nat -> length cs = length p ->
    (forall j, (j < k)%nat -> nth_error cs j = nth_error (cumulated p) j) ->
    exists cs',
      for_loop m (Z.of_nat k)
        (fun i cs =>
           prev <- index cs (i - 1) ;;
           x <- index p i ;;
           store cs i (fadd prev x)) cs = Ok cs' /\
      length cs' = length p /\
      forall j, (j < length p)%nat ->
                nth_error cs' j = nth_error (cumulated p) j.
Proof.
  induction m as [|m IH]; intros k cs Hk Hkm Hlen Hpre.
  - exists cs. split; [reflexivity|]. split; [exact Hlen|].
    intros j Hj. apply Hpre. lia.
  - cbn [for_loop].
    destruct (index_ok cs (Z.of_nat k - 1)) as (c & Hc & Hc'); [lia | lia |].
    destruct (index_ok p (Z.of_nat k)) as (x & Hx & Hx'); [lia | lia |].
    rewrite Hc. cbn [bind]. rewrite Hx. cbn [bind].
    destruct (store_ok cs (Z.of_nat k) (fadd c x)) as (cs1 & Hs & Hl1 & Hv & Ho);
      [lia | lia |].
    rewrite Hs. cbn [bind].
    replace (Z.of_nat k + 1) with (Z.of_nat (S k)) by lia.
    apply IH; [lia | lia | lia |].
    intros j Hj. rewrite Nat2Z.id in Hv, Ho, Hx'.
    replace (Z.to_nat (Z.of_nat k - 1)) with (k - 1)%nat in Hc' by lia.
    destruct (Nat.eq_dec j k) as [->|Hne].
    + rewrite Hv. symmetry.
      replace k with (S (k - 1)) at 1 by lia.
      apply cumulated_step.
      * rewrite <- Hpre by lia. exact Hc'.
      * replace (S (k - 1)) with k by lia. exact Hx'.
    + rewrite (Ho j Hne). apply Hpre. lia.
Qed.

(** X14. [CumSum] panics exactly when [cs] and [p] differ in length;
    otherwise it returns, and [cs] then holds the sums of [p] added up
    from the left, [cs[0] = p[0]] and [cs[i] = cs[i-1] + p[i]], whatever
    it held before. *)
Theorem CumSum_spec (cs p : list float64) :
  (length cs = length p -> CumSum cs p = Ok (cumulated p)) /\
  (length cs <> length p -> failed (CumSum cs p)).
Proof.
  unfold CumSum, IntAssert, len. split.
  - intros Hlen. rewrite Hlen, Z.eqb_refl. cbn [bind].
    destruct p as [|x p].
    + destruct cs; [reflexivity | discriminate].
    + destruct (Z.ltb_spec (Z.of_nat (length (x :: p))) 1) as [H|_];
        [simpl length in H; lia|].
      change (index (x :: p) 0) with (Ok x). cbn [bind].
      destruct (store_ok cs 0 x) as (cs1 & Hs & Hl1 & Hv & Ho);
        [lia | rewrite Hlen; simpl; lia |].
      rewrite Hs. cbn [bind].
      destruct (CumSum_loop (x :: p) (Z.to_nat (Z.of_nat (length (x :: p)) - 1))
                  1 cs1) as (cs' & Hr & Hl' & Hall);
        [lia | simpl length; lia | congruence | |].
      { intros j Hj. assert (j = O) by lia. subst j. exact Hv. }
      change (Z.of_nat 1) with 1 in Hr. rewrite Hr. f_equal.
      apply nth_error_ext. intros j.
      destruct (Nat.lt_ge_cases j (length (x :: p))) as [Hj|Hj].
      * apply Hall. exact Hj.
      * rewrite (proj2 (nth_error_None cs' j)) by lia.
        symmetry. apply nth_error_None. rewrite cumulated_length. exact Hj.
  - intros Hne.
    destruct (Z.eqb_spec (Z.of_nat (length cs)) (Z.of_nat (length p))) as [E|_];
      [lia | exact I].
Qed.

(* ================================================================== *)
(** * Sorting the population by fitness *)

(** X15. [Population.Sort] on individuals whose fitnesses are numbers:
    the call returns the same individuals rearranged from best to
    worst, the fitness never increasing along the population. *)
Theorem Population_Sort_best_first {Ind} (Fitness : Ind -> float64)
  (o : list Ind) :
  Forall (fun x => is_nan (Fitness x) = false) o ->
  exists r, Population_Sort Ind Fitness o = Ok r /\ Permutation o r /\
            StronglySorted (fitness_order Fitness) r.
Proof.
  intros HP.
  destruct (sort_Sort_sorted (Population_Less Ind Fitness)
              (fun a b => fgt (Fitness a) (Fitness b))
              (fun x => is_nan (Fitness x) = false))
    with (s := o) as (r & Hr & Hperm & Hs); auto.
  - intros a b _ _. apply fgt_asym.
  - intros a b c Ha Hb Hc H1 H2.
    apply not_fgt_fle in H1, H2; try assumption.
    pose proof (fle_trans _ _ _ H2 H1) as H3.
    destruct (fgt (Fitness c) (Fitness a)) eqn:F; [|reflexivity].
    change (fgt (Fitness c) (Fitness a)) with (flt (Fitness a) (Fitness c)) in F.
    rewrite (flt_not_fle _ _ F) in H3. discriminate.
  - exists r. split; [exact Hr|]. split; [exact Hperm|].
    apply (StronglySorted_weaken (fun x => is_nan (Fitness x) = false)
             (fun a b => fgt (Fitness b) (Fitness a) = false)
             (fitness_order Fitness) r).
    + intros a b Ha Hb H. apply not_fgt_fle; assumption.
    + apply (Permutation_Forall Hperm HP).
    + exact Hs.
Qed.

Lemma Population_Sort_best_first_witness :
  exists r, Population_Sort float64 (fun x => x) [fone; ftwo; fzero] = Ok r /\
            Permutation [fone; ftwo; fzero] r /\
            StronglySorted (fitness_order (fun x => x)) r.
Proof.
  apply (Population_Sort_best_first (fun x => x) [fone; ftwo; fzero]).
  repeat constructor.
Defined.

Example Population_Sort_example :
  Population_Sort float64 (fun x => x) [fone; ftwo; fzero]
  = Ok [ftwo; fone; fzero].
Proof. reflexivity. Qed.

(* ================================================================== *)
(** * Properties of GenerateCxEnds and the crossovers *)

Lemma sort_Ints_sorted (l : list Z) :
  exists r, sort_Ints l = Ok r /\ Permutation l r /\ StronglySorted Z.le r.
Proof.
  destruct (sort_Sort_sorted (fun a b => Ok (a <? b)) Z.ltb (fun _ => True))
    with (s := l) as (r & Hr & Hperm & Hs).
  - reflexivity.
  - intros a b _ _ H. apply Z.ltb_lt in H. apply Z.ltb_ge. lia.
  - intros a b c _ _ _ H1 H2. apply Z.ltb_ge in H1, H2. apply Z.ltb_ge. lia.
  - apply Forall_forall. auto.
  - exists r. split; [exact Hr|]. split; [exact Hperm|].
    clear Hr Hperm. induction Hs as [|a r Hs IH Ha]; constructor; auto.
    eapply Forall_impl; [|exact Ha]. intros b H. apply Z.ltb_ge in H. exact H.
Qed.

Lemma last_cons_default {A} (l : list A) (x d : A) : last (x :: l) d = last l x.
Proof.
  revert x d. induction l as [|y l IH]; intros x d; [reflexivity|].
  change (last (x :: y :: l) d) with (last (y :: l) d).
  rewrite (IH y d). symmetry. apply IH.
Qed.

(** In a sorted list that holds an upper bound of itself, the bound is
    the last element. *)
Lemma sorted_last_max (l : list Z) (m d : Z) :
  StronglySorted Z.le l -> In m l -> Forall (fun x => x <= m) l ->
  last l d = m.
Proof.
  revert d. induction l as [|x l IH]; intros d Hs Hin Hall; [contradiction|].
  rewrite last_cons_default.
  apply StronglySorted_inv in Hs as [Hs Hx].
  inversion Hall as [|? ? Hxm Hall']; subst.
  destruct l as [|y l].
  - destruct Hin as [->|[]]. reflexivity.
  - apply IH; auto.
    destruct Hin as [->|Hin]; [|exact Hin].
    inversion Hx as [|? ? Hmy _]; subst.
    inversion Hall' as [|? ? Hym _]; subst.
    left. lia.
Qed.

Lemma check_cuts_spec (size : Z) (cuts : list Z) (prev : option Z) :
  check_cuts size prev cuts = Ok tt <->
  cuts_ok size cuts /\
  (forall p c, prev = Some p -> nth_error cuts 0 = Some c -> c <> p).
Proof.
  revert prev. induction cuts as [|cut rest IH]; intros prev.
  - simpl. split; [|reflexivity]. intros _. split.
    + intros [|i] c H; discriminate.
    + intros p c _ H. discriminate.
  - cbn [check_cuts].
    destruct (Z.ltb_spec cut 1) as [Hlo|Hlo].
    { simpl. split; [discriminate|]. intros [H _].
      destruct (H O cut eq_refl) as [Hr _]. lia. }
    destruct (Z.geb_spec cut size) as [Hhi|Hhi].
    { simpl. split; [discriminate|]. intros [H _].
      destruct (H O cut eq_refl) as [Hr _]. lia. }
    cbn [orb].
    assert (Hstep : check_cuts size (Some cut) rest = Ok tt <->
                    cuts_ok size (cut :: rest)).
    { rewrite IH. split.
      - intros [Hok Hp] [|i] c Hc.
        + injection Hc as <-. split; [lia|].
          intros Hn. apply (Hp cut cut eq_refl Hn). reflexivity.
        + apply (Hok i c Hc).
      - intros Hok. split.
        + intros i c Hc. apply (Hok (S i) c Hc).
        + intros p c Hp Hc Heq. injection Hp as <-. subst c.
          destruct (Hok O cut eq_refl) as [_ Hn]. apply Hn. exact Hc. }
    destruct prev as [p|].
    + destruct (Z.eqb_spec cut p) as [E|E].
      * split; [discriminate|]. intros [_ H].
        exfalso. apply (H p cut eq_refl eq_refl). exact E.
      * rewrite Hstep. split.
        -- intros H. split; [exact H|]. intros p' c Hp Hc.
           injection Hp as <-. injection Hc as <-. exact E.
        -- intros [H _]. exact H.
    + rewrite Hstep. split.
      * intros H. split; [exact H|]. intros p c Hp. discriminate.
      * intros [H _]. exact H.
Qed.

Lemma check_cuts_result (size : Z) (cuts : list Z) (prev : option Z) :
  check_cuts size prev cuts = Ok tt \/ failed (check_cuts size prev cuts).
Proof.
  destruct (check_cuts size prev cuts) as [[]|m]; [left; reflexivity | right; exact I].
Qed.

Lemma cuts_ok_range (size : Z) (cuts : list Z) :
  cuts_ok size cuts -> Forall (fun c => 1 <= c < size) cuts.
Proof.
  intros H. apply Forall_forall. intros c Hin.
  apply In_nth_error in Hin as [i Hi]. apply (H i c Hi).
Qed.

Lemma take_firstn (n : nat) (pool : list Z) :
  (n <= length pool)%nat -> take n pool = Ok (firstn n pool).
Proof.
  revert pool. induction n as [|n IH]; intros [|x pool] H; simpl in *;
    try reflexivity; try lia.
  rewrite IH by lia. reflexivity.
Qed.

Lemma StronglySorted_firstn (n : nat) (l : list Z) :
  StronglySorted Z.le l -> StronglySorted Z.le (firstn n l).
Proof.
  revert n. induction l as [|x l IH]; intros [|n] Hs; simpl; try constructor.
  - apply IH. apply StronglySorted_inv in Hs. tauto.
  - apply StronglySorted_inv in Hs as [_ Hx].
    rewrite <- (firstn_skipn n l) in Hx. apply Forall_app in Hx. tauto.
Qed.

Lemma last_snoc {A} (l : list A) (x d : A) : last (l ++ [x]) d = x.
Proof. apply last_last. Qed.

Lemma clamp_ncuts_eq (size ncuts : Z) :
  (if (if ncuts <? 1 then 1 else ncuts) >=? size then size - 1
   else if ncuts <? 1 then 1 else ncuts) = clamp_ncuts size ncuts.
Proof.
  unfold clamp_ncuts.
  destruct (Z.ltb_spec ncuts 1);
    match goal with |- context [?a >=? ?b] => destruct (Z.geb_spec a b) end; lia.
Qed.

Section CrossoverProps.
Variable flip : float64 -> bool.
Variable IntGetUniqueN : Z -> Z -> Z -> list Z.

Lemma ends_ok_sorted_snoc (size : Z) (l r : list Z) :
  1 <= size ->
  Forall (fun c => 1 <= c < size) l ->
  Permutation (l ++ [size]) r -> StronglySorted Z.le r ->
  ends_ok size r.
Proof.
  intros Hsize Hl Hperm Hs.
  assert (Hall : Forall (fun e => 1 <= e <= size) (l ++ [size])).
  { apply Forall_app. split.
    - eapply Forall_impl; [|exact Hl]. simpl. intros; lia.
    - constructor; [lia | constructor]. }
  assert (Hr : Forall (fun e => 1 <= e <= size) r)
    by exact (Permutation_Forall Hperm Hall).
  split; [exact Hs|]. split; [exact Hr|].
  apply sorted_last_max; [exact Hs | |].
  - apply (Permutation_in _ Hperm). apply in_or_app. right. left. reflexivity.
  - eapply Forall_impl; [|exact Hr]. simpl. intros; lia.
Qed.

(** The branch of [GenerateCxEnds] for given cuts that pass the
    checks. *)
Lemma GenerateCxEnds_cuts_ends (size ncuts : Z) (cuts : list Z) :
  2 < size -> cuts <> [] -> cuts_ok size cuts ->
  exists ends, GenerateCxEnds IntGetUniqueN size ncuts cuts = Ok ends /\
               Permutation (cuts ++ [size]) ends /\
               StronglySorted Z.le ends /\
               last ends 0 = size.
Proof.
  intros Hsize Hne Hok. unfold GenerateCxEnds.
  destruct (Z.ltb_spec size 2) as [?|_]; [lia|].
  destruct (Z.eqb_spec size 2) as [?|_]; [lia|].
  destruct (Z.gtb_spec (len cuts) 0) as [_|Hlen].
  2:{ destruct cuts; [congruence|]. unfold len in Hlen. simpl length in Hlen. lia. }
  assert (Hc : check_cuts size None cuts = Ok tt).
  { apply (check_cuts_spec size cuts None).
    split; [exact Hok|]. intros p c Hp. discriminate. }
  rewrite Hc. cbn [bind].
  destruct (sort_Ints_sorted (cuts ++ [size])) as (r & Hr & Hperm & Hs).
  exists r. split; [exact Hr|]. split; [exact Hperm|]. split; [exact Hs|].
  apply (ends_ok_sorted_snoc size cuts r); auto; [lia|].
  apply cuts_ok_range. exact Hok.
Qed.

(** X16. With cuts given for a chromosome of more than two genes,
    [GenerateCxEnds] panics exactly when a cut lies outside
    [1, size-1] or equals the cut before it; otherwise it returns the
    cuts and the size, sorted, so that the last end is the size. A cut
    repeated further away is accepted and stays twice among the ends. *)
Theorem GenerateCxEnds_given_cuts (size ncuts : Z) (cuts : list Z) :
  2 < size -> cuts <> [] ->
  (cuts_ok size cuts ->
     exists ends, GenerateCxEnds IntGetUniqueN size ncuts cuts = Ok ends /\
                  Permutation (cuts ++ [size]) ends /\
                  StronglySorted Z.le ends /\
                  last ends 0 = size) /\
  (~ cuts_ok size cuts ->
     failed (GenerateCxEnds IntGetUniqueN size ncuts cuts)).
Proof.
  intros Hsize Hne. split.
  - intros Hok. apply GenerateCxEnds_cuts_ends; assumption.
  - intros Hbad. unfold GenerateCxEnds.
    destruct (Z.ltb_spec size 2) as [?|_]; [lia|].
    destruct (Z.eqb_spec size 2) as [?|_]; [lia|].
    destruct (Z.gtb_spec (len cuts) 0) as [_|Hlen].
    2:{ destruct cuts; [congruence|]. unfold len in Hlen. simpl length in Hlen. lia. }
    pose proof (check_cuts_spec size cuts None) as Hspec.
    destruct (check_cuts_result size cuts None) as [Hc|Hc].
    + exfalso. apply Hbad. apply Hspec in Hc. tauto.
    + destruct (check_cuts size None cuts); [contradiction|]. exact I.
Qed.

(** The branch of [GenerateCxEnds] that draws the cuts: the ends are the
    [n] smallest values of the draw, in ascending order, and the size,
    for [n = min(max(1, ncuts), size-1)]. *)
Lemma GenerateCxEnds_draw_ends (size ncuts : Z) :
  2 < size -> draw_ok IntGetUniqueN size ncuts ->
  exists ends pool,
    GenerateCxEnds IntGetUniqueN size ncuts [] = Ok ends /\
    Permutation (IntGetUniqueN 1 size (clamp_ncuts size ncuts)) pool /\
    StronglySorted Z.le pool /\
    ends = firstn (Z.to_nat (clamp_ncuts size ncuts)) pool ++ [size] /\
    len ends = clamp_ncuts size ncuts + 1 /\
    StronglySorted Z.le ends /\
    Forall (fun e => 1 <= e <= size) ends /\
    last ends 0 = size.
Proof.
  intros Hsize [Hlen Hrange]. unfold GenerateCxEnds.
  destruct (Z.ltb_spec size 2) as [?|_]; [lia|].
  destruct (Z.eqb_spec size 2) as [?|_]; [lia|].
  change (len (@nil Z) >? 0) with false. cbv iota zeta.
  rewrite (clamp_ncuts_eq size ncuts).
  set (n := clamp_ncuts size ncuts) in *.
  assert (Hn : 1 <= n <= size - 1) by (unfold n, clamp_ncuts; lia).
  destruct (sort_Ints_sorted (IntGetUniqueN 1 size n)) as (r & Hr & Hperm & Hs).
  rewrite Hr. cbn [bind].
  assert (Hlr : (Z.to_nat n <= length r)%nat).
  { rewrite <- (Permutation_length Hperm). unfold len in Hlen. lia. }
  rewrite (take_firstn _ _ Hlr). cbn [bind].
  assert (Hr_range : Forall (fun c => 1 <= c < size) r)
    by exact (Permutation_Forall Hperm Hrange).
  assert (Hf_range : Forall (fun c => 1 <= c < size) (firstn (Z.to_nat n) r)).
  { rewrite <- (firstn_skipn (Z.to_nat n) r) in Hr_range.
    apply Forall_app in Hr_range. tauto. }
  exists (firstn (Z.to_nat n) r ++ [size]), r. split; [reflexivity|].
  split; [exact Hperm|]. split; [exact Hs|]. split; [reflexivity|].
  split.
  { unfold len. rewrite length_app, length_firstn. simpl. lia. }
  split.
  { apply StronglySorted_snoc; [apply StronglySorted_firstn; exact Hs|].
    eapply Forall_impl; [|exact Hf_range]. simpl. intros; lia. }
  split.
  { apply Forall_app. split.
    - eapply Forall_impl; [|exact Hf_range]. simpl. intros; lia.
    - constructor; [lia | constructor]. }
  apply last_snoc.
Qed.

(** X17. With no cut given for a chromosome of more than two genes,
    [GenerateCxEnds] asks for [n = min(max(1, ncuts), size-1)] cut
    positions and, when the draw provides them, returns the [n] smallest
    values of the draw in ascending order, followed by the size: [n + 1]
    ends within [1, size], sorted, the last one the size. When the draw
    holds exactly [n] values the ends are the drawn values and the size,
    rearranged. *)
Theorem GenerateCxEnds_random (size ncuts : Z) :
  2 < size -> draw_ok IntGetUniqueN size ncuts ->
  exists ends pool,
    GenerateCxEnds IntGetUniqueN size ncuts [] = Ok ends /\
    Permutation (IntGetUniqueN 1 size (clamp_ncuts size ncuts)) pool /\
    StronglySorted Z.le pool /\
    ends = firstn (Z.to_nat (clamp_ncuts size ncuts)) pool ++ [size] /\
    (len (IntGetUniqueN 1 size (clamp_ncuts size ncuts))
     = clamp_ncuts size ncuts ->
     Permutation (IntGetUniqueN 1 size (clamp_ncuts size ncuts) ++ [size])
                 ends) /\
    len ends = clamp_ncuts size ncuts + 1 /\
    StronglySorted Z.le ends /\
    Forall (fun e => 1 <= e <= size) ends /\
    last ends 0 = size.
Proof.
  intros Hsize Hdraw.
  destruct (GenerateCxEnds_draw_ends size ncuts Hsize Hdraw)
    as (ends & pool & He & Hperm & Hs & Heq & Hlen & Hse & Hr & Hl).
  exists ends, pool. repeat (split; [assumption|]).
  split; [|repeat (split; [assumption|]); assumption].
  intros Hexact. rewrite Heq.
  rewrite firstn_all2.
  - apply Permutation_app_tail. exact Hperm.
  - rewrite <- (Permutation_length Hperm). unfold len in Hexact. lia.
Qed.

Section CrossoverGenes.
Context {T : Type}.
Variables A B : list T.
Hypothesis len_B : (length A <= length B)%nat.

Lemma cx_gene_ok (swap : bool) (j : Z) (a b : list T) :
  0 <= j < len A ->
  (length A <= length a)%nat -> (length A <= length b)%nat ->
  exists a' b',
    cx_gene swap A B j (a, b) = Ok (a', b') /\
    length a' = length a /\ length b' = length b /\
    nth_error a' (Z.to_nat j) = nth_error (if swap then B else A) (Z.to_nat j) /\
    nth_error b' (Z.to_nat j) = nth_error (if swap then A else B) (Z.to_nat j) /\
    forall k, k <> Z.to_nat j ->
      nth_error a' k = nth_error a k /\ nth_error b' k = nth_error b k.
Proof.
  unfold len. intros Hj Ha Hb. unfold cx_gene.
  destruct (index_ok A j) as (x & Hx & Hx'); [lia | lia |].
  destruct (index_ok B j) as (y & Hy & Hy'); [lia | lia |].
  rewrite Hx, Hy. cbn [bind].
  destruct (store_ok a j (if swap then y else x))
    as (a' & Hsa & Hla & Hva & Hoa); [lia | lia |].
  destruct (store_ok b j (if swap then x else y))
    as (b' & Hsb & Hlb & Hvb & Hob); [lia | lia |].
  exists a', b'. destruct swap; rewrite Hsa, Hsb; cbn [bind];
    (split; [reflexivity|]); (split; [exact Hla|]); (split; [exact Hlb|]);
    (split; [congruence|]); (split; [congruence|]);
    intros k Hk; split; auto.
Qed.

(** One stretch [start <= j < start + n] of the loop over the genes. *)
Lemma cx_segment (swap : bool) (n : nat) :
  forall (start : Z) (a b : list T),
    0 <= start -> start + Z.of_nat n <= len A ->
    (length A <= length a)%nat -> (length A <= length b)%nat ->
    exists a' b',
      for_loop n start (cx_gene swap A B) (a, b) = Ok (a', b') /\
      length a' = length a /\ length b' = length b /\
      forall k,
        (start <= Z.of_nat k < start + Z.of_nat n ->
           nth_error a' k = nth_error (if swap then B else A) k /\
           nth_error b' k = nth_error (if swap then A else B) k) /\
        (Z.of_nat k < start \/ start + Z.of_nat n <= Z.of_nat k ->
           nth_error a' k = nth_error a k /\ nth_error b' k = nth_error b k).
Proof.
  induction n as [|n IH]; intros start a b Hs Hn Ha Hb.
  - exists a, b. repeat split; auto; lia.
  - cbn [for_loop].
    destruct (cx_gene_ok swap start a b) as (a1 & b1 & H1 & Hla & Hlb & Hva & Hvb & Ho);
      [lia | exact Ha | exact Hb |].
    rewrite H1. cbn [bind].
    destruct (IH (start + 1) a1 b1) as (a' & b' & H2 & Hla' & Hlb' & Hk);
      [lia | lia | lia | lia |].
    exists a', b'. split; [exact H2|]. split; [lia|]. split; [lia|].
    intros k. split.
    + intros Hr. destruct (Z.eq_dec (Z.of_nat k) start) as [E|E].
      * destruct (Hk k) as [_ Hout].
        destruct Hout as [Ea Eb]; [lia|].
        assert (k = Z.to_nat start) by lia. subst k.
        rewrite Ea, Eb. split; assumption.
      * destruct (Hk k) as [Hin _]. apply Hin. lia.
    + intros Hr. destruct (Hk k) as [_ Hout].
      destruct Hout as [Ea Eb]; [lia|].
      destruct (Ho k) as [Ea' Eb']; [lia|].
      rewrite Ea, Eb. split; assumption.
Qed.

Lemma crossings_before (ends : list Z) (j : Z) :
  Forall (fun e => j < e) ends -> crossings ends j = O.
Proof.
  unfold crossings. induction 1 as [|e ends He _ IH]; simpl; [reflexivity|].
  destruct (Z.leb_spec e j); [lia | exact IH].
Qed.

Lemma sorted_last_ge (ends : list Z) (e : Z) :
  StronglySorted Z.le (e :: ends) -> e <= last ends e.
Proof.
  revert e. induction ends as [|x ends IH]; intros e Hs; [simpl; lia|].
  apply StronglySorted_inv in Hs as [Hs He].
  inversion He as [|? ? Hex _]; subst.
  specialize (IH x Hs). rewrite last_cons_default. lia.
Qed.

(** The loop over the ends, from any [start] and [swap]. *)
Lemma cx_ends_spec (ends : list Z) :
  forall (start : Z) (swap : bool) (a b : list T),
    0 <= start -> StronglySorted Z.le (start :: ends) ->
    Forall (fun e => e <= len A) ends ->
    (length A <= length a)%nat -> (length A <= length b)%nat ->
    exists a' b',
      cx_ends ends start swap A B (a, b) = Ok (a', b') /\
      length a' = length a /\ length b' = length b /\
      forall k,
        (start <= Z.of_nat k < last ends start ->
           nth_error a' k
           = nth_error (if xorb swap (swapped ends k) then B else A) k /\
           nth_error b' k
           = nth_error (if xorb swap (swapped ends k) then A else B) k) /\
        (Z.of_nat k < start \/ last ends start <= Z.of_nat k ->
           nth_error a' k = nth_error a k /\ nth_error b' k = nth_error b k).
Proof.
  induction ends as [|e ends IH]; intros start swap a b Hs Hsorted Hall Ha Hb.
  - exists a, b. simpl. repeat split; auto; lia.
  - cbn [cx_ends].
    pose proof Hsorted as Hsorted0.
    apply StronglySorted_inv in Hsorted as [Hsorted Hstart].
    inversion Hstart as [|? ? Hse Hstart']; subst.
    inversion Hall as [|? ? He Hall']; subst.
    destruct (cx_segment swap (Z.to_nat (e - start)) start a b)
      as (a1 & b1 & H1 & Hla & Hlb & Hk1); [lia | lia | exact Ha | exact Hb |].
    rewrite H1. cbn [bind].
    destruct (IH e (negb swap) a1 b1) as (a' & b' & H2 & Hla' & Hlb' & Hk2);
      [lia | exact Hsorted | exact Hall' | lia | lia |].
    exists a', b'. split; [exact H2|]. split; [lia|]. split; [lia|].
    rewrite last_cons_default.
    pose proof (sorted_last_ge ends e Hsorted) as Hlast.
    intros k. split.
    + intros Hr. destruct (Z.lt_ge_cases (Z.of_nat k) e) as [Hlt|Hge].
      * destruct (Hk2 k) as [_ Hout]. destruct Hout as [Ea Eb]; [lia|].
        destruct (Hk1 k) as [Hin _]. destruct Hin as [Ea' Eb']; [lia|].
        assert (Hsw : swapped (e :: ends) k = false).
        { unfold swapped. rewrite crossings_before; [reflexivity|].
          constructor; [exact Hlt|].
          apply StronglySorted_inv in Hsorted as [_ Hge].
          eapply Forall_impl; [|exact Hge]. simpl. intros; lia. }
        rewrite Hsw, xorb_false_r, Ea, Eb. split; assumption.
      * destruct (Hk2 k) as [Hin _]. destruct Hin as [Ea Eb]; [lia|].
        assert (Hsw : swapped (e :: ends) k = negb (swapped ends k)).
        { unfold swapped, crossings. simpl.
          destruct (Z.leb_spec e (Z.of_nat k)); [|lia].
          simpl length. rewrite Nat.odd_succ, <- Nat.negb_odd. reflexivity. }
        rewrite Hsw.
        replace (xorb swap (negb (swapped ends k)))
          with (xorb (negb swap) (swapped ends k))
          by (destruct swap, (swapped ends k); reflexivity).
        split; assumption.
    + intros Hr. destruct (Hk2 k) as [_ Hout].
      destruct Hout as [Ea Eb]; [lia|].
      destruct (Hk1 k) as [_ Hout1]. destruct Hout1 as [Ea' Eb']; [lia|].
      rewrite Ea, Eb. split; assumption.
Qed.
End CrossoverGenes.

Lemma GenerateCxEnds_ends_ok (size ncuts : Z) (cuts : list Z) :
  2 <= size -> cuts_ok size cuts ->
  (cuts = [] -> draw_ok IntGetUniqueN size ncuts) ->
  exists ends, GenerateCxEnds IntGetUniqueN size ncuts cuts = Ok ends /\
               ends_ok size ends.
Proof.
  intros Hsize Hok Hdraw.
  destruct (Z.eq_dec size 2) as [->|Hne].
  { exists [1; 2]. split; [reflexivity|]. unfold ends_ok.
    repeat constructor; lia. }
  destruct cuts as [|c cuts].
  - destruct (GenerateCxEnds_draw_ends size ncuts)
      as (ends & pool & H & _ & _ & _ & _ & Hs & Hr & Hl); [lia | auto |].
    exists ends. unfold ends_ok. auto.
  - destruct (GenerateCxEnds_cuts_ends size ncuts (c :: cuts))
      as (ends & He & Hperm & Hs & Hl); [lia | discriminate | exact Hok |].
    exists ends. split; [exact He|].
    apply (ends_ok_sorted_snoc size (c :: cuts) ends); auto; [lia|].
    apply cuts_ok_range. exact Hok.
Qed.

(** X18. [IntCrossover], [FltCrossover], [StrCrossover], [KeyCrossover]
    and [FunCrossover], on children at least as long as the parent [A]
    and a parent [B] likewise, with acceptable cuts (or an acceptable
    draw when none is given): the call returns; the children keep their
    lengths; at each locus below [len(A)] child [a] holds the gene of
    [A] and child [b] that of [B], the other way round exactly where an
    odd number of ends lies at or before the locus; beyond [len(A)] the
    children are untouched; and without crossover (the coin says no, or
    fewer than two genes) no ends are returned, so the children are
    copies. With crossover the ends are sorted and finish with
    [len(A)]. *)
Theorem Crossover_exchanges_stretches {T} (a b A B : list T)
  (ncuts : Z) (cuts : list Z) (pc : float64) :
  (length A <= length B)%nat ->
  (length A <= length a)%nat -> (length A <= length b)%nat ->
  cuts_ok (len A) cuts ->
  (cuts = [] -> draw_ok IntGetUniqueN (len A) ncuts) ->
  exists a' b' ends,
    Crossover flip IntGetUniqueN a b A B ncuts cuts pc = Ok (a', b', ends) /\
    length a' = length a /\ length b' = length b /\
    (forall k, (k < length A)%nat ->
       nth_error a' k = nth_error (if swapped ends k then B else A) k /\
       nth_error b' k = nth_error (if swapped ends k then A else B) k) /\
    (forall k, (length A <= k)%nat ->
       nth_error a' k = nth_error a k /\ nth_error b' k = nth_error b k) /\
    (if flip pc && (2 <=? len A) then ends_ok (len A) ends else ends = []).
Proof.
  intros HB Ha Hb Hcuts Hdraw. unfold Crossover.
  destruct (flip pc); cbn [negb orb andb].
  2:{ destruct (cx_segment A B HB false (Z.to_nat (len A)) 0 a b)
        as (a' & b' & H & Hla & Hlb & Hk); [lia | unfold len; lia | auto | auto |].
      unfold for_range. rewrite H. cbn [bind].
      exists a', b', []. split; [reflexivity|]. split; [exact Hla|].
      split; [exact Hlb|]. split; [|split; [|reflexivity]].
      - intros k Hlt. apply (Hk k). unfold len. lia.
      - intros k Hge. apply (Hk k). unfold len. lia. }
  destruct (Z.ltb_spec (len A) 2) as [Hsmall|Hbig].
  { destruct (Z.leb_spec 2 (len A)) as [?|_]; [lia|].
    destruct (cx_segment A B HB false (Z.to_nat (len A)) 0 a b)
      as (a' & b' & H & Hla & Hlb & Hk); [lia | unfold len; lia | auto | auto |].
    unfold for_range. rewrite H. cbn [bind].
    exists a', b', []. split; [reflexivity|]. split; [exact Hla|].
    split; [exact Hlb|]. split; [|split; [|reflexivity]].
    - intros k Hlt. apply (Hk k). unfold len. lia.
    - intros k Hge. apply (Hk k). unfold len. lia. }
  destruct (Z.leb_spec 2 (len A)) as [_|?]; [|lia].
  destruct (GenerateCxEnds_ends_ok (len A) ncuts cuts Hbig Hcuts Hdraw)
    as (ends & He & Hok).
  rewrite He. cbn [bind].
  destruct Hok as (Hs & Hr & Hl).
  destruct (cx_ends_spec A B HB ends 0 false a b)
    as (a' & b' & H & Hla & Hlb & Hk); [lia | | | auto | auto |].
  { constructor; [exact Hs|]. eapply Forall_impl; [|exact Hr]. simpl. intros; lia. }
  { eapply Forall_impl; [|exact Hr]. simpl. intros; lia. }
  rewrite H. cbn [bind].
  exists a', b', ends. split; [reflexivity|]. split; [exact Hla|].
  split; [exact Hlb|]. rewrite Hl in Hk.
  split; [|split; [|unfold ends_ok; auto]].
  - intros k Hlt. destruct (Hk k) as [Hin _].
    rewrite !xorb_false_l in Hin. apply Hin. unfold len. lia.
  - intros k Hge. apply (Hk k). unfold len. lia.
Qed.

End CrossoverProps.

Lemma GenerateCxEnds_given_cuts_witness :
  (exists ends, GenerateCxEnds (fun _ _ _ => []) 8 0 [5; 1; 5] = Ok ends /\
                Permutation ([5; 1; 5] ++ [8]) ends /\
                StronglySorted Z.le ends /\ last ends 0 = 8).
Proof.
  apply (GenerateCxEnds_given_cuts (fun _ _ _ => []) 8 0 [5; 1; 5]); [lia | discriminate |].
  intros [|[|[|[|i]]]] c H; try discriminate; injection H as <-;
    (split; [lia | simpl; congruence]).
Defined.

Lemma GenerateCxEnds_random_witness :
  exists ends pool,
    GenerateCxEnds (fun _ _ _ => [7; 2; 4]) 8 3 [] = Ok ends /\
    Permutation [7; 2; 4] pool /\
    StronglySorted Z.le pool /\
    ends = firstn 3 pool ++ [8] /\
    (len [7; 2; 4] = clamp_ncuts 8 3 -> Permutation ([7; 2; 4] ++ [8]) ends) /\
    len ends = clamp_ncuts 8 3 + 1 /\
    StronglySorted Z.le ends /\
    Forall (fun e => 1 <= e <= 8) ends /\
    last ends 0 = 8.
Proof.
  apply (GenerateCxEnds_random (fun _ _ _ => [7; 2; 4]) 8 3); [lia|].
  split; [vm_compute; discriminate | repeat constructor; lia].
Defined.

(** The draw 7, 2, 4 for a chromosome of eight genes gives the ends 2,
    4, 7 and 8; of a longer draw the smallest values are kept. *)
Example GenerateCxEnds_random_examples :
  GenerateCxEnds (fun _ _ _ => [7; 2; 4]) 8 3 [] = Ok [2; 4; 7; 8] /\
  GenerateCxEnds (fun _ _ _ => [7; 2; 4; 3]) 8 3 [] = Ok [2; 3; 4; 8].
Proof. split; reflexivity. Qed.

Lemma Crossover_exchanges_stretches_witness :
  exists a' b' ends,
    Crossover (fun _ => true) (fun _ _ _ => []) [0; 0; 0; 0; 0; 0; 0; 0; 0]
      [0; 0; 0; 0; 0; 0; 0; 0; 0] [1; 2; 3; 4; 5; 6; 7; 8]
      [11; 12; 13; 14; 15; 16; 17; 18] 0 [1; 5] fhalf = Ok (a', b', ends) /\
    length a' = 9%nat /\ length b' = 9%nat /\
    (forall k, (k < 8)%nat ->
       nth_error a' k
       = nth_error (if swapped ends k then [11; 12; 13; 14; 15; 16; 17; 18]
                    else [1; 2; 3; 4; 5; 6; 7; 8]) k /\
       nth_error b' k
       = nth_error (if swapped ends k then [1; 2; 3; 4; 5; 6; 7; 8]
                    else [11; 12; 13; 14; 15; 16; 17; 18]) k) /\
    (forall k, (8 <= k)%nat ->
       nth_error a' k = nth_error [0; 0; 0; 0; 0; 0; 0; 0; 0] k /\
       nth_error b' k = nth_error [0; 0; 0; 0; 0; 0; 0; 0; 0] k) /\
    ends_ok 8 ends.
Proof.
  apply (Crossover_exchanges_stretches (fun _ => true) (fun _ _ _ => [])
           [0; 0; 0; 0; 0; 0; 0; 0; 0] [0; 0; 0; 0; 0; 0; 0; 0; 0]
           [1; 2; 3; 4; 5; 6; 7; 8] [11; 12; 13; 14; 15; 16; 17; 18]
           0 [1; 5] fhalf); simpl; try lia.
  - intros [|[|[|i]]] c H; try discriminate; injection H as <-;
      (split; [unfold len; simpl; lia | simpl; congruence]).
  - discriminate.
Defined.

(** The example of the source: parents of eight genes cut at 1 and 5. *)
Example Crossover_example :
  Crossover (fun _ => true) (fun _ _ _ => []) [0; 0; 0; 0; 0; 0; 0; 0]
    [0; 0; 0; 0; 0; 0; 0; 0] [1; 2; 3; 4; 5; 6; 7; 8]
    [11; 12; 13; 14; 15; 16; 17; 18] 0 [1; 5] fhalf
  = Ok ([1; 12; 13; 14; 15; 6; 7; 8], [11; 2; 3; 4; 5; 16; 17; 18], [1; 5; 8]).
Proof. vm_compute. reflexivity. Qed.

(* ================================================================== *)
(** * Properties of RouletteSelect and SUSselect *)

Lemma for_loop_ext {St} (f g : Z -> St -> result St) (n : nat) :
  forall (k : Z) (st : St),
    (forall i s, k <= i < k + Z.of_nat n -> f i s = g i s) ->
    for_loop n k f st = for_loop n k g st.
Proof.
  induction n as [|n IH]; intros k st H; [reflexivity|].
  cbn [for_loop]. rewrite (H k st) by lia.
  destruct (g k st) as [s'|m]; [|reflexivity]. cbn [bind].
  apply IH. intros i s Hi. apply H. lia.
Qed.

(** A loop over the elements of a slice is the counting loop that reads
    them by index. *)
Lemma range_loop_as_for_loop {A St} (d : A) (f : Z -> A -> St -> result St)
  (l : list A) :
  forall (k : Z) (st : St),
    range_loop l k f st
    = for_loop (length l) k
        (fun i st => f i (nth (Z.to_nat (i - k)) l d) st) st.
Proof.
  induction l as [|x l IH]; intros k st; [reflexivity|].
  cbn [range_loop length for_loop]. rewrite Z.sub_diag. cbn [Z.to_nat nth].
  destruct (f k x st) as [s'|m]; [|reflexivity]. cbn [bind].
  rewrite IH. apply for_loop_ext. intros i s Hi.
  replace (Z.to_nat (i - k)) with (S (Z.to_nat (i - (k + 1)))) by lia.
  reflexivity.
Qed.

Lemma first_above_spec (cumprob : list float64) (s : float64) :
  forall j0,
    match first_above cumprob j0 s with
    | Some j => exists n, j = j0 + Z.of_nat n /\ first_exceeding cumprob s n
    | None => none_exceeds cumprob s
    end.
Proof.
  induction cumprob as [|m rest IH]; intros j0; cbn [first_above].
  - constructor.
  - destruct (fgt m s) eqn:E.
    + exists O. split; [lia|]. split.
      * exists m. auto.
      * intros k m' Hk. lia.
    + specialize (IH (j0 + 1)).
      destruct (first_above rest (j0 + 1) s) as [j|].
      * destruct IH as (n & -> & (c & Hc & Hgt) & Hfirst).
        exists (S n). split; [lia|]. split.
        -- exists c. auto.
        -- intros [|k] m' Hk Hm; [injection Hm as <-; exact E|].
           apply (Hfirst k m'); [lia | exact Hm].
      * constructor; assumption.
Qed.

(** The outcome of a selection for the sample [s] at position [i]. *)
Lemma roulette_pick_ok (cumprob : list float64) (i : Z) (s : float64)
  (sel : list Z) :
  0 <= i < len sel ->
  exists sel',
    roulette_pick cumprob i s sel = Ok sel' /\ length sel' = length sel /\
    (forall k, k <> Z.to_nat i -> nth_error sel' k = nth_error sel k) /\
    ((exists j, first_exceeding cumprob s j /\
                nth_error sel' (Z.to_nat i) = Some (Z.of_nat j)) \/
     (none_exceeds cumprob s /\
      nth_error sel' (Z.to_nat i) = nth_error sel (Z.to_nat i))).
Proof.
  unfold len. intros Hi. unfold roulette_pick.
  pose proof (first_above_spec cumprob s 0) as Hspec.
  destruct (first_above cumprob 0 s) as [j|].
  - destruct Hspec as (n & -> & Hfirst).
    destruct (store_ok sel i (0 + Z.of_nat n)) as (sel' & Hs & Hl & Hv & Ho);
      [lia | lia |].
    exists sel'. split; [exact Hs|]. split; [exact Hl|]. split; [exact Ho|].
    left. exists n. split; [exact Hfirst|]. rewrite Hv. reflexivity.
  - exists sel. repeat split; auto.
Qed.

Lemma roulette_loop_spec (cumprob : list float64) (d : Z -> float64) (n : nat) :
  forall (k : Z) (sel : list Z),
    0 <= k -> k + Z.of_nat n <= len sel ->
    exists sel',
      for_loop n k (fun i sel => roulette_pick cumprob i (d i) sel) sel = Ok sel' /\
      length sel' = length sel /\
      forall i,
        (k <= Z.of_nat i < k + Z.of_nat n ->
           (exists j, first_exceeding cumprob (d (Z.of_nat i)) j /\
                      nth_error sel' i = Some (Z.of_nat j)) \/
           (none_exceeds cumprob (d (Z.of_nat i)) /\
            nth_error sel' i = nth_error sel i)) /\
        (Z.of_nat i < k \/ k + Z.of_nat n <= Z.of_nat i ->
           nth_error sel' i = nth_error sel i).
Proof.
  induction n as [|n IH]; intros k sel Hk Hn.
  - exists sel. repeat split; auto. lia.
  - cbn [for_loop].
    destruct (roulette_pick_ok cumprob k (d k) sel) as (s1 & H1 & Hl1 & Ho1 & Hp1);
      [lia|].
    rewrite H1. cbn [bind].
    destruct (IH (k + 1) s1) as (sel' & H2 & Hl2 & Hi2);
      [lia | unfold len in *; lia |].
    exists sel'. split; [exact H2|]. split; [lia|].
    intros i. split.
    + intros Hr. destruct (Z.eq_dec (Z.of_nat i) k) as [E|E].
      * destruct (Hi2 i) as [_ Hout]. rewrite Hout by lia.
        assert (Ei : i = Z.to_nat k) by lia.
        rewrite E. rewrite Ei. exact Hp1.
      * destruct (Hi2 i) as [Hin _].
        destruct Hin as [Hfound|[Hnone Hsame]]; [lia | left; exact Hfound |].
        right. split; [exact Hnone|]. rewrite Hsame. apply Ho1. lia.
    + intros Hr. destruct (Hi2 i) as [_ Hout]. rewrite Hout by lia.
      apply Ho1. lia.
Qed.

Section SelectionProps.
Variable rand_Float64 : nat -> float64.
Variable rnd_Float64 : float64 -> float64 -> float64.
Variable IntAssertLessThan : Z -> Z -> result unit.

(** X19. [RouletteSelect], once its assertion on the sizes has passed
    and a given sample has as many entries as there are selections:
    the call returns, and its [i]-th selection is the first index whose
    cumulated probability exceeds the [i]-th sample; when no cumulated
    probability exceeds the sample, [selinds[i]] is left as it was. *)
Theorem RouletteSelect_picks_first_exceeding (selinds : list Z)
  (cumprob : list float64) (sample : option (list float64)) :
  IntAssertLessThan (len selinds) (len cumprob) = Ok tt ->
  (forall l, sample = Some l -> length l = length selinds) ->
  exists sel,
    RouletteSelect rand_Float64 IntAssertLessThan selinds cumprob sample = Ok sel /\
    length sel = length selinds /\
    forall i s, (i < length selinds)%nat ->
      roulette_sample rand_Float64 sample i = Some s ->
      (exists j, first_exceeding cumprob s j /\
                 nth_error sel i = Some (Z.of_nat j)) \/
      (none_exceeds cumprob s /\ nth_error sel i = nth_error selinds i).
Proof.
  intros Hassert Hsample. unfold RouletteSelect. rewrite Hassert. cbn [bind].
  destruct sample as [l|].
  - specialize (Hsample l eq_refl).
    unfold IntAssert, len. rewrite Hsample, Z.eqb_refl. cbn [bind].
    rewrite (range_loop_as_for_loop fzero).
    destruct (roulette_loop_spec cumprob
                (fun i => nth (Z.to_nat (i - 0)) l fzero) (length l) 0 selinds)
      as (sel & H & Hl & Hi); [lia | unfold len; lia |].
    exists sel. split; [exact H|]. split; [exact Hl|].
    intros i s Hlt Hs. simpl in Hs.
    destruct (Hi i) as [Hin _].
    rewrite Z.sub_0_r, Nat2Z.id in Hin.
    rewrite (nth_error_nth l i fzero Hs) in Hin. apply Hin. lia.
  - unfold for_range.
    destruct (roulette_loop_spec cumprob (fun i => rand_Float64 (Z.to_nat i))
                (Z.to_nat (len selinds)) 0 selinds)
      as (sel & H & Hl & Hi); [lia | unfold len; lia |].
    exists sel. split; [exact H|]. split; [exact Hl|].
    intros i s Hlt Hs. simpl in Hs. injection Hs as <-.
    destruct (Hi i) as [Hin _]. rewrite Nat2Z.id in Hin.
    apply Hin. unfold len. lia.
Qed.

Lemma sus_scan_spec (cumprob : list float64) (p : float64) :
  forall j0,
    match sus_scan cumprob j0 p with
    | Ok j => exists n, j = j0 + Z.of_nat n /\ first_not_below cumprob p n
    | Panic _ => exceeds_all cumprob p
    end.
Proof.
  induction cumprob as [|c rest IH]; intros j0; cbn [sus_scan].
  - constructor.
  - destruct (fgt p c) eqn:E.
    + specialize (IH (j0 + 1)).
      destruct (sus_scan rest (j0 + 1) p) as [j|m].
      * destruct IH as (n & -> & (c' & Hc & Hle) & Hfirst).
        exists (S n). split; [lia|]. split.
        -- exists c'. auto.
        -- intros [|k] c'' Hk Hm; [injection Hm as <-; exact E|].
           apply (Hfirst k c''); [lia | exact Hm].
      * constructor; assumption.
    + exists O. split; [lia|]. split.
      * exists c. auto.
      * intros k c' Hk. lia.
Qed.

Lemma first_not_below_not_all (cumprob : list float64) (p : float64) (j : nat) :
  first_not_below cumprob p j -> ~ exceeds_all cumprob p.
Proof.
  intros [(c & Hc & Hle) _] Hall.
  apply nth_error_In in Hc.
  unfold exceeds_all in Hall. rewrite Forall_forall in Hall.
  rewrite (Hall c Hc) in Hle. discriminate.
Qed.

Lemma first_not_below_unique (cumprob : list float64) (p : float64) (j j' : nat) :
  first_not_below cumprob p j -> first_not_below cumprob p j' -> j = j'.
Proof.
  intros [(c & Hc & Hle) Hf] [(c' & Hc' & Hle') Hf'].
  destruct (Nat.lt_trichotomy j j') as [H|[H|H]]; [|exact H|].
  - rewrite (Hf' j c H Hc) in Hle. discriminate.
  - rewrite (Hf j' c' H Hc') in Hle'. discriminate.
Qed.

Lemma sus_loop_spec (cumprob : list float64) (dp : float64) (n : nat) :
  forall (k : Z) (sel : list Z) (p : float64),
    0 <= k -> k + Z.of_nat n <= len sel ->
    (forall t, (t < n)%nat ->
       exists j, first_not_below cumprob (sus_pointer p dp t) j) ->
    exists sel',
      for_loop n k (sus_step cumprob dp) (sel, p)
      = Ok (sel', sus_pointer p dp n) /\
      length sel' = length sel /\
      forall i,
        (k <= Z.of_nat i < k + Z.of_nat n ->
           exists j, nth_error sel' i = Some (Z.of_nat j) /\
                     first_not_below cumprob
                       (sus_pointer p dp (i - Z.to_nat k)) j) /\
        (Z.of_nat i < k \/ k + Z.of_nat n <= Z.of_nat i ->
           nth_error sel' i = nth_error sel i).
Proof.
  induction n as [|n IH]; intros k sel p Hk Hn Hall.
  - exists sel. repeat split; auto. lia.
  - cbn [for_loop sus_step].
    destruct (Hall O) as (j & Hj); [lia|]. cbn [sus_pointer] in Hj.
    pose proof (sus_scan_spec cumprob p 0) as Hscan.
    destruct (sus_scan cumprob 0 p) as [j'|m].
    2:{ exfalso. exact (first_not_below_not_all _ _ _ Hj Hscan). }
    destruct Hscan as (n' & -> & Hn').
    assert (n' = j) by (eapply first_not_below_unique; eauto). subst n'.
    cbn [bind].
    destruct (store_ok sel k (0 + Z.of_nat j)) as (s1 & Hs1 & Hl1 & Hv1 & Ho1);
      [lia | unfold len in *; lia |].
    rewrite Hs1. cbn [bind].
    destruct (IH (k + 1) s1 (fadd p dp)) as (sel' & H2 & Hl2 & Hi2);
      [lia | unfold len in *; lia | |].
    { intros t Ht. apply (Hall (S t)). lia. }
    exists sel'. split; [exact H2|]. split; [lia|].
    intros i. split.
    + intros Hr. destruct (Z.eq_dec (Z.of_nat i) k) as [E|E].
      * destruct (Hi2 i) as [_ Hout]. rewrite Hout by lia.
        assert (Ei : i = Z.to_nat k) by lia. subst i.
        rewrite Nat.sub_diag. cbn [sus_pointer].
        exists j. split; [rewrite Hv1; reflexivity | exact Hn'].
      * destruct (Hi2 i) as [Hin _].
        destruct Hin as (j2 & Hj2 & Hf2); [lia|].
        exists j2. split; [exact Hj2|].
        replace (i - Z.to_nat k)%nat with (S (i - Z.to_nat (k + 1)))%nat by lia.
        exact Hf2.
    + intros Hr. destruct (Hi2 i) as [_ Hout]. rewrite Hout by lia.
      apply Ho1. lia.
Qed.

Lemma sus_loop_fails (cumprob : list float64) (dp : float64) (n : nat) :
  forall (k : Z) (sel : list Z) (p : float64) (t : nat),
    (t < n)%nat -> exceeds_all cumprob (sus_pointer p dp t) ->
    failed (for_loop n k (sus_step cumprob dp) (sel, p)).
Proof.
  induction n as [|n IH]; intros k sel p t Ht Hall; [lia|].
  cbn [for_loop sus_step].
  pose proof (sus_scan_spec cumprob p 0) as Hscan.
  destruct (sus_scan cumprob 0 p) as [j|m]; [|exact I].
  cbn [bind]. destruct (store sel k j) as [s1|m]; [|exact I]. cbn [bind].
  destruct t as [|t].
  - destruct Hscan as (n' & _ & Hn'). exfalso.
    exact (first_not_below_not_all _ _ _ Hn' Hall).
  - apply (IH (k + 1) s1 (fadd p dp) t); [lia | exact Hall].
Qed.

(** X20. [SUSselect], once its assertion on the sizes has passed. The
    pointer starts at [pb] (at the draw of [rnd.Float64(0, dp)] when
    [pb < 0]) and advances by [dp = 1/nsel] per selection. If every
    pointer has a cumulated probability it does not exceed, the call
    returns and the [i]-th selection is the first such index; if some
    pointer exceeds all cumulated probabilities, the scan runs off the
    end of [cumprob] and the call panics. *)
Theorem SUSselect_follows_pointer (selinds : list Z) (cumprob : list float64)
  (pb : float64) :
  IntAssertLessThan (len selinds) (len cumprob) = Ok tt ->
  let dp := fdiv fone (float64_of_int (len selinds)) in
  let pb0 := if flt pb fzero then rnd_Float64 fzero dp else pb in
  ((forall i, (i < length selinds)%nat ->
      exists j, first_not_below cumprob (sus_pointer pb0 dp i) j) ->
   exists sel,
     SUSselect rnd_Float64 IntAssertLessThan selinds cumprob pb = Ok sel /\
     length sel = length selinds /\
     forall i, (i < length selinds)%nat ->
       exists j, nth_error sel i = Some (Z.of_nat j) /\
                 first_not_below cumprob (sus_pointer pb0 dp i) j) /\
  ((exists i, (i < length selinds)%nat /\
              exceeds_all cumprob (sus_pointer pb0 dp i)) ->
   failed (SUSselect rnd_Float64 IntAssertLessThan selinds cumprob pb)).
Proof.
  intros Hassert dp pb0. unfold SUSselect. rewrite Hassert. cbn [bind].
  fold dp. fold pb0. cbv zeta. unfold for_range. split.
  - intros Hall.
    destruct (sus_loop_spec cumprob dp (Z.to_nat (len selinds)) 0 selinds pb0)
      as (sel & H & Hl & Hi); [lia | unfold len; lia | |].
    { intros t Ht. apply Hall. unfold len in Ht. lia. }
    rewrite H. cbn [bind fst].
    exists sel. split; [reflexivity|]. split; [exact Hl|].
    intros i Hlt. destruct (Hi i) as [Hin _].
    destruct Hin as (j & Hj & Hf); [unfold len; lia|].
    exists j. split; [exact Hj|].
    replace (i - Z.to_nat 0)%nat with i in Hf by lia. exact Hf.
  - intros (i & Hlt & Hall).
    pose proof (sus_loop_fails cumprob dp (Z.to_nat (len selinds)) 0 selinds
                  pb0 i) as Hfail.
    destruct (for_loop (Z.to_nat (len selinds)) 0 (sus_step cumprob dp)
                (selinds, pb0)); [|exact I].
    apply Hfail; [unfold len; lia | exact Hall].
Qed.
End SelectionProps.

Lemma RouletteSelect_picks_first_exceeding_witness :
  exists sel,
    RouletteSelect (fun _ => fzero) assert_less [7; 7] [fhalf; fone; fone]
      (Some [fzero; fone]) = Ok sel /\
    length sel = 2%nat /\
    forall i s, (i < 2)%nat ->
      roulette_sample (fun _ => fzero) (Some [fzero; fone]) i = Some s ->
      (exists j, first_exceeding [fhalf; fone; fone] s j /\
                 nth_error sel i = Some (Z.of_nat j)) \/
      (none_exceeds [fhalf; fone; fone] s /\ nth_error sel i = nth_error [7; 7] i).
Proof.
  apply (RouletteSelect_picks_first_exceeding (fun _ => fzero) assert_less
           [7; 7] [fhalf; fone; fone] (Some [fzero; fone])).
  - reflexivity.
  - intros l H. injection H as <-. reflexivity.
Defined.

(** A sample that no cumulated probability exceeds leaves the entry of
    [selinds] as it was: here the second one keeps its 7. *)
Example RouletteSelect_stale_entry :
  RouletteSelect (fun _ => fzero) assert_less [7; 7] [fhalf; fone; fone]
    (Some [fzero; fone]) = Ok [0; 7].
Proof. vm_compute. reflexivity. Qed.

Lemma SUSselect_follows_pointer_witness :
  failed (SUSselect (fun _ _ => fzero) assert_less [7; 7] [f0_4; f0_6; fone] fone).
Proof.
  apply (SUSselect_follows_pointer (fun _ _ => fzero) assert_less [7; 7]
           [f0_4; f0_6; fone] fone); [reflexivity|].
  exists 1%nat. split; [simpl; lia|]. repeat constructor.
Defined.

Example SUSselect_example :
  SUSselect (fun _ _ => fzero) assert_less [7; 7] [f0_4; f0_6; fone] f0_4
  = Ok [0; 2].
Proof. vm_compute. reflexivity. Qed.

(* ================================================================== *)
(** * FilterPairs on slices of any length *)

(** X21. [FilterPairs], whatever the shuffles return as long as they
    permute: with [A] and [B] of length [n/2] the call returns and every
    pair [i] is filled, [A[i]] with [selinds[2i]] and [B[i]] with
    [selinds[2i+1]] when the two differ, on a collision with another of
    the selected indices if there is one and with the same parent again
    if there is none; with [A] or [B] of any other length it panics. *)
Theorem FilterPairs_fills_pairs (shuffle : nat -> list Z -> list Z)
  (A B selinds : list Z) :
  (forall k l, Permutation l (shuffle k l)) ->
  (length A = Nat.div2 (length selinds) ->
   length B = Nat.div2 (length selinds) ->
   exists A' B',
     FilterPairs shuffle A B selinds = Ok (A', B') /\
     length A' = length A /\ length B' = length B /\
     forall j, (j < Nat.div2 (length selinds))%nat ->
               exists a b, nth_error A' j = Some a /\ nth_error B' j = Some b /\
                           pair_ok selinds j a b) /\
  (length A <> Nat.div2 (length selinds) \/
   length B <> Nat.div2 (length selinds) ->
   failed (FilterPairs shuffle A B selinds)).
Proof.
  intros Hperm. split.
  - apply FilterPairs_spec. exact Hperm.
  - intros Hbad. unfold FilterPairs, IntAssert.
    assert (Hq : Z.quot (len selinds) 2 = Z.of_nat (Nat.div2 (length selinds))).
    { unfold len. rewrite Z.quot_div_nonneg by lia.
      rewrite Nat.div2_div, Nat2Z.inj_div. reflexivity. }
    rewrite Hq. unfold len.
    destruct (Z.eqb_spec (Z.of_nat (length A))
                (Z.of_nat (Nat.div2 (length selinds)))) as [EA|EA];
      [|exact I].
    cbn [bind].
    destruct (Z.eqb_spec (Z.of_nat (length B))
                (Z.of_nat (Nat.div2 (length selinds)))) as [EB|EB];
      [|exact I].
    exfalso. destruct Hbad as [H|H]; apply H; lia.
Qed.

Lemma FilterPairs_fills_pairs_witness :
  failed (FilterPairs (fun _ l => rev l) [7; 7; 7] [7; 7] [0; 2; 1; 1]).
Proof.
  apply (FilterPairs_fills_pairs (fun _ l => rev l) [7; 7; 7] [7; 7] [0; 2; 1; 1]).
  - intros k l. apply Permutation_rev.
  - left. simpl. lia.
Defined.
